(** * disturbdb: peer identity, wire framing and the connection registry

    A shallow embedding of the Go packages [keys], [id], [message],
    [utils], [client] and [log] of disturbdb, together with the parts of
    the Go standard library they call ([encoding/binary], [encoding/hex],
    [encoding/json], [unicode/utf8], [fmt], [net], [strconv], [io],
    [crypto/sha512], [crypto/ed25519]).  Each Go function is a Rocq
    function of the same name, inside a module named after its package.  The library functions are written after the Go
    sources, at the level of the numbers they compute; the arithmetic of
    the curve sits behind the interface [edwards25519.Curve], so that what
    signing needs of it can be stated as laws.

    Conventions.
    - A Go [[]byte] is a [list byte]; a fixed array [[n]byte] is a
      [vec byte n]; a [string] is a [string].
    - [uint16] and [uint64] are [Z], with truncation written out where
      the source converts.
    - A Go function that can fail or panic returns a [result]: [Ok v],
      [Err e] for a returned [error], [Panic] for a run-time panic. *)

From Stdlib Require Import ZArith Lia List Strings.Byte Strings.Ascii Strings.String.
From Stdlib Require DecimalString HexadecimalString.
From Bignums Require Import BigZ.
From stdpp Require Import base tactics option list vector strings gmap.

Local Open Scope Z_scope.

(** ** Errors and results *)

Inductive error : Type :=
  | ErrEOF                                (* io.EOF *)
  | ErrUnexpectedEOF                      (* io.ErrUnexpectedEOF *)
  | ErrInvalidSignatureType               (* errors.New("invalid signature type") *)
  | ErrHexInvalidByte (c : ascii)         (* hex.InvalidByteError *)
  | ErrHexLength                          (* hex.ErrLength *)
  | ErrDecodeKey (cause : error)          (* "failed to decode private key from hex: %w" *)
  | ErrInvalidKeySize (got expected : nat) (cause : error)
                                          (* "invalid private key size: ...: %w" *)
  | ErrGenerateKeys (cause : error)       (* "failed to generate keys: %w" *)
  | ErrOther (msg : string).

Inductive result (A : Type) : Type :=
  | Ok (a : A)
  | Err (e : error)
  | Panic.
Arguments Ok {A} a.
Arguments Err {A} e.
Arguments Panic {A}.

#[global] Instance result_ret : MRet result := λ A a, Ok a.
#[global] Instance result_bind : MBind result := λ A B k r,
  match r with
  | Ok a => k a
  | Err e => Err e
  | Panic => Panic
  end.

(** ** Bytes *)

Abbreviation byte := Byte.byte.

#[global] Instance byte_eq_dec : EqDecision byte := Byte.byte_eq_dec.

(** Go's conversion [byte(v)]: the low eight bits. *)
Definition byte_of_Z (v : Z) : byte :=
  default Byte.x00 (Byte.of_N (Z.to_N (v mod 256))).

(** Go's conversion [uint64(b)] (and [uint16(b)]). *)
Definition Z_of_byte (b : byte) : Z := Z.of_N (Byte.to_N b).

(** [make([]byte, n)] *)
Definition make (n : nat) : list byte := replicate n Byte.x00.

(** The slice [b[lo:hi]] of a slice of length and capacity [length b]. *)
Definition slice (b : list byte) (lo hi : nat) : result (list byte) :=
  if decide (lo ≤ hi ≤ length b)%nat then Ok (take (hi - lo) (drop lo b)) else Panic.

(** Writing [w] through the slice [b[:length w]] changes the front of [b]. *)
Definition store_front (w b : list byte) : list byte := w ++ drop (length w) b.

Module binary.
(** [encoding/binary], [BigEndian]. *)

Definition Uint16 (b : list byte) : result Z :=
  match b with
  | b0 :: b1 :: _ => Ok (Z.lor (Z_of_byte b1) (Z.shiftl (Z_of_byte b0) 8))
  | _ => Panic
  end.

(** [PutUint16(b, v)] returns the new contents of [b]. *)
Definition PutUint16 (b : list byte) (v : Z) : result (list byte) :=
  match b with
  | _ :: _ :: rest => Ok (byte_of_Z (Z.shiftr v 8) :: byte_of_Z v :: rest)
  | _ => Panic
  end.

Definition Uint64 (b : list byte) : result Z :=
  match b with
  | b0 :: b1 :: b2 :: b3 :: b4 :: b5 :: b6 :: b7 :: _ =>
      Ok (Z.lor (Z.lor (Z.lor (Z.lor (Z.lor (Z.lor (Z.lor
            (Z_of_byte b7)
            (Z.shiftl (Z_of_byte b6) 8))
            (Z.shiftl (Z_of_byte b5) 16))
            (Z.shiftl (Z_of_byte b4) 24))
            (Z.shiftl (Z_of_byte b3) 32))
            (Z.shiftl (Z_of_byte b2) 40))
            (Z.shiftl (Z_of_byte b1) 48))
            (Z.shiftl (Z_of_byte b0) 56))
  | _ => Panic
  end.

Definition PutUint64 (b : list byte) (v : Z) : result (list byte) :=
  match b with
  | _ :: _ :: _ :: _ :: _ :: _ :: _ :: _ :: rest =>
      Ok (byte_of_Z (Z.shiftr v 56) :: byte_of_Z (Z.shiftr v 48)
          :: byte_of_Z (Z.shiftr v 40) :: byte_of_Z (Z.shiftr v 32)
          :: byte_of_Z (Z.shiftr v 24) :: byte_of_Z (Z.shiftr v 16)
          :: byte_of_Z (Z.shiftr v 8) :: byte_of_Z v :: rest)
  | _ => Panic
  end.
End binary.

(** The eight bytes [PutUint64] writes, and the two of [PutUint16]. *)
Definition be64 (v : Z) : list byte :=
  [byte_of_Z (Z.shiftr v 56); byte_of_Z (Z.shiftr v 48); byte_of_Z (Z.shiftr v 40);
   byte_of_Z (Z.shiftr v 32); byte_of_Z (Z.shiftr v 24); byte_of_Z (Z.shiftr v 16);
   byte_of_Z (Z.shiftr v 8); byte_of_Z v].
Definition be16 (v : Z) : list byte :=
  [byte_of_Z (Z.shiftr v 8); byte_of_Z v].

(** The number a big-endian byte string denotes. *)
Definition be_value (b : list byte) : Z :=
  fold_left (λ acc x, 256 * acc + Z_of_byte x) b 0.

Module hex.
(** [encoding/hex] *)

(** The value of a hexadecimal digit; [None] where the package's
    [reverseHexTable] holds [0xff]. *)
Definition fromHexChar (c : ascii) : option Z :=
  let n := Z.of_N (N_of_ascii c) in
  if (48 <=? n) && (n <=? 57) then Some (n - 48)            (* '0'..'9' *)
  else if (97 <=? n) && (n <=? 102) then Some (n - 97 + 10) (* 'a'..'f' *)
  else if (65 <=? n) && (n <=? 70) then Some (n - 65 + 10)  (* 'A'..'F' *)
  else None.

(** [Decode]: the bytes decoded so far and the error, if any. *)
Fixpoint Decode (src : string) : list byte * option error :=
  match src with
  | EmptyString => ([], None)
  | String p EmptyString =>
      match fromHexChar p with
      | None => ([], Some (ErrHexInvalidByte p))
      | Some _ => ([], Some ErrHexLength)
      end
  | String p (String q rest) =>
      match fromHexChar p with
      | None => ([], Some (ErrHexInvalidByte p))
      | Some a =>
          match fromHexChar q with
          | None => ([], Some (ErrHexInvalidByte q))
          | Some b =>
              let '(out, err) := Decode rest in
              (byte_of_Z (Z.lor (Z.shiftl a 4) b) :: out, err)
          end
      end
  end.

Definition DecodeString (s : string) : list byte * option error := Decode s.

Definition hexDigit (v : Z) : ascii :=
  ascii_of_N (Z.to_N (if v <? 10 then 48 + v else 97 + (v - 10))).

Fixpoint EncodeToString (src : list byte) : string :=
  match src with
  | [] => EmptyString
  | b :: rest =>
      String (hexDigit (Z.shiftr (Z_of_byte b) 4))
        (String (hexDigit (Z.land (Z_of_byte b) 15)) (EncodeToString rest))
  end.
End hex.

Module strconv.
(** [FormatUint(v, 10)] *)
Definition FormatUint (v : Z) : string :=
  DecimalString.NilZero.string_of_uint (N.to_uint (Z.to_N v)).
End strconv.

Module fmt.
(** The verb [%d] applied to an [int]. *)
Definition verb_d (v : Z) : string :=
  if decide (v < 0) then "-" +:+ strconv.FormatUint (- v) else strconv.FormatUint v.
End fmt.

Module utf8.
(** [unicode/utf8] *)
Definition RuneError : Z := 65533.

Definition code (c : ascii) : Z := Z.of_N (N_of_ascii c).

(** A byte between [lo] and [hi]. *)
Definition within (lo hi : Z) (c : ascii) : bool := (lo <=? code c) && (code c <=? hi).

(** The low six bits of a continuation byte. *)
Definition maskx (c : ascii) : Z := Z.land (code c) 63.

(** [func DecodeRuneInString(s string) (rune, int)]: the first rune of
    [s] and its width; [(RuneError, 1)] for an encoding that is invalid
    or cut short.  The second byte of a sequence lies in the range its
    first byte accepts, the later ones between 0x80 and 0xBF. *)
Definition DecodeRuneInString (s : string) : Z * nat :=
  match s with
  | EmptyString => (RuneError, 0%nat)
  | String s0 rest =>
      let b0 := code s0 in
      if b0 <? 128 then (b0, 1%nat)
      else if (194 <=? b0) && (b0 <=? 223) then
        match rest with
        | String s1 _ =>
            if within 128 191 s1
            then (Z.lor (Z.shiftl (Z.land b0 31) 6) (maskx s1), 2%nat)
            else (RuneError, 1%nat)
        | _ => (RuneError, 1%nat)
        end
      else if (224 <=? b0) && (b0 <=? 239) then
        let lo := if b0 =? 224 then 160 else 128 in
        let hi := if b0 =? 237 then 159 else 191 in
        match rest with
        | String s1 (String s2 _) =>
            if within lo hi s1 && within 128 191 s2
            then (Z.lor (Z.lor (Z.shiftl (Z.land b0 15) 12) (Z.shiftl (maskx s1) 6))
                    (maskx s2), 3%nat)
            else (RuneError, 1%nat)
        | _ => (RuneError, 1%nat)
        end
      else if (240 <=? b0) && (b0 <=? 244) then
        let lo := if b0 =? 240 then 144 else 128 in
        let hi := if b0 =? 244 then 143 else 191 in
        match rest with
        | String s1 (String s2 (String s3 _)) =>
            if within lo hi s1 && within 128 191 s2 && within 128 191 s3
            then (Z.lor (Z.lor (Z.lor (Z.shiftl (Z.land b0 7) 18) (Z.shiftl (maskx s1) 12))
                    (Z.shiftl (maskx s2) 6)) (maskx s3), 4%nat)
            else (RuneError, 1%nat)
        | _ => (RuneError, 1%nat)
        end
      else (RuneError, 1%nat)
  end.
End utf8.

Module json.
(** [encoding/json]: what [Marshal] writes for a string and for a struct
    of strings. *)
Definition quote : string := String "034" "".

(** [htmlSafeSet]: the ASCII characters that are written as they are,
    all from the space on but the quote, the backslash and the three
    characters [<], [>] and [&]. *)
Definition htmlSafeSet (c : ascii) : bool :=
  (32 <=? utf8.code c) && (utf8.code c <? 128)
  && negb (bool_decide (c ∈ list_ascii_of_string (quote +:+ "\<>&"))).

(** The escape of an ASCII character outside [htmlSafeSet]. *)
Definition escape (c : ascii) : string :=
  let b := utf8.code c in
  if (b =? 92) || (b =? 34) then String "\" (String c "")
  else if b =? 8 then "\b"
  else if b =? 12 then "\f"
  else if b =? 10 then "\n"
  else if b =? 13 then "\r"
  else if b =? 9 then "\t"
  else "\u00" +:+ String (hex.hexDigit (Z.shiftr b 4)) (String (hex.hexDigit (Z.land b 15)) "").

Fixpoint skip (n : nat) (s : string) : string :=
  match n, s with
  | S n', String _ rest => skip n' rest
  | _, _ => s
  end.

(** The loop of [appendString] with [escapeHTML] set, on what is left of
    the source; [fuel] bounds the characters left. *)
Fixpoint appendStringFrom (fuel : nat) (src : string) : string :=
  match fuel with
  | O => ""
  | S fuel' =>
      match src with
      | EmptyString => ""
      | String b rest =>
          if utf8.code b <? 128 then
            (if htmlSafeSet b then String b "" else escape b) +:+ appendStringFrom fuel' rest
          else
            let '(c, size) := utf8.DecodeRuneInString src in
            if (c =? utf8.RuneError) && bool_decide (size = 1%nat) then
              "\ufffd" +:+ appendStringFrom fuel' rest
            else if (c =? 8232) || (c =? 8233) then
              "\u202" +:+ String (hex.hexDigit (Z.land c 15)) ""
              +:+ appendStringFrom fuel' (skip size src)
            else
              substring 0 size src +:+ appendStringFrom fuel' (skip size src)
      end
  end.

(** [appendString]: the string between double quotes. *)
Definition appendString (src : string) : string :=
  quote +:+ appendStringFrom (String.length src) src +:+ quote.

(** [func Marshal(v any) ([]byte, error)] on a string. *)
Definition Marshal_string (v : string) : string * option error :=
  (appendString v, None).

Fixpoint fields (fs : list (string * string)) : string :=
  match fs with
  | [] => ""
  | [(name, v)] => quote +:+ name +:+ quote +:+ ":" +:+ appendString v
  | (name, v) :: rest => quote +:+ name +:+ quote +:+ ":" +:+ appendString v +:+ "," +:+ fields rest
  end.

(** [Marshal] on a struct of string fields, given as the field names of
    the tags and the values, in the order of declaration. *)
Definition Marshal_struct (fs : list (string * string)) : string * option error :=
  ("{" +:+ fields fs +:+ "}", None).
End json.

Module net.
(** [net.IP] is a byte slice; [None] is the nil slice. *)
Definition IP : Type := option (list byte).

Definition IPv4len : nat := 4.
Definition IPv6len : nat := 16.

(** The bytes of the slice: none for nil. *)
Definition bytes (ip : IP) : list byte :=
  match ip with
  | Some l => l
  | None => []
  end.

Definition len (ip : IP) : nat := length (bytes ip).

Definition v4InV6Prefix : list byte :=
  replicate 10 Byte.x00 ++ [Byte.xff; Byte.xff].

Definition IPv4 (a b c d : byte) : IP := Some (v4InV6Prefix ++ [a; b; c; d]).

Definition IPv4zero : IP := IPv4 Byte.x00 Byte.x00 Byte.x00 Byte.x00.
Definition IPv6unspecified : IP := Some (replicate 16 Byte.x00).
Definition IPv6loopback : IP := Some (replicate 15 Byte.x00 ++ [Byte.x01]).

Definition isZeros (p : list byte) : bool := forallb (λ b, bool_decide (b = Byte.x00)) p.

Definition To4 (ip : IP) : IP :=
  match ip with
  | None => None
  | Some l =>
      if decide (length l = IPv4len) then ip
      else if bool_decide (length l = IPv6len)
              && isZeros (take 10 l)
              && bool_decide (l !! 10%nat = Some Byte.xff)
              && bool_decide (l !! 11%nat = Some Byte.xff)
           then Some (take 4 (drop 12 l))
           else None
  end.

Definition To16 (ip : IP) : IP :=
  match ip with
  | None => None
  | Some l =>
      if decide (length l = IPv4len) then
        match l with
        | [a; b; c; d] => IPv4 a b c d
        | _ => None
        end
      else if decide (length l = IPv6len) then ip
      else None
  end.

Definition Equal (ip x : IP) : bool :=
  let a := bytes ip in
  let b := bytes x in
  if decide (length a = length b) then bool_decide (a = b)
  else if decide (length a = IPv4len ∧ length b = IPv6len) then
    bool_decide (take 12 b = v4InV6Prefix) && bool_decide (a = drop 12 b)
  else if decide (length a = IPv6len ∧ length b = IPv4len) then
    bool_decide (take 12 a = v4InV6Prefix) && bool_decide (drop 12 a = b)
  else false.

Definition IsUnspecified (ip : IP) : bool :=
  Equal ip IPv4zero || Equal ip IPv6unspecified.

Definition IsLoopback (ip : IP) : bool :=
  match To4 ip with
  | Some ip4 => bool_decide (ip4 !! 0%nat = Some Byte.x7f)
  | None => Equal ip IPv6loopback
  end.

(** [hexString]: lower-case hexadecimal of every byte. *)
Definition hexString (b : list byte) : string := hex.EncodeToString b.

(** The eight 16-bit groups of a 16-byte address. *)
Fixpoint groups (l : list byte) : list Z :=
  match l with
  | hi :: lo :: rest => Z.lor (Z.shiftl (Z_of_byte hi) 8) (Z_of_byte lo) :: groups rest
  | _ => []
  end.

Fixpoint zeroRun (g : list Z) : nat :=
  match g with
  | 0 :: g' => S (zeroRun g')
  | _ => 0%nat
  end.

(** The first longest run of at least two zero groups, as
    [(zeroStart, zeroEnd)]; [(255, 255)] when there is none. *)
Fixpoint longestZeroRun (i : nat) (g : list Z) (best : nat * nat) : nat * nat :=
  match g with
  | [] => best
  | _ :: g' =>
      let l := zeroRun g in
      let best' :=
        if bool_decide (2 ≤ l)%nat && bool_decide (best.2 - best.1 < l)%nat
        then (i, (i + l)%nat) else best in
      longestZeroRun (S i) g' best'
  end.

Definition appendHex (v : Z) : string :=
  HexadecimalString.NilZero.string_of_uint (N.to_hex_uint (Z.to_N v)).

(** The output loop of [netip.Addr.string6], from group [i] on. *)
Fixpoint string6From (fuel : nat) (zs ze : nat) (g : list Z) (i : nat) : string :=
  match fuel with
  | O => ""
  | S fuel' =>
      if bool_decide (8 ≤ i)%nat then ""
      else if bool_decide (i = zs) then
        "::" +:+
        (if bool_decide (8 ≤ ze)%nat then ""
         else appendHex (default 0 (g !! ze)) +:+ string6From fuel' zs ze g (S ze))
      else
        (if bool_decide (0 < i)%nat then ":" else "") +:+
        appendHex (default 0 (g !! i)) +:+ string6From fuel' zs ze g (S i)
  end.

Definition string6 (l : list byte) : string :=
  let g := groups l in
  let '(zs, ze) := longestZeroRun 0 g (255%nat, 255%nat) in
  string6From 9 zs ze g 0.

Definition string4 (l : list byte) : string :=
  match l with
  | [a; b; c; d] =>
      strconv.FormatUint (Z_of_byte a) +:+ "." +:+ strconv.FormatUint (Z_of_byte b) +:+ "."
      +:+ strconv.FormatUint (Z_of_byte c) +:+ "." +:+ strconv.FormatUint (Z_of_byte d)
  | _ => ""
  end.

(** [func (ip IP) String() string] *)
Definition String (ip : IP) : string :=
  if decide (len ip = 0%nat) then "<nil>"
  else if decide (len ip ≠ IPv4len ∧ len ip ≠ IPv6len) then "?" +:+ hexString (bytes ip)
  else
    let p4 := To4 ip in
    if decide (len p4 = IPv4len) then string4 (bytes p4)
    else string6 (bytes ip).

Fixpoint hasColon (s : string) : bool :=
  match s with
  | EmptyString => false
  | String.String c rest => bool_decide (c = ":"%char) || hasColon rest
  end.

(** [func JoinHostPort(host, port string) string] *)
Definition JoinHostPort (host port : string) : string :=
  if hasColon host then "[" +:+ host +:+ "]:" +:+ port
  else host +:+ ":" +:+ port.

(** [type TCPAddr struct { IP IP; Port int; Zone string }]; the fields
    carry the name of the struct, [IP] being the type here. *)
Record TCPAddr : Type := { TCPAddr_IP : IP; TCPAddr_Port : Z; TCPAddr_Zone : string }.
End net.

Module message.
Record Message : Type := { Nonce : Z; Data : list byte }.

(** [func (m *Message) Marshal(dst []byte) []byte] *)
Definition Marshal (m : Message) (dst : list byte) : result (list byte) :=
  let dst := dst ++ make 8 in
  front ← slice dst 0 8;
  front ← binary.PutUint64 front (Nonce m);
  let dst := store_front front dst in
  let dst := dst ++ Data m in
  Ok dst.

(** [func Unmarshal(data []byte) (Message, error)] *)
Definition Unmarshal (data : list byte) : result Message :=
  if decide (length data < 8)%nat then Err ErrUnexpectedEOF
  else
    front ← slice data 0 8;
    nonce ← binary.Uint64 front;
    data ← slice data 0 8;
    Ok {| Nonce := nonce; Data := data |}.
End message.

(** ** Fixed-size arrays *)

(** [var a [n]byte; copy(a[:], src)]: a zeroed array overwritten by the
    first [n] bytes of [src]. *)
Fixpoint to_array (n : nat) (src : list byte) : vec byte n :=
  match n with
  | O => [#]
  | S n' =>
      match src with
      | [] => Byte.x00 ::: to_array n' []
      | b :: src' => b ::: to_array n' src'
      end
  end.

Module sha512.
(** [crypto/sha512]: SHA-512 of FIPS 180-4 on 64-bit words. *)

Definition add64 (a b : Z) : Z := (a + b) mod 2 ^ 64.
Definition rotr (n x : Z) : Z := Z.lor (Z.shiftr x n) (Z.shiftl x (64 - n) mod 2 ^ 64).
Definition Ch (x y z : Z) : Z := Z.lxor (Z.land x y) (Z.land (Z.lxor x (2 ^ 64 - 1)) z).
Definition Maj (x y z : Z) : Z := Z.lxor (Z.lxor (Z.land x y) (Z.land x z)) (Z.land y z).
Definition bigSigma0 (x : Z) : Z := Z.lxor (Z.lxor (rotr 28 x) (rotr 34 x)) (rotr 39 x).
Definition bigSigma1 (x : Z) : Z := Z.lxor (Z.lxor (rotr 14 x) (rotr 18 x)) (rotr 41 x).
Definition smallSigma0 (x : Z) : Z := Z.lxor (Z.lxor (rotr 1 x) (rotr 8 x)) (Z.shiftr x 7).
Definition smallSigma1 (x : Z) : Z := Z.lxor (Z.lxor (rotr 19 x) (rotr 61 x)) (Z.shiftr x 6).

(** The eight working variables [a..h]. *)
Definition vars : Type := Z * Z * Z * Z * Z * Z * Z * Z.

Definition w_at (w : list Z) (i : nat) : Z := default 0 (w !! i).

Definition init : vars :=
  (0x6a09e667f3bcc908, 0xbb67ae8584caa73b, 0x3c6ef372fe94f82b, 0xa54ff53a5f1d36f1,
   0x510e527fade682d1, 0x9b05688c2b3e6c1f, 0x1f83d9abfb41bd6b, 0x5be0cd19137e2179).

Definition K : list Z := [
   0x428a2f98d728ae22; 0x7137449123ef65cd; 0xb5c0fbcfec4d3b2f; 0xe9b5dba58189dbbc;
   0x3956c25bf348b538; 0x59f111f1b605d019; 0x923f82a4af194f9b; 0xab1c5ed5da6d8118;
   0xd807aa98a3030242; 0x12835b0145706fbe; 0x243185be4ee4b28c; 0x550c7dc3d5ffb4e2;
   0x72be5d74f27b896f; 0x80deb1fe3b1696b1; 0x9bdc06a725c71235; 0xc19bf174cf692694;
   0xe49b69c19ef14ad2; 0xefbe4786384f25e3; 0x0fc19dc68b8cd5b5; 0x240ca1cc77ac9c65;
   0x2de92c6f592b0275; 0x4a7484aa6ea6e483; 0x5cb0a9dcbd41fbd4; 0x76f988da831153b5;
   0x983e5152ee66dfab; 0xa831c66d2db43210; 0xb00327c898fb213f; 0xbf597fc7beef0ee4;
   0xc6e00bf33da88fc2; 0xd5a79147930aa725; 0x06ca6351e003826f; 0x142929670a0e6e70;
   0x27b70a8546d22ffc; 0x2e1b21385c26c926; 0x4d2c6dfc5ac42aed; 0x53380d139d95b3df;
   0x650a73548baf63de; 0x766a0abb3c77b2a8; 0x81c2c92e47edaee6; 0x92722c851482353b;
   0xa2bfe8a14cf10364; 0xa81a664bbc423001; 0xc24b8b70d0f89791; 0xc76c51a30654be30;
   0xd192e819d6ef5218; 0xd69906245565a910; 0xf40e35855771202a; 0x106aa07032bbd1b8;
   0x19a4c116b8d2d0c8; 0x1e376c085141ab53; 0x2748774cdf8eeb99; 0x34b0bcb5e19b48a8;
   0x391c0cb3c5c95a63; 0x4ed8aa4ae3418acb; 0x5b9cca4f7763e373; 0x682e6ff3d6b2b8a3;
   0x748f82ee5defb2fc; 0x78a5636f43172f60; 0x84c87814a1f0ab72; 0x8cc702081a6439ec;
   0x90befffa23631e28; 0xa4506cebde82bde9; 0xbef9a3f7b2c67915; 0xc67178f2e372532b;
   0xca273eceea26619c; 0xd186b8c721c0c207; 0xeada7dd6cde0eb1e; 0xf57d4f7fee6ed178;
   0x06f067aa72176fba; 0x0a637dc5a2c898a6; 0x113f9804bef90dae; 0x1b710b35131c471b;
   0x28db77f523047d84; 0x32caab7b40c72493; 0x3c9ebe0a15c9bebc; 0x431d67c49c100d4c;
   0x4cc5d4becb3e42b6; 0x597f299cfc657e2a; 0x5fcb6fab3ad6faec; 0x6c44198c4a475817].

(** One round with constant [k]: the working variables, and the window
    of the next sixteen schedule words. *)
Definition round (st : vars * list Z) (k : Z) : vars * list Z :=
  let '((a, b, c, d, e, f, g, h), w) := st in
  let t1 := add64 (add64 (add64 (add64 h (bigSigma1 e)) (Ch e f g)) k) (w_at w 0) in
  let t2 := add64 (bigSigma0 a) (Maj a b c) in
  let w16 := add64 (add64 (add64 (smallSigma1 (w_at w 14)) (w_at w 9))
                          (smallSigma0 (w_at w 1))) (w_at w 0) in
  ((add64 t1 t2, a, b, c, add64 d t1, e, f, g), drop 1 w ++ [w16]).

Fixpoint words (b : list byte) (n : nat) : list Z :=
  match n with
  | O => []
  | S n' => be_value (take 8 b) :: words (drop 8 b) n'
  end.

(** The compression of one 128-byte block into the hash value. *)
Definition block (hv : vars) (chunk : list byte) : vars :=
  let '((a, b, c, d, e, f, g, h), _) := foldl round (hv, words chunk 16) K in
  let '(a0, b0, c0, d0, e0, f0, g0, h0) := hv in
  (add64 a0 a, add64 b0 b, add64 c0 c, add64 d0 d,
   add64 e0 e, add64 f0 f, add64 g0 g, add64 h0 h).

Fixpoint blocks (hv : vars) (b : list byte) (n : nat) : vars :=
  match n with
  | O => hv
  | S n' => blocks (block hv (take 128 b)) (drop 128 b) n'
  end.

(** A big-endian number of [n] bytes. *)
Fixpoint be_bytes (n : nat) (v : Z) : list byte :=
  match n with
  | O => []
  | S n' => be_bytes n' (Z.shiftr v 8) ++ [byte_of_Z v]
  end.

Definition pad (msg : list byte) : list byte :=
  let len := length msg in
  let zeros := ((128 - (len + 17) mod 128) mod 128)%nat in
  msg ++ [Byte.x80] ++ replicate zeros Byte.x00 ++ be_bytes 16 (8 * Z.of_nat len).

(** [Sum512] *)
Definition Sum512 (msg : list byte) : list byte :=
  let padded := pad msg in
  let '(a, b, c, d, e, f, g, h) := blocks init padded (length padded / 128) in
  concat (map (be_bytes 8) [a; b; c; d; e; f; g; h]).
End sha512.

Module edwards25519.
(** [crypto/internal/edwards25519]: the group of the curve, behind an
    interface, and scalars modulo the order of the base point. *)

Class Curve : Type := {
  Point : Type;
  NewIdentityPoint : Point;
  NewGeneratorPoint : Point;
  Add : Point → Point → Point;
  Negate : Point → Point;
  Bytes : Point → list byte;
  SetBytes : list byte → option Point;
}.

(** The order of the base point. *)
Definition l : Z := 2 ^ 252 + 27742317777372353535851937790883648493.

Section WithCurve.
Context `{Curve}.

Fixpoint mulPos (n : positive) (P : Point) : Point :=
  match n with
  | xH => P
  | xO n' => let Q := mulPos n' P in Add Q Q
  | xI n' => let Q := mulPos n' P in Add (Add Q Q) P
  end.

(** [ScalarMult]; a scalar is a number below [l]. *)
Definition ScalarMult (s : Z) (P : Point) : Point :=
  match s with
  | Zpos n => mulPos n P
  | _ => NewIdentityPoint
  end.

Definition ScalarBaseMult (s : Z) : Point := ScalarMult s NewGeneratorPoint.

(** [VarTimeDoubleScalarBaseMult(a, A, b)] is [a]A + [b]B. *)
Definition VarTimeDoubleScalarBaseMult (a : Z) (A : Point) (b : Z) : Point :=
  Add (ScalarMult a A) (ScalarBaseMult b).
End WithCurve.

(** Little-endian numbers. *)
Definition le_value (b : list byte) : Z :=
  fold_right (λ x acc, Z_of_byte x + 256 * acc) 0 b.

Fixpoint le_bytes (n : nat) (v : Z) : list byte :=
  match n with
  | O => []
  | S n' => byte_of_Z v :: le_bytes n' (Z.shiftr v 8)
  end.

(** [Scalar.SetUniformBytes]: 64 bytes reduced modulo [l]. *)
Definition SetUniformBytes (x : list byte) : Z := le_value x mod l.

(** [Scalar.SetBytesWithClamping]: the low three bits and the top bit
    cleared, bit 254 set, then reduced. *)
Definition SetBytesWithClamping (x : list byte) : Z :=
  Z.lor (Z.land (le_value x) (2 ^ 254 - 8)) (2 ^ 254) mod l.

(** [Scalar.SetCanonicalBytes]: 32 bytes that encode a number below [l]. *)
Definition SetCanonicalBytes (x : list byte) : option Z :=
  if decide (length x = 32%nat ∧ le_value x < l) then Some (le_value x) else None.

(** [Scalar.Bytes] *)
Definition ScalarBytes (s : Z) : list byte := le_bytes 32 s.

(** [Scalar.MultiplyAdd(x, y, z)] is [x * y + z mod l]. *)
Definition MultiplyAdd (x y z : Z) : Z := (x * y + z) mod l.

(** *** The curve itself: extended coordinates over the field of
    [2^255 - 19] elements *)

Definition p : Z := 2 ^ 255 - 19.
Definition d : Z := 0x52036cee2b6ffe738cc740797779e89800700a4d4141d8ab75eb4dca135978a3.
Definition sqrtM1 : Z := 0x2b8324804fc1df0b2b4d00993dfbd7a72f431806ad2fe478c4ee1b274a0ea0b0.

(** A field element is a machine-word number, kept below [p]. *)
Definition fe : Type := bigZ.
Definition feP : fe := BigZ.of_Z p.
Definition feOf (a : Z) : fe := BigZ.of_Z (a mod p).
Definition feTo (a : fe) : Z := BigZ.to_Z a.

Definition fmul (a b : fe) : fe := BigZ.modulo (BigZ.mul a b) feP.
Definition fadd (a b : fe) : fe := BigZ.modulo (BigZ.add a b) feP.
Definition fsub (a b : fe) : fe := BigZ.modulo (BigZ.sub a b) feP.

Fixpoint fpow (a : fe) (e : positive) : fe :=
  match e with
  | xH => a
  | xO e' => let x := fpow a e' in fmul x x
  | xI e' => let x := fpow a e' in fmul (fmul x x) a
  end.

Definition finv (a : fe) : fe := fpow a (Z.to_pos (p - 2)).

(** [Element.IsNegative]: the low bit of the canonical value. *)
Definition isNegative (a : fe) : bool := Z.odd (feTo a).

Definition feD : fe := feOf d.
Definition fe2D : fe := fmul (feOf 2) feD.

Definition point : Type := fe * fe * fe * fe.

Definition pointAdd (P Q : point) : point :=
  let '(X1, Y1, Z1, T1) := P in
  let '(X2, Y2, Z2, T2) := Q in
  let A := fmul (fsub Y1 X1) (fsub Y2 X2) in
  let B := fmul (fadd Y1 X1) (fadd Y2 X2) in
  let C := fmul (fmul T1 fe2D) T2 in
  let D := fmul (fmul Z1 (feOf 2)) Z2 in
  let E := fsub B A in
  let F := fsub D C in
  let G := fadd D C in
  let H := fadd B A in
  (fmul E F, fmul G H, fmul F G, fmul E H).

Definition pointNegate (P : point) : point :=
  let '(X, Y, Z, T) := P in (fsub (feOf 0) X, Y, Z, fsub (feOf 0) T).

Definition pointBytes (P : point) : list byte :=
  let '(X, Y, Z, T) := P in
  let zInv := finv Z in
  let x := fmul X zInv in
  let y := fmul Y zInv in
  le_bytes 32 (Z.lor (feTo y) (Z.shiftl (Z.b2z (isNegative x)) 255)).

(** [Element.SqrtRatio(u, v)]: the non-negative square root of [u/v]
    and whether there is one. *)
Definition sqrtRatio (u v : fe) : fe * bool :=
  let v2 := fmul v v in
  let uv3 := fmul u (fmul v2 v) in
  let uv7 := fmul uv3 (fmul v2 v2) in
  let rr := fmul uv3 (fpow uv7 (Z.to_pos ((p - 5) / 8))) in
  let check := fmul v (fmul rr rr) in
  let correctSignSqrt := bool_decide (feTo check = feTo u) in
  let flippedSignSqrt := bool_decide (feTo check = feTo (fsub (feOf 0) u)) in
  let rr := if flippedSignSqrt then fmul rr (feOf sqrtM1) else rr in
  let r := if isNegative rr then fsub (feOf 0) rr else rr in
  (r, correctSignSqrt || flippedSignSqrt).

Definition pointSetBytes (x : list byte) : option point :=
  if decide (length x ≠ 32%nat) then None
  else
    let y := feOf (Z.land (le_value x) (2 ^ 255 - 1)) in
    let y2 := fmul y y in
    let u := fsub y2 (feOf 1) in
    let v := fadd (fmul y2 feD) (feOf 1) in
    let '(xx, wasSquare) := sqrtRatio u v in
    if negb wasSquare then None
    else
      let signBit := Z.testbit (le_value x) 255 in
      let xx := if xorb signBit (isNegative xx) then fsub (feOf 0) xx else xx in
      Some (xx, y, feOf 1, fmul xx y).

Definition generatorY : Z := 0x6666666666666666666666666666666666666666666666666666666666666658.
Definition generatorX : Z := 0x216936d3cd6e53fec0a4e231fdd6dc5c692cc7609525a7b2c9562d608f25d51a.

(** The curve of the package. *)
Definition curve25519 : Curve := {|
  Point := point;
  NewIdentityPoint := (feOf 0, feOf 1, feOf 1, feOf 0);
  NewGeneratorPoint :=
    (feOf generatorX, feOf generatorY, feOf 1, fmul (feOf generatorX) (feOf generatorY));
  Add := pointAdd;
  Negate := pointNegate;
  Bytes := pointBytes;
  SetBytes := pointSetBytes;
|}.
End edwards25519.

Module io.
(** A reader is the bytes it will supply.  [ReadFull(r, buf)] with a
    buffer of [n] bytes fills it, or fails when the reader runs dry. *)
Definition Reader : Type := list byte.

Definition ReadFull (r : Reader) (n : nat) : result (list byte) :=
  if decide (n ≤ length r)%nat then Ok (take n r)
  else if decide (length r = 0%nat) then Err ErrEOF
  else Err ErrUnexpectedEOF.
End io.

Module ed25519.
(** [crypto/ed25519] *)
Definition PublicKeySize : nat := 32.
Definition PrivateKeySize : nat := 64.
Definition SignatureSize : nat := 64.
Definition SeedSize : nat := 32.

(** [func (priv PrivateKey) Public() crypto.PublicKey]: a copy of the
    last 32 bytes of the private key. *)
Definition Public (priv : list byte) : result (list byte) :=
  src ← slice priv 32 (length priv);
  Ok (store_front (take PublicKeySize src) (make PublicKeySize)).

Section WithCurve.
Context `{edwards25519.Curve}.

(** The secret scalar of a seed. *)
Definition secretScalar (seed : list byte) : Z :=
  edwards25519.SetBytesWithClamping (take 32 (sha512.Sum512 seed)).

(** [func NewKeyFromSeed(seed []byte) PrivateKey]: the seed followed by
    the encoding of the public point. *)
Definition NewKeyFromSeed (seed : list byte) : result (list byte) :=
  if decide (length seed ≠ SeedSize) then Panic
  else
    let s := secretScalar seed in
    let A := edwards25519.ScalarBaseMult s in
    Ok (seed ++ edwards25519.Bytes A).

(** [func GenerateKey(rand io.Reader) (PublicKey, PrivateKey, error)] *)
Definition GenerateKey (rand : io.Reader) : result (list byte * list byte) :=
  seed ← io.ReadFull rand SeedSize;
  privateKey ← NewKeyFromSeed seed;
  src ← slice privateKey 32 (length privateKey);
  let publicKey := store_front (take PublicKeySize src) (make PublicKeySize) in
  Ok (publicKey, privateKey).

(** The body of [Sign], for a private key of 64 bytes. *)
Definition sign (privateKey message : list byte) : list byte :=
  let seed := take SeedSize privateKey in
  let publicKey := drop SeedSize privateKey in
  let h := sha512.Sum512 seed in
  let s := edwards25519.SetBytesWithClamping (take 32 h) in
  let prefix := drop 32 h in
  let messageDigest := sha512.Sum512 (prefix ++ message) in
  let r := edwards25519.SetUniformBytes messageDigest in
  let R := edwards25519.ScalarBaseMult r in
  let hramDigest := sha512.Sum512 (edwards25519.Bytes R ++ publicKey ++ message) in
  let k := edwards25519.SetUniformBytes hramDigest in
  let S_ := edwards25519.MultiplyAdd k s r in
  edwards25519.Bytes R ++ edwards25519.ScalarBytes S_.

(** [func Sign(privateKey PrivateKey, message []byte) []byte] *)
Definition Sign (privateKey message : list byte) : result (list byte) :=
  if decide (length privateKey ≠ PrivateKeySize) then Panic
  else Ok (sign privateKey message).

(** The body of [Verify], for a public key of 32 bytes. *)
Definition verify (publicKey message sig : list byte) : bool :=
  if decide (length sig ≠ SignatureSize) then false
  else if negb (Z.land (Z_of_byte (default Byte.x00 (sig !! 63%nat))) 224 =? 0) then false
  else
    match edwards25519.SetBytes publicKey with
    | None => false
    | Some A =>
        let hramDigest := sha512.Sum512 (take 32 sig ++ publicKey ++ message) in
        let k := edwards25519.SetUniformBytes hramDigest in
        match edwards25519.SetCanonicalBytes (drop 32 sig) with
        | None => false
        | Some S_ =>
            let minusA := edwards25519.Negate A in
            let R := edwards25519.VarTimeDoubleScalarBaseMult k minusA S_ in
            bool_decide (take 32 sig = edwards25519.Bytes R)
        end
    end.

(** [func Verify(publicKey PublicKey, message, sig []byte) bool] *)
Definition Verify (publicKey message sig : list byte) : result bool :=
  if decide (length publicKey ≠ PublicKeySize) then Panic
  else Ok (verify publicKey message sig).
End WithCurve.
End ed25519.

Module keys.
Definition Ed25519PrivateKey : Type := vec byte ed25519.PrivateKeySize.
Definition Ed25519PublicKey : Type := vec byte ed25519.PublicKeySize.
Definition Ed25519Signature : Type := vec byte ed25519.SignatureSize.

(** A value of interface type [Signature]: its dynamic type is
    [Ed25519Signature], or it is anything else the interface admits
    (another type with its methods, named by [typ], or nil). *)
Inductive Signature : Type :=
  | SigEd25519 (s : Ed25519Signature)
  | SigOther (typ : string) (raw : list byte).

(** [func (e Ed25519Signature) String() (string, error)] *)
Definition Signature_String (e : Ed25519Signature) : result string :=
  Ok (hex.EncodeToString (vec_to_list e)).

(** [func (e Ed25519PublicKey) String() (string, error)] *)
Definition PublicKey_String (e : Ed25519PublicKey) : result string :=
  Ok (hex.EncodeToString (vec_to_list e)).

(** [func ed25519UnmarshalSignature(data []byte) Ed25519Signature]:
    after the bounds check, the 64 bytes at the start of [data]. *)
Definition ed25519UnmarshalSignature (data : list byte) : result Ed25519Signature :=
  match data !! (ed25519.SignatureSize - 1)%nat with
  | None => Panic
  | Some _ => Ok (to_array ed25519.SignatureSize data)
  end.

(** [func (e Ed25519PrivateKey) Public() (PublicKey, error)] *)
Definition Public (e : Ed25519PrivateKey) : result Ed25519PublicKey :=
  pub ← ed25519.Public (vec_to_list e);
  Ok (to_array ed25519.PublicKeySize pub).

Section WithCurve.
Context `{edwards25519.Curve}.

(** [func (e Ed25519PublicKey) Verify(data []byte, signature Signature) (bool, error)] *)
Definition Verify (e : Ed25519PublicKey) (data : list byte) (signature : Signature)
  : result (bool * option error) :=
  match signature with
  | SigEd25519 ed25519Sig =>
      ok ← ed25519.Verify (vec_to_list e) data (vec_to_list ed25519Sig);
      Ok (ok, None)
  | SigOther _ _ => Ok (false, Some ErrInvalidSignatureType)
  end.

(** [func (e Ed25519PrivateKey) Sign(data []byte) (Signature, error)] *)
Definition Sign (e : Ed25519PrivateKey) (data : list byte) : result Signature :=
  signatureBytes ← ed25519.Sign (vec_to_list e) data;
  s ← ed25519UnmarshalSignature signatureBytes;
  Ok (SigEd25519 s).

(** [func GenerateKeys(rand io.Reader) (PublicKey, PrivateKey, error)] *)
Definition GenerateKeys (rand : io.Reader) : result (Ed25519PublicKey * Ed25519PrivateKey) :=
  match ed25519.GenerateKey rand with
  | Err err => Err (ErrGenerateKeys err)
  | Panic => Panic
  | Ok (pub, priv) =>
      Ok (to_array ed25519.PublicKeySize pub, to_array ed25519.PrivateKeySize priv)
  end.
End WithCurve.

(** [func LoadKeysFromHex(secretHex string) (PrivateKey, error)] *)
Definition LoadKeysFromHex (secretHex : string) : result Ed25519PrivateKey :=
  let '(secret, err) := hex.DecodeString secretHex in
  match err with
  | Some err => Err (ErrDecodeKey err)
  | None =>
      if decide (length secret ≠ ed25519.PrivateKeySize) then
        Err (ErrInvalidKeySize (length secret) ed25519.PrivateKeySize ErrUnexpectedEOF)
      else Ok (to_array ed25519.PrivateKeySize secret)
  end.

(** The methods package [id] calls on a [keys.PublicKey]. *)
Class PublicKey (K : Type) : Type := {
  Size : K → nat;
  Bytes : K → list byte;
  UnmarshalPublicKeyFromByte : K → list byte → result K;
}.

(** Modelled from the spec: [Size], [Bytes] and
    [UnmarshalPublicKeyFromByte] of [Ed25519PublicKey], which package
    [id] calls and package [keys] does not define.  The spec's encoding
    is [publicKeyBytes || ipv6Bytes(host) || bigEndianUint16(port)] with
    32-byte keys, and decoding of a long enough buffer parses the fields
    positionally: the size is 32, the bytes are the array's, and
    unmarshalling copies 32 bytes into a new key. *)
#[global] Instance Ed25519PublicKey_PublicKey : PublicKey Ed25519PublicKey := {
  Size _ := ed25519.PublicKeySize;
  Bytes e := vec_to_list e;
  UnmarshalPublicKeyFromByte _ b :=
    if decide (length b = ed25519.PublicKeySize)
    then Ok (to_array ed25519.PublicKeySize b)
    else Err ErrUnexpectedEOF;
}.

(** The errors a [Json] method returns. *)
Inductive jsonError : Type :=
  | ErrSignatureToString (cause : error)  (* "failed to convert signature to string: %w" *)
  | ErrPublicKeyToString (cause : error)  (* "failed to convert public key to string: %w" *)
  | ErrMarshal (cause : error).           (* the error of [json.Marshal] *)

(** [func (e Ed25519Signature) Json() ([]byte, error)] *)
Definition Signature_Json (e : Ed25519Signature) : result (string * option jsonError) :=
  match Signature_String e with
  | Panic => Panic
  | Err err => Ok ("", Some (ErrSignatureToString err))
  | Ok sign =>
      let '(b, err) := json.Marshal_string sign in
      Ok (b, ErrMarshal <$> err)
  end.

(** [func (e Ed25519PublicKey) Json() ([]byte, error)] *)
Definition PublicKey_Json (e : Ed25519PublicKey) : result (string * option jsonError) :=
  match PublicKey_String e with
  | Panic => Panic
  | Err err => Ok ("", Some (ErrPublicKeyToString err))
  | Ok key =>
      let '(b, err) := json.Marshal_string key in
      Ok (b, ErrMarshal <$> err)
  end.

(** The methods [String] and [Json] of the interface [PublicKey]. *)
Class PublicKeyText (K : Type) : Type := {
  String : K → result string;
  Json : K → result (string * option jsonError);
}.

#[global] Instance Ed25519PublicKey_Text : PublicKeyText Ed25519PublicKey := {
  String := PublicKey_String;
  Json := PublicKey_Json;
}.
End keys.

Module utils.
(** [func ResolveIP(ip net.IP) net.IP] *)
Definition ResolveIP (ip : net.IP) : net.IP :=
  if bool_decide (ip = None) || net.IsLoopback ip || net.IsUnspecified ip
  then None else ip.

(** [func NormalizeIP(ip net.IP) string] *)
Definition NormalizeIP (ip : net.IP) : string :=
  let resolvedIP := ResolveIP ip in
  if decide (resolvedIP = None) then "" else net.String resolvedIP.

(** The errors [ResolveAddress] makes with [fmt.Errorf]. *)
Inductive resolveError : Type :=
  | ErrResolveTCPAddr (cause : error)  (* "failed to resolve TCP address: %w" *)
  | ErrInvalidIP (ip : net.IP).        (* "invalid IP address: %s" *)

(** [func ResolveAddress(address string) (string, error)].  The lookup
    of [net.ResolveTCPAddr("tcp", address)] happens outside the
    program: [ResolveTCPAddr] is what it answers, an address or an
    error. *)
Definition ResolveAddress (ResolveTCPAddr : string → net.TCPAddr + error)
    (address : string) : string * option resolveError :=
  match ResolveTCPAddr address with
  | inr err => ("", Some (ErrResolveTCPAddr err))
  | inl addr =>
      let resolvedIP := ResolveIP (net.TCPAddr_IP addr) in
      if decide (resolvedIP = None) then ("", Some (ErrInvalidIP (net.TCPAddr_IP addr)))
      else (net.String resolvedIP +:+ ":" +:+ fmt.verb_d (net.TCPAddr_Port addr), None)
  end.
End utils.

Module id.
Section WithKey.
Context {K : Type} `{keys.PublicKey K}.

(** The field [ID] of the Go struct is [ID_] here: the record has the name. *)
Record ID : Type := { ID_ : K; Host : net.IP; Port : Z }.

(** [func NewID(id keys.PublicKey, host net.IP, port uint16) ID] *)
Definition NewID (id : K) (host : net.IP) (port : Z) : ID :=
  {| ID_ := id; Host := host; Port := port |}.

(** [func (i *ID) Address() string] *)
Definition Address (i : ID) : string :=
  net.JoinHostPort (utils.NormalizeIP (Host i)) (strconv.FormatUint (Port i)).

(** [func (i *ID) Size() int] *)
Definition Size (i : ID) : nat :=
  (keys.Size (ID_ i) + net.IPv4len + 2)%nat.

(** [func (e ID) Marshal() []byte] *)
Definition Marshal (e : ID) : result (list byte) :=
  let pubKeyBytes := keys.Bytes (ID_ e) in
  let hostBytes := net.bytes (net.To16 (Host e)) in
  let portBytes := make 2 in
  portBytes ← binary.PutUint16 portBytes (Port e);
  Ok ((pubKeyBytes ++ hostBytes) ++ portBytes).

(** [func UnmarshalID(buf []byte, pubkey keys.PublicKey) (ID, error)] *)
Definition UnmarshalID (buf : list byte) (pubkey : K) : result ID :=
  let expectedSize := (keys.Size pubkey + net.IPv6len + 2)%nat in
  if decide (length buf < expectedSize)%nat then Err ErrUnexpectedEOF
  else
    keyBytes ← slice buf 0 (keys.Size pubkey);
    pubKey ← keys.UnmarshalPublicKeyFromByte pubkey keyBytes;
    hostBytes ← slice buf (keys.Size pubkey) (keys.Size pubkey + net.IPv6len);
    let host : net.IP := Some hostBytes in
    portBytes ← slice buf (keys.Size pubkey + net.IPv6len) (length buf);
    port ← binary.Uint16 portBytes;
    Ok {| ID_ := pubKey; Host := host; Port := port |}.
End WithKey.
Arguments ID K : clear implicits.

(** [type StringIDRep struct]: the JSON form of an [ID].  The field
    [Address] is [Address_] here, beside the method. *)
Record StringIDRep : Type := { PublicKey : string; Address_ : string }.

Section WithText.
Context {K : Type} `{keys.PublicKeyText K}.

(** [func (e ID) String() (string, error)].  The error of the key's
    [String] is dropped: [hexkey] is then the empty string a failing
    [String] returns. *)
Definition String (e : ID K) : result (string * option error) :=
  match keys.String (ID_ e) with
  | Panic => Panic
  | r =>
      let hexkey := match r with Ok s => s | _ => "" end in
      let rep := {| PublicKey := hexkey; Address_ := Address e |} in
      let '(jsonBytes, err) :=
        json.Marshal_struct [("public_key", PublicKey rep); ("address", Address_ rep)] in
      match err with
      | Some err => Ok ("", Some err)
      | None => Ok (jsonBytes, None)
      end
  end.
End WithText.
End id.

Module client.
(** A pointer to a [p2p.Node] or to a [log.Logger]: only its identity
    matters here. *)
Definition ref : Type := positive.

Section WithKey.
Context {K : Type}.

Record Client : Type := { Node : ref; Id : id.ID K; Log : ref }.

(** [el] points at an element of the recency list; elements are
    told apart by the address they hold. *)
Record clientMapEntry : Type := { el : string; client : Client }.

(** The mutex is left out: every operation below is one atomic step.
    [order] has the most recently used address first. *)
Record ClientMap : Type := {
  cap : nat;
  order : list string;
  entries : gmap string clientMapEntry;
}.

(** [func newClientMap(cap uint) *ClientMap] *)
Definition newClientMap (cap : nat) : ClientMap :=
  {| cap := cap; order := []; entries := ∅ |}.

(** [order.Remove(el)] and [order.PushFront(address)] *)
Definition listRemove (a : string) (l : list string) : list string :=
  filter (λ x, x ≠ a) l.
Definition moveToFront (a : string) (l : list string) : list string :=
  a :: listRemove a l.

(** Modelled from the spec: [len], the current occupancy.  The
    methods of [ClientMap] are not part of the sources. *)
Definition len (m : ClientMap) : nat := size (entries m).

(** Modelled from the spec: [get(address)].  On a hit the entry moves
    to the most-recently-used end and its handle is returned; on a
    miss nothing is returned. *)
Definition get (a : string) (m : ClientMap) : ClientMap * option Client :=
  match entries m !! a with
  | Some e =>
      ({| cap := cap m; order := moveToFront (el e) (order m); entries := entries m |},
       Some (client e))
  | None => (m, None)
  end.

(** What a [put] did; an eviction names the address removed and the
    entry whose connection is closed. *)
Inductive putOutcome : Type :=
  | Replaced
  | Inserted
  | Evicted (victim : string) (closed : option clientMapEntry)
  | Rejected.

(** Modelled from the spec: [put(address, handle)].  An existing
    address has its handle replaced and is promoted.  Otherwise, when
    the registry is full, the least-recently-used entry (the tail of
    [order]) is removed from the map and from the list and its
    connection closed, and then the new entry goes to the
    most-recently-used end.  A full registry with nothing to evict is
    the guarded capacity error of the spec's error taxonomy: the
    insertion fails and the registry is unchanged. *)
Definition put (a : string) (h : Client) (m : ClientMap) : ClientMap * putOutcome :=
  match entries m !! a with
  | Some e =>
      ({| cap := cap m;
          order := moveToFront (el e) (order m);
          entries := <[a := {| el := el e; client := h |}]> (entries m) |},
       Replaced)
  | None =>
      if decide (size (entries m) = cap m) then
        match last (order m) with
        | Some lru =>
            ({| cap := cap m;
                order := a :: listRemove lru (order m);
                entries := <[a := {| el := a; client := h |}]> (delete lru (entries m)) |},
             Evicted lru (entries m !! lru))
        | None => (m, Rejected)
        end
      else
        ({| cap := cap m;
            order := a :: order m;
            entries := <[a := {| el := a; client := h |}]> (entries m) |},
         Inserted)
  end.

(** Modelled from the spec: [remove(address)] deletes the entry and
    its list node when present and does nothing otherwise. *)
Definition remove (a : string) (m : ClientMap) : ClientMap :=
  match entries m !! a with
  | Some e =>
      {| cap := cap m; order := listRemove (el e) (order m); entries := delete a (entries m) |}
  | None => m
  end.

(** A history of registry operations. *)
Inductive op : Type :=
  | Get (a : string)
  | Put (a : string) (h : Client)
  | Remove (a : string).

Definition step (m : ClientMap) (o : op) : ClientMap :=
  match o with
  | Get a => (get a m).1
  | Put a h => (put a h m).1
  | Remove a => remove a m
  end.

Definition exec (ops : list op) (m : ClientMap) : ClientMap := foldl step m ops.

(** [touches o a]: the operation is a [get] or a [put] of [a]. *)
Definition touches (o : op) (a : string) : bool :=
  match o with
  | Get b | Put b _ => bool_decide (a = b)
  | Remove _ => false
  end.

(** The time of the last [get] or [put] of [a] in a history: the
    operations are numbered from 1, and 0 means never. *)
Definition lastTouchScan (a : string) (ops : list op) : nat * nat :=
  foldl (λ '(now, seen) o, (S now, if touches o a then S now else seen)) (0%nat, 0%nat) ops.
Definition lastTouch (ops : list op) (a : string) : nat := (lastTouchScan a ops).2.
End WithKey.
Arguments Client K : clear implicits.
Arguments ClientMap K : clear implicits.
Arguments op K : clear implicits.
End client.

Module HandleContext.
(** [type HandleContext struct] of package [message], with its methods.
    [Send] is the value the atomic flag holds. *)
Section WithKey.
Context {K : Type}.

Record HandleContext : Type := {
  Client : client.Client K;
  Msg : message.Message;
  Send : bool;
}.

(** [func (ctx *HandleContext) ID() id.ID] *)
Definition ID (ctx : HandleContext) : id.ID K := client.Id (Client ctx).

(** [func (ctx *HandleContext) Logger() *log.Logger] *)
Definition Logger (ctx : HandleContext) : client.ref := client.Log (Client ctx).

(** [func (ctx *HandleContext) Data() []byte] *)
Definition Data (ctx : HandleContext) : list byte := message.Data (Msg ctx).

(** [func (ctx *HandleContext) IsRequest() bool] *)
Definition IsRequest (ctx : HandleContext) : bool :=
  bool_decide (message.Nonce (Msg ctx) > 0).
End WithKey.
Arguments HandleContext K : clear implicits.
End HandleContext.

Module zapcore.
(** [type Level int8] of [go.uber.org/zap/zapcore], with its constants. *)
Definition Level : Type := Z.
Definition DebugLevel : Level := -1.
Definition InfoLevel : Level := 0.
Definition WarnLevel : Level := 1.
Definition ErrorLevel : Level := 2.
Definition DPanicLevel : Level := 3.
Definition PanicLevel : Level := 4.
Definition FatalLevel : Level := 5.
End zapcore.

Module zap.
(** [go.uber.org/zap], as far as package [log] drives it: a
    [*zap.Logger] is the calls it has received, the oldest first.  What
    zap makes of a call (its own level check, sampling, encoding and
    output) is outside this development. *)
Inductive Field : Type :=
  | String (key val : string)    (* [zap.String(key, val)] *)
  | Error (err : option error).  (* [zap.Error(err)]; [None] is a nil error *)

Record Call : Type := { Lvl : zapcore.Level; Message : string; Fields : list Field }.

Definition Logger : Type := list Call.

Definition log (lvl : zapcore.Level) (z : Logger) (msg : string) (fields : list Field)
  : Logger :=
  z ++ [{| Lvl := lvl; Message := msg; Fields := fields |}].

Definition Debug : Logger → string → list Field → Logger := log zapcore.DebugLevel.
Definition Info : Logger → string → list Field → Logger := log zapcore.InfoLevel.
Definition Warn : Logger → string → list Field → Logger := log zapcore.WarnLevel.
(** The method [Error] is [Error_] here, beside the field [zap.Error],
    and the method [Panic] is [Panic_]. *)
Definition Error_ : Logger → string → list Field → Logger := log zapcore.ErrorLevel.

(** [DPanic] panics in development only; the logger of package [log] is
    built from the production configuration. *)
Definition DPanic : Logger → string → list Field → Logger := log zapcore.DPanicLevel.

(** [Panic] logs and then panics: the flag says so. *)
Definition Panic_ (z : Logger) (msg : string) (fields : list Field) : Logger * bool :=
  (log zapcore.PanicLevel z msg fields, true).
End zap.

Module log.
(** Package [log].  [config.LOG_LEVEL], a package variable, is the
    argument [LOG_LEVEL]; what a function prints to the standard output
    is returned as a list of lines. *)
Record LogMessage : Type := { Desc : string; Msg : string }.

(** [type ErrLogMessage struct]; its fields [Desc] and [Err] carry an
    [E] here, and a nil error is [None]. *)
Record ErrLogMessage : Type := { EDesc : string; EErr : option error }.

(** [type Logger struct]; the field [Module] is [Module_]. *)
Record Logger : Type := {
  zapLogger : zap.Logger;
  level : zapcore.Level;
  Module_ : string;
}.

(** [func setLogLevel() zapcore.Level] *)
Definition setLogLevel (LOG_LEVEL : string) : zapcore.Level * list string :=
  if decide (LOG_LEVEL = "DEBUG") then (zapcore.DebugLevel, [])
  else if decide (LOG_LEVEL = "INFO") then (zapcore.InfoLevel, [])
  else if decide (LOG_LEVEL = "WARN") then (zapcore.WarnLevel, [])
  else if decide (LOG_LEVEL = "ERROR") then (zapcore.ErrorLevel, [])
  else if decide (LOG_LEVEL = "CRITICAL") then (zapcore.DPanicLevel, [])
  else if decide (LOG_LEVEL = "PANIC") then (zapcore.PanicLevel, [])
  else (zapcore.InfoLevel, ["No LOG_LEVEL loaded, defaulting to INFO"]).

(** [func NewLogger(module string) *Logger].  [Build] is
    [config.Build()] for the level set: a zap logger, or the text of
    its error.  The result is nil, [None], when the build fails. *)
Definition NewLogger (LOG_LEVEL : string) (Build : zapcore.Level → zap.Logger + string)
    (module : string) : option Logger * list string :=
  let '(lvl, out1) := setLogLevel LOG_LEVEL in
  match Build lvl with
  | inr err => (None, out1 ++ ["Failed to initialize zap logger: " +:+ err])
  | inl z =>
      let '(lvl', out2) := setLogLevel LOG_LEVEL in
      (Some {| zapLogger := z; Module_ := module; level := lvl' |}, out1 ++ out2)
  end.

Definition withZap (l : Logger) (z : zap.Logger) : Logger :=
  {| zapLogger := z; level := level l; Module_ := Module_ l |}.

(** [func (l *Logger) DEBUG(msg LogMessage)] *)
Definition DEBUG (l : Logger) (msg : LogMessage) : Logger :=
  if decide (level l ≤ zapcore.DebugLevel) then
    withZap l (zap.Debug (zapLogger l) (Desc msg)
                 [zap.String "message" (Msg msg); zap.String "module" (Module_ l)])
  else l.

(** [func (l *Logger) INFO(msg LogMessage)] *)
Definition INFO (l : Logger) (msg : LogMessage) : Logger :=
  if decide (level l ≤ zapcore.InfoLevel) then
    withZap l (zap.Info (zapLogger l) (Desc msg)
                 [zap.String "message" (Msg msg); zap.String "module" (Module_ l)])
  else l.

(** [func (l *Logger) WARN(msg LogMessage)] *)
Definition WARN (l : Logger) (msg : LogMessage) : Logger :=
  if decide (level l ≤ zapcore.WarnLevel) then
    withZap l (zap.Warn (zapLogger l) (Desc msg)
                 [zap.String "message" (Msg msg); zap.String "module" (Module_ l)])
  else l.

(** [func (l *Logger) ERROR(msg ErrLogMessage)] *)
Definition ERROR (l : Logger) (msg : ErrLogMessage) : Logger :=
  if decide (level l ≤ zapcore.ErrorLevel) then
    withZap l (zap.Error_ (zapLogger l) (EDesc msg)
                 [zap.Error (EErr msg); zap.String "module" (Module_ l)])
  else l.

(** [func (l *Logger) CRITICAL(msg ErrLogMessage)] *)
Definition CRITICAL (l : Logger) (msg : ErrLogMessage) : Logger :=
  if decide (level l ≤ zapcore.DPanicLevel) then
    withZap l (zap.DPanic (zapLogger l) (EDesc msg)
                 [zap.Error (EErr msg); zap.String "module" (Module_ l)])
  else l.

(** [func (l *Logger) PANIC(msg ErrLogMessage)]: the logger afterwards,
    and whether the call panicked. *)
Definition PANIC (l : Logger) (msg : ErrLogMessage) : Logger * bool :=
  if decide (level l ≤ zapcore.PanicLevel) then
    let '(z, panicked) :=
      zap.Panic_ (zapLogger l) (EDesc msg)
        [zap.Error (EErr msg); zap.String "module" (Module_ l)] in
    (withZap l z, panicked)
  else (l, false).
End log.

(** * Vocabulary of the statements *)

(** What package [id] relies on for a key type: every key of the type has
    the size the shape reports, and a key is read back from its bytes.
    Any buffer of that size unmarshals to some key. *)
Class PublicKeyLaws (K : Type) `{keys.PublicKey K} : Prop := {
  Bytes_Size : ∀ shape k : K, length (keys.Bytes k) = keys.Size shape;
  Unmarshal_Bytes : ∀ shape k : K,
    keys.UnmarshalPublicKeyFromByte shape (keys.Bytes k) = Ok k;
  Unmarshal_sized : ∀ (shape : K) (b : list byte),
    length b = keys.Size shape → ∃ k, keys.UnmarshalPublicKeyFromByte shape b = Ok k;
}.

(** A host that is an IPv4 or an IPv6 address, and a port that is a [uint16]. *)
Definition validHost (ip : net.IP) : Prop :=
  net.len ip = net.IPv4len ∨ net.len ip = net.IPv6len.
Definition validPort (p : Z) : Prop := 0 ≤ p < 2 ^ 16.

(** A string is valid hexadecimal when it has an even number of
    characters, all of them hexadecimal digits of either case. *)
Definition hexDigits : list ascii := list_ascii_of_string "0123456789abcdefABCDEF".
Definition isHexDigit (c : ascii) : Prop := c ∈ hexDigits.
Definition validHex (s : string) : Prop :=
  Nat.Even (String.length s) ∧ ∀ c, c ∈ list_ascii_of_string s → isHexDigit c.

#[global] Instance isHexDigit_dec (c : ascii) : Decision (isHexDigit c).
Proof. unfold isHexDigit. apply _. Defined.

(** The bytes a hexadecimal string decodes to. *)
Definition decoded (s : string) : list byte := (hex.DecodeString s).1.

(** A recency list is ordered by a clock [t] when every address was
    touched later than all the addresses behind it. *)
Fixpoint recencyOrdered (t : string → nat) (l : list string) : Prop :=
  match l with
  | [] => True
  | a :: l' => (∀ b, b ∈ l' → (t b < t a)%nat) ∧ recencyOrdered t l'
  end.

(** The invariant of a registry of capacity [C] after the history [ops]:
    the list holds exactly the addresses of the map, most recently touched
    first, every list node holds the address of its entry, and no more
    than [C] entries are stored. *)
Record registryInv {K : Type} (C : nat) (ops : list (client.op K))
    (m : client.ClientMap K) : Prop := {
  inv_cap : client.cap m = C;
  inv_ordered : recencyOrdered (client.lastTouch ops) (client.order m);
  inv_dom : ∀ a, a ∈ client.order m ↔ is_Some (client.entries m !! a);
  inv_el : ∀ a e, client.entries m !! a = Some e → client.el e = a;
  inv_size : (size (client.entries m) ≤ C)%nat;
  inv_touched : ∀ a, a ∈ client.order m → (0 < client.lastTouch ops a)%nat;
}.

(** A concrete identity: the all-zero Ed25519 key at 192.168.0.1:8080,
    with the host in its 4-byte and in its 16-byte form. *)
Definition zeroKey : keys.Ed25519PublicKey := to_array ed25519.PublicKeySize [].
Definition peer4 : id.ID keys.Ed25519PublicKey :=
  id.NewID zeroKey (Some [Byte.xc0; Byte.xa8; Byte.x00; Byte.x01]) 8080.
Definition peer16 : id.ID keys.Ed25519PublicKey :=
  id.NewID zeroKey (net.IPv4 Byte.xc0 Byte.xa8 Byte.x00 Byte.x01) 8080.

(** The laws of the curve group that signing relies on.  Two points are
    the same point when they have the same encoding; [OnCurve] holds of
    the representations of curve points. *)
Class CurveLaws `{edwards25519.Curve} (OnCurve : edwards25519.Point → Prop) : Prop := {
  onCurve_identity : OnCurve edwards25519.NewIdentityPoint;
  onCurve_generator : OnCurve edwards25519.NewGeneratorPoint;
  onCurve_Add : ∀ P Q, OnCurve P → OnCurve Q → OnCurve (edwards25519.Add P Q);
  onCurve_Negate : ∀ P, OnCurve P → OnCurve (edwards25519.Negate P);
  onCurve_SetBytes : ∀ b P, edwards25519.SetBytes b = Some P → OnCurve P;
  Add_Bytes : ∀ P P' Q Q', OnCurve P → OnCurve P' → OnCurve Q → OnCurve Q' →
    edwards25519.Bytes P = edwards25519.Bytes P' →
    edwards25519.Bytes Q = edwards25519.Bytes Q' →
    edwards25519.Bytes (edwards25519.Add P Q) = edwards25519.Bytes (edwards25519.Add P' Q');
  Negate_Bytes : ∀ P P', OnCurve P → OnCurve P' →
    edwards25519.Bytes P = edwards25519.Bytes P' →
    edwards25519.Bytes (edwards25519.Negate P) = edwards25519.Bytes (edwards25519.Negate P');
  Add_assoc : ∀ P Q R, OnCurve P → OnCurve Q → OnCurve R →
    edwards25519.Bytes (edwards25519.Add (edwards25519.Add P Q) R)
    = edwards25519.Bytes (edwards25519.Add P (edwards25519.Add Q R));
  Add_comm : ∀ P Q, OnCurve P → OnCurve Q →
    edwards25519.Bytes (edwards25519.Add P Q) = edwards25519.Bytes (edwards25519.Add Q P);
  Add_identity : ∀ P, OnCurve P →
    edwards25519.Bytes (edwards25519.Add edwards25519.NewIdentityPoint P)
    = edwards25519.Bytes P;
  Add_Negate : ∀ P, OnCurve P →
    edwards25519.Bytes (edwards25519.Add P (edwards25519.Negate P))
    = edwards25519.Bytes edwards25519.NewIdentityPoint;
  Bytes_length : ∀ P, OnCurve P → length (edwards25519.Bytes P) = 32%nat;
  SetBytes_Bytes : ∀ P, OnCurve P →
    ∃ Q, edwards25519.SetBytes (edwards25519.Bytes P) = Some Q
       ∧ edwards25519.Bytes Q = edwards25519.Bytes P;
  generator_order :
    edwards25519.Bytes (edwards25519.ScalarBaseMult edwards25519.l)
    = edwards25519.Bytes edwards25519.NewIdentityPoint;
}.

Section GroupOperations.
Context `{edwards25519.Curve} (OnCurve : edwards25519.Point → Prop) `{!CurveLaws OnCurve}.

(** Curve points, with the operations of the interface; [geq] is
    equality of points, [gmul] the multiple of a point. *)
Record gpoint : Type := GPoint { gp :> edwards25519.Point; gp_on : OnCurve gp }.

Inductive geq (P Q : gpoint) : Prop :=
  | GEq (same : edwards25519.Bytes P = edwards25519.Bytes Q).
Definition gzero : gpoint := GPoint _ onCurve_identity.
Definition gbase : gpoint := GPoint _ onCurve_generator.
Definition gadd (P Q : gpoint) : gpoint := GPoint _ (onCurve_Add P Q (gp_on P) (gp_on Q)).
Definition gneg (P : gpoint) : gpoint := GPoint _ (onCurve_Negate P (gp_on P)).

Fixpoint gmulPos (n : positive) (P : gpoint) : gpoint :=
  match n with
  | xH => P
  | xO n' => let Q := gmulPos n' P in gadd Q Q
  | xI n' => let Q := gmulPos n' P in gadd (gadd Q Q) P
  end.

Definition gmul (s : Z) (P : gpoint) : gpoint :=
  match s with
  | Zpos n => gmulPos n P
  | _ => gzero
  end.
End GroupOperations.

Arguments GPoint {_ _} _ _.
Arguments gp {_ _} _.
Arguments gp_on {_ _} _.
Arguments geq {_ _} P Q.
Arguments gzero {_ _ _}.
Arguments gbase {_ _ _}.
Arguments gadd {_ _ _} P Q.
Arguments gneg {_ _ _} P.
Arguments gmulPos {_ _ _} n P.
Arguments gmul {_ _ _} s P.


(** A private key is consistent when it is what [NewKeyFromSeed] makes of
    its first 32 bytes: its second half is the public key of its seed. *)
Definition consistentKey `{edwards25519.Curve} (e : keys.Ed25519PrivateKey) : Prop :=
  ed25519.NewKeyFromSeed (take 32 (vec_to_list e)) = Ok (vec_to_list e).

(** The integers modulo [l] under addition, with 1 for the base point:
    the smallest structure with the laws of the curve group. *)
Definition residues : edwards25519.Curve := {|
  edwards25519.Point := Z;
  edwards25519.NewIdentityPoint := 0;
  edwards25519.NewGeneratorPoint := 1;
  edwards25519.Add a b := (a + b) mod edwards25519.l;
  edwards25519.Negate a := (- a) mod edwards25519.l;
  edwards25519.Bytes a := edwards25519.le_bytes 32 a;
  edwards25519.SetBytes b := edwards25519.SetCanonicalBytes b;
|}.
Definition isResidue (a : Z) : Prop := 0 ≤ a < edwards25519.l.

(** The first test vector of RFC 8032, section 7.1. *)
Definition rfcSeed : list byte :=
  decoded "9d61b19deffd5a60ba844af492ec2cc44449c5697b326919703bac031cae7f60".
Definition rfcPublic : list byte :=
  decoded "d75a980182b10ab7d54bfed3c964073a0ee172f3daa62325af021a68f707511a".
Definition rfcSignature : list byte :=
  decoded ("e5564300c360ac729086e2cc806e828a84877f1eb8e5d974d873e06522490155"
           +:+ "5fb8821590a33bacc61e39701cf9b46bd25bf5f0595bbe24655141438e7a100b").

(** A 64-byte private key that [LoadKeysFromHex] accepts: the seed of the
    test vector followed by 32 zero bytes in place of its public key. *)
Definition inconsistentKey : keys.Ed25519PrivateKey :=
  to_array ed25519.PrivateKeySize (rfcSeed ++ replicate 32 Byte.x00).



(** [allChars P s]: every character of [s] passes [P]. *)
Fixpoint allChars (P : ascii → bool) (s : string) : bool :=
  match s with
  | EmptyString => true
  | String c rest => P c && allChars P rest
  end.

(** The decimal digits, and the digits [hex.EncodeToString] writes. *)
Definition isDecimalChar (c : ascii) : bool :=
  bool_decide (c ∈ list_ascii_of_string "0123456789").
Definition isLowerHexChar (c : ascii) : bool :=
  bool_decide (c ∈ list_ascii_of_string "0123456789abcdef").

(** A 16-byte address that is not an IPv4 address in IPv6 form. *)
Definition properIPv6 (ip : net.IP) : Prop :=
  net.len ip = net.IPv6len ∧ net.To4 ip = None.

(** The first character of a string that is no hexadecimal digit. *)
Fixpoint firstNonHex (s : string) : option ascii :=
  match s with
  | EmptyString => None
  | String c rest => if decide (isHexDigit c) then firstNonHex rest else Some c
  end.

(** A resolver that knows one name: it answers 192.168.0.1:8080 for
    [peer.example:8080] and fails on every other name. *)
Definition exampleAddr : net.TCPAddr :=
  {| net.TCPAddr_IP := Some [Byte.xc0; Byte.xa8; Byte.x00; Byte.x01];
     net.TCPAddr_Port := 8080; net.TCPAddr_Zone := "" |}.
Definition exampleResolver (address : string) : net.TCPAddr + error :=
  if decide (address = "peer.example:8080") then inl exampleAddr
  else inr (ErrOther "no such host").

(** The characters of an address: digits of either base, the dot, the
    colon, the brackets and the question mark of an ill-formed host. *)
Definition isAddressChar (c : ascii) : bool :=
  bool_decide (c ∈ list_ascii_of_string "0123456789abcdef.:[]?").

(** The six names [setLogLevel] knows, by rising severity. *)
Definition levelNames : list string :=
  ["DEBUG"; "INFO"; "WARN"; "ERROR"; "CRITICAL"; "PANIC"].

(** A build of the zap logger that succeeds with a logger that has
    received nothing. *)
Definition buildOk (lvl : zapcore.Level) : zap.Logger + string := inl [].

(** The encoding of the neutral point of the curve, as a public key, and
    the signature made of that encoding and the scalar zero. *)
Definition identityKey : keys.Ed25519PublicKey := to_array ed25519.PublicKeySize [Byte.x01].
Definition identitySignature : keys.Ed25519Signature :=
  to_array ed25519.SignatureSize [Byte.x01].

(** * Properties *)

(** ** Bytes and big-endian numbers *)

Lemma Z_of_byte_range (b : byte) : 0 ≤ Z_of_byte b < 256.
Proof.
  unfold Z_of_byte. pose proof (Byte.to_N_bounded b) as Hb.
  lia.
Qed.

Lemma byte_of_Z_of_byte (b : byte) : byte_of_Z (Z_of_byte b) = b.
Proof.
  unfold byte_of_Z. pose proof (Z_of_byte_range b) as Hr.
  rewrite Z.mod_small by lia. unfold Z_of_byte.
  rewrite N2Z.id, Byte.of_to_N. reflexivity.
Qed.

Lemma Z_of_byte_of_Z (v : Z) : Z_of_byte (byte_of_Z v) = v mod 256.
Proof.
  unfold byte_of_Z, Z_of_byte.
  assert (Hr : 0 ≤ v mod 256 < 256) by (apply Z.mod_pos_bound; lia).
  destruct (Byte.of_N (Z.to_N (v mod 256))) as [b|] eqn:Hb; simpl.
  - apply Byte.to_of_N in Hb. rewrite Hb, Z2N.id; lia.
  - apply Byte.of_N_None_iff in Hb. lia.
Qed.

(** Joining a low part below bit [k] with a shifted high part adds them. *)
Lemma lor_shiftl_add (lo hi k : Z) :
  0 ≤ k → 0 ≤ lo < 2 ^ k → Z.lor lo (Z.shiftl hi k) = lo + hi * 2 ^ k.
Proof.
  intros Hk Hlo.
  rewrite <- Z.lxor_lor, <- Z.add_nocarry_lxor, Z.shiftl_mul_pow2; trivial.
  all: apply Z.bits_inj'; intros n Hn; rewrite Z.land_spec, Z.bits_0.
  all: destruct (Z.lt_ge_cases n k) as [Hlt|Hge].
  all: try (rewrite Z.shiftl_spec_low by lia; apply andb_false_r).
  all: rewrite <- (Z.mod_small lo (2 ^ k)) by lia.
  all: rewrite Z.mod_pow2_bits_high by lia; reflexivity.
Qed.

Lemma Uint16_value (b0 b1 : byte) (rest : list byte) :
  binary.Uint16 (b0 :: b1 :: rest) = Ok (be_value [b0; b1]).
Proof.
  pose proof (Z_of_byte_range b0). pose proof (Z_of_byte_range b1).
  unfold binary.Uint16, be_value; simpl. f_equal.
  rewrite lor_shiftl_add by lia. lia.
Qed.

Lemma Uint64_value (b0 b1 b2 b3 b4 b5 b6 b7 : byte) (rest : list byte) :
  binary.Uint64 (b0 :: b1 :: b2 :: b3 :: b4 :: b5 :: b6 :: b7 :: rest)
  = Ok (be_value [b0; b1; b2; b3; b4; b5; b6; b7]).
Proof.
  pose proof (Z_of_byte_range b0). pose proof (Z_of_byte_range b1).
  pose proof (Z_of_byte_range b2). pose proof (Z_of_byte_range b3).
  pose proof (Z_of_byte_range b4). pose proof (Z_of_byte_range b5).
  pose proof (Z_of_byte_range b6). pose proof (Z_of_byte_range b7).
  unfold binary.Uint64, be_value; simpl. f_equal.
  rewrite !Z.shiftl_mul_pow2 by lia.
  repeat match goal with
  | |- context [Z.lor ?lo (?hi * 2 ^ ?k)] =>
      rewrite <- (Z.shiftl_mul_pow2 hi k), (lor_shiftl_add lo hi k) by lia
  end.
  lia.
Qed.

Lemma PutUint16_bytes (v : Z) (l : list byte) :
  (2 ≤ length l)%nat → binary.PutUint16 l v = Ok (be16 v ++ drop 2 l).
Proof. destruct l as [|? [|? l]]; simpl; intros; try lia. reflexivity. Qed.

Lemma PutUint64_bytes (v : Z) (l : list byte) :
  (8 ≤ length l)%nat → binary.PutUint64 l v = Ok (be64 v ++ drop 8 l).
Proof.
  intros Hlen. do 8 (destruct l as [|? l]; [simpl in Hlen; lia|]). reflexivity.
Qed.

Lemma length_be64 (v : Z) : length (be64 v) = 8%nat.
Proof. reflexivity. Qed.

Lemma be_value_be16 (v : Z) : be_value (be16 v) = v mod 2 ^ 16.
Proof.
  unfold be_value, be16; simpl. rewrite !Z_of_byte_of_Z, Z.shiftr_div_pow2 by lia.
  change (2 ^ 16) with (256 * 256). change (2 ^ 8) with 256.
  rewrite Z.rem_mul_r by lia. lia.
Qed.

Lemma be_value_be64 (v : Z) : be_value (be64 v) = v mod 2 ^ 64.
Proof.
  unfold be_value, be64; simpl. rewrite !Z_of_byte_of_Z, !Z.shiftr_div_pow2 by lia.
  change (2 ^ 64) with (256 * (256 * (256 * (256 * (256 * (256 * (256 * 256))))))).
  rewrite !Z.rem_mul_r by lia.
  change (2 ^ 56) with (256 * (256 * (256 * (256 * (256 * (256 * 256)))))).
  change (2 ^ 48) with (256 * (256 * (256 * (256 * (256 * 256))))).
  change (2 ^ 40) with (256 * (256 * (256 * (256 * 256)))).
  change (2 ^ 32) with (256 * (256 * (256 * 256))).
  change (2 ^ 24) with (256 * (256 * 256)).
  change (2 ^ 16) with (256 * 256).
  change (2 ^ 8) with 256.
  rewrite <- !Z.div_div by lia. lia.
Qed.

(** ** Wire messages *)

Lemma slice_ok (b : list byte) (lo hi : nat) :
  (lo ≤ hi ≤ length b)%nat → slice b lo hi = Ok (take (hi - lo) (drop lo b)).
Proof. intros Hr. unfold slice. destruct (decide _); [reflexivity | lia]. Qed.

(** What [Marshal] returns: the nonce, then whatever followed the first
    eight bytes of [dst] extended by eight zeros, then the payload. *)
Lemma Marshal_bytes (m : message.Message) (dst : list byte) :
  message.Marshal m dst
  = Ok (be64 (message.Nonce m) ++ drop 8 (dst ++ make 8) ++ message.Data m).
Proof.
  unfold message.Marshal.
  assert (Hlen : (8 ≤ length (dst ++ make 8))%nat)
    by (rewrite length_app; unfold make; rewrite length_replicate; lia).
  rewrite slice_ok by lia. cbn [mbind result_bind]. rewrite PutUint64_bytes.
  2:{ rewrite drop_0, length_take. lia. }
  cbn [mbind result_bind]. unfold store_front.
  rewrite drop_0, Nat.sub_0_r, skipn_firstn_comm, Nat.sub_diag, take_0, app_nil_r.
  rewrite length_be64, <- app_assoc. reflexivity.
Qed.

(** On an empty buffer [Marshal] produces the frame of the spec. *)
Lemma Marshal_empty (m : message.Message) :
  message.Marshal m [] = Ok (be64 (message.Nonce m) ++ message.Data m).
Proof. rewrite Marshal_bytes. reflexivity. Qed.

(** What [Unmarshal] returns on eight bytes or more. *)
Lemma Unmarshal_long (data : list byte) :
  (8 ≤ length data)%nat →
  message.Unmarshal data
  = Ok {| message.Nonce := be_value (take 8 data); message.Data := take 8 data |}.
Proof.
  intros Hlen. unfold message.Unmarshal.
  destruct (decide _); [lia|]. rewrite slice_ok by lia.
  cbn [mbind result_bind]. rewrite Nat.sub_0_r, drop_0.
  do 8 (destruct data as [|? data]; [simpl in Hlen; lia|]).
  cbn [take]. rewrite Uint64_value. reflexivity.
Qed.

Lemma Unmarshal_short (data : list byte) :
  (length data < 8)%nat → message.Unmarshal data = Err ErrUnexpectedEOF.
Proof. intros Hlen. unfold message.Unmarshal. destruct (decide _); [reflexivity | lia]. Qed.

(** C1, at the failing input.  Decoding the nine-byte frame with nonce 1
    and the one-byte payload [aa] succeeds with nonce 1, and its payload is
    the eight nonce bytes [data[:8]]; the bytes after the first eight,
    [data[8:]], are the single byte [aa]. *)
Theorem Unmarshal_returns_nonce_bytes_as_payload :
  let data := be64 1 ++ [Byte.xaa] in
  message.Unmarshal data = Ok {| message.Nonce := 1; message.Data := be64 1 |}
  ∧ drop 8 data = [Byte.xaa]
  ∧ be64 1 ≠ drop 8 data.
Proof. vm_compute. repeat split; congruence. Qed.

(** The sibling path: decoding what [Marshal] wrote into an empty buffer
    does not give the message back. *)
Lemma Unmarshal_Marshal_differs :
  let m := {| message.Nonce := 1; message.Data := [Byte.xaa] |} in
  (message.Marshal m [] ≫= message.Unmarshal) ≠ Ok m.
Proof. vm_compute. congruence. Qed.

(** C2, at the failing input.  Encoding nonce 1 with payload [aa] into
    the one-byte buffer [ff] overwrites that byte: the nonce lands on the
    first eight bytes of the buffer, one appended zero is left behind it,
    and [ff] is gone.  Appending would have given [ff], the nonce, [aa]. *)
Theorem Marshal_overwrites_buffer_front :
  let m := {| message.Nonce := 1; message.Data := [Byte.xaa] |} in
  let dst := [Byte.xff] in
  message.Marshal m dst = Ok (be64 1 ++ [Byte.x00] ++ [Byte.xaa])
  ∧ message.Marshal m dst ≠ Ok (dst ++ be64 1 ++ [Byte.xaa]).
Proof. vm_compute. split; congruence. Qed.

(** ** Arrays *)

Lemma vec_to_list_to_array (n : nat) (src : list byte) :
  vec_to_list (to_array n src) = take n src ++ replicate (n - length src) Byte.x00.
Proof.
  revert src; induction n as [|n IH]; intros src; [reflexivity|].
  destruct src as [|b src]; simpl.
  - rewrite IH. destruct n; reflexivity.
  - rewrite IH. reflexivity.
Qed.

Lemma vec_to_list_to_array_exact (n : nat) (src : list byte) :
  length src = n → vec_to_list (to_array n src) = src.
Proof.
  intros <-. rewrite vec_to_list_to_array, Nat.sub_diag, firstn_all. apply app_nil_r.
Qed.

Lemma to_array_vec_to_list (n : nat) (v : vec byte n) : to_array n (vec_to_list v) = v.
Proof.
  apply vec_to_list_inj2. apply vec_to_list_to_array_exact, length_vec_to_list.
Qed.

(** ** The Ed25519 public key as a [keys.PublicKey] *)

#[global] Instance Ed25519PublicKey_Laws : PublicKeyLaws keys.Ed25519PublicKey.
Proof.
  split.
  - intros shape k. apply length_vec_to_list.
  - intros shape k.
    change (keys.UnmarshalPublicKeyFromByte shape (keys.Bytes k))
      with (if decide (length (vec_to_list k) = ed25519.PublicKeySize)
            then Ok (to_array ed25519.PublicKeySize (vec_to_list k))
            else Err ErrUnexpectedEOF).
    destruct (decide _) as [|Hne]; [|destruct Hne; apply length_vec_to_list].
    f_equal. apply to_array_vec_to_list.
  - intros shape b Hb.
    change (keys.UnmarshalPublicKeyFromByte shape b)
      with (if decide (length b = ed25519.PublicKeySize)
            then Ok (to_array ed25519.PublicKeySize b)
            else Err ErrUnexpectedEOF).
    destruct (decide _) as [|Hne]; [eauto | destruct Hne; exact Hb].
Qed.

(** ** Peer identities *)

Section Identity.
Context {K : Type} `{PublicKeyLaws K}.

Lemma To16_valid (ip : net.IP) :
  validHost ip →
  ∃ h, net.To16 ip = Some h ∧ length h = 16%nat
       ∧ net.Equal (Some h) ip = true
       ∧ (net.len ip = net.IPv6len → Some h = ip).
Proof.
  unfold validHost, net.len, net.IPv4len, net.IPv6len.
  destruct ip as [l|]; simpl; [|lia]. intros [Hl|Hl].
  - destruct l as [|a [|b [|c [|d [|]]]]]; simpl in Hl; try lia.
    eexists. split; [reflexivity|]. split; [reflexivity|].
    split; [|simpl; lia].
    unfold net.Equal; simpl. rewrite bool_decide_eq_true_2 by reflexivity.
    reflexivity.
  - exists l. unfold net.To16, net.IPv4len, net.IPv6len.
    destruct (decide (length l = 4%nat)); [lia|].
    destruct (decide (length l = 16%nat)); [|lia].
    repeat split; trivial. unfold net.Equal; simpl.
    destruct (decide _); [|done]. apply bool_decide_eq_true_2. reflexivity.
Qed.

(** The bytes [Marshal] emits. *)
Lemma id_Marshal_bytes (i : id.ID K) :
  id.Marshal i
  = Ok (keys.Bytes (id.ID_ i) ++ net.bytes (net.To16 (id.Host i)) ++ be16 (id.Port i)).
Proof. unfold id.Marshal. cbn. rewrite <- app_assoc. reflexivity. Qed.

(** What [UnmarshalID] returns on a buffer that is long enough: the
    fields are read at their positions and extra bytes are ignored. *)
Lemma UnmarshalID_long (buf : list byte) (shape : K) :
  (keys.Size shape + 18 ≤ length buf)%nat →
  ∃ k, keys.UnmarshalPublicKeyFromByte shape (take (keys.Size shape) buf) = Ok k
    ∧ id.UnmarshalID buf shape
      = Ok {| id.ID_ := k;
              id.Host := Some (take 16 (drop (keys.Size shape) buf));
              id.Port := be_value (take 2 (drop (keys.Size shape + 16) buf)) |}.
Proof.
  intros Hlen. set (n := keys.Size shape) in *.
  destruct (Unmarshal_sized shape (take n buf)) as [k Hk].
  { rewrite length_take. lia. }
  exists k. split; [exact Hk|].
  unfold id.UnmarshalID, net.IPv6len. fold n.
  destruct (decide _); [lia|].
  rewrite !slice_ok by lia. cbn [mbind result_bind].
  rewrite Nat.sub_0_r, drop_0, Hk. cbn [mbind result_bind].
  replace (n + 16 - n)%nat with 16%nat by lia.
  assert (Hrest : (2 ≤ length (drop (n + 16) buf))%nat) by (rewrite length_drop; lia).
  rewrite (firstn_all2 (drop (n + 16) buf)) by (rewrite length_drop; lia).
  destruct (drop (n + 16) buf) as [|b0 [|b1 rest]]; simpl in Hrest; try lia.
  rewrite Uint16_value. reflexivity.
Qed.

Lemma UnmarshalID_short (buf : list byte) (shape : K) :
  (length buf < keys.Size shape + 18)%nat →
  id.UnmarshalID buf shape = Err ErrUnexpectedEOF.
Proof.
  intros Hlen. unfold id.UnmarshalID, net.IPv6len.
  destruct (decide _); [reflexivity | lia].
Qed.

(** C3, as amended.  For a peer identity whose host is an IPv4 or IPv6
    address and whose port is a [uint16], decoding the encoding succeeds
    and returns the same public key and port, with the host in its
    16-byte form [Host.To16()].  That host is the same address
    ([net.IP.Equal]); the decoded identity is the original one when the
    host was 16 bytes long already. *)
Theorem UnmarshalID_Marshal (i : id.ID K) (shape : K) :
  validHost (id.Host i) → validPort (id.Port i) →
  (id.Marshal i ≫= λ buf, id.UnmarshalID buf shape)
  = Ok {| id.ID_ := id.ID_ i; id.Host := net.To16 (id.Host i); id.Port := id.Port i |}
  ∧ net.Equal (net.To16 (id.Host i)) (id.Host i) = true
  ∧ (net.len (id.Host i) = net.IPv6len →
     (id.Marshal i ≫= λ buf, id.UnmarshalID buf shape) = Ok i).
Proof.
  intros Hhost Hport.
  destruct (To16_valid _ Hhost) as (h & Hh & Hlen & Heq & Hsame).
  assert (Hround : (id.Marshal i ≫= λ buf, id.UnmarshalID buf shape)
    = Ok {| id.ID_ := id.ID_ i; id.Host := Some h; id.Port := id.Port i |}).
  { rewrite id_Marshal_bytes, Hh. cbn [mbind result_bind net.bytes].
    pose proof (Bytes_Size shape (id.ID_ i)) as Hsize.
    destruct (UnmarshalID_long (keys.Bytes (id.ID_ i) ++ h ++ be16 (id.Port i)) shape)
      as (k & Hk & ->).
    { rewrite !length_app, Hsize, Hlen. simpl. lia. }
    rewrite <- Hsize in *.
    rewrite take_app_length in Hk. rewrite Unmarshal_Bytes in Hk.
    injection Hk as <-.
    rewrite drop_app_length.
    rewrite <- Hlen at 1. rewrite take_app_length.
    rewrite app_assoc, <- Hlen, <- length_app, drop_app_length.
    change (take 2 (be16 (id.Port i))) with (be16 (id.Port i)).
    rewrite be_value_be16, Z.mod_small by exact Hport. reflexivity. }
  rewrite Hh. repeat split; trivial.
  intros H16. rewrite Hround, (Hsame H16). destruct i; reflexivity.
Qed.

(** C4, in general.  [Size] adds [net.IPv4len], 4, to the key size, not
    the 16 bytes of the encoded address: it reports the key size plus 6
    and never the key size plus 18. *)
Theorem Size_counts_four_address_bytes (i : id.ID K) :
  id.Size i = (keys.Size (id.ID_ i) + 4 + 2)%nat
  ∧ id.Size i ≠ (keys.Size (id.ID_ i) + 16 + 2)%nat.
Proof. unfold id.Size, net.IPv4len. lia. Qed.

(** The encoding of a valid identity is 18 bytes longer than the key,
    as [UnmarshalID] expects, and 12 bytes longer than [Size] reports. *)
Lemma Marshal_length (i : id.ID K) :
  validHost (id.Host i) →
  ∃ buf, id.Marshal i = Ok buf
    ∧ length buf = (keys.Size (id.ID_ i) + 16 + 2)%nat
    ∧ length buf = (id.Size i + 12)%nat.
Proof.
  intros Hhost. destruct (To16_valid _ Hhost) as (h & Hh & Hlen & _).
  eexists. split; [apply id_Marshal_bytes|].
  rewrite Hh. cbn [net.bytes]. rewrite !length_app, (Bytes_Size (id.ID_ i)), Hlen.
  unfold id.Size, net.IPv4len. simpl. lia.
Qed.

(** C8.  [UnmarshalID] returns the truncated-input error exactly on
    buffers shorter than the key size plus 18, and [message.Unmarshal]
    exactly on buffers shorter than 8; on longer buffers both succeed. *)
Theorem truncation_exactly_on_short_input (buf : list byte) (shape : K) (data : list byte) :
  (id.UnmarshalID buf shape = Err ErrUnexpectedEOF
     ↔ (length buf < keys.Size shape + 18)%nat)
  ∧ ((keys.Size shape + 18 ≤ length buf)%nat → ∃ i, id.UnmarshalID buf shape = Ok i)
  ∧ (message.Unmarshal data = Err ErrUnexpectedEOF ↔ (length data < 8)%nat)
  ∧ ((8 ≤ length data)%nat → ∃ m, message.Unmarshal data = Ok m).
Proof.
  assert (Hid : (keys.Size shape + 18 ≤ length buf)%nat
                → ∃ i, id.UnmarshalID buf shape = Ok i).
  { intros Hlen. destruct (UnmarshalID_long buf shape Hlen) as (k & _ & Hu). eauto. }
  split; [|split; [exact Hid|split]].
  - split; [|apply UnmarshalID_short].
    intros Herr. destruct (Nat.lt_ge_cases (length buf) (keys.Size shape + 18)) as [|Hge];
      [assumption|].
    destruct (Hid Hge) as [i Hi]. congruence.
  - split; [|apply Unmarshal_short].
    intros Herr. destruct (Nat.lt_ge_cases (length data) 8) as [|Hge]; [assumption|].
    rewrite Unmarshal_long in Herr by exact Hge. discriminate.
  - intros Hge. rewrite Unmarshal_long by exact Hge. eauto.
Qed.
End Identity.

(** On the identity [peer16], [Size] reports 38 bytes and the encoding
    has 50. *)
Lemma Size_of_peer16 :
  id.Size peer16 = 38%nat
  ∧ (length <$> (match id.Marshal peer16 with Ok buf => Some buf | _ => None end))
    = Some 50%nat.
Proof. split; vm_compute; reflexivity. Qed.

(** C3, counterexample.  The identity with the 4-byte host 192.168.0.1 is
    valid, and decoding its encoding returns the 16-byte host
    ::ffff:192.168.0.1: an identity that is not the original. *)
Lemma UnmarshalID_Marshal_changes_ipv4_host :
  validHost (id.Host peer4) ∧ validPort (id.Port peer4)
  ∧ (id.Marshal peer4 ≫= λ buf, id.UnmarshalID buf zeroKey) = Ok peer16
  ∧ (id.Marshal peer4 ≫= λ buf, id.UnmarshalID buf zeroKey) ≠ Ok peer4.
Proof.
  split; [left; reflexivity|]. split; [unfold validPort; simpl; lia|].
  assert (Hrun : (id.Marshal peer4 ≫= λ buf, id.UnmarshalID buf zeroKey) = Ok peer16)
    by (vm_compute; reflexivity).
  split; [exact Hrun|]. rewrite Hrun. intros Heq.
  apply (f_equal (λ r, match r with Ok i => net.len (id.Host i) | _ => 0%nat end)) in Heq.
  vm_compute in Heq. discriminate.
Qed.

Lemma UnmarshalID_Marshal_witness :
  (id.Marshal peer16 ≫= λ buf, id.UnmarshalID buf zeroKey) = Ok peer16.
Proof.
  refine (proj2 (proj2 (UnmarshalID_Marshal peer16 zeroKey _ _)) _).
  - right; reflexivity.
  - unfold validPort; simpl; lia.
  - reflexivity.
Defined.

Lemma truncation_exactly_on_short_input_witness :
  id.UnmarshalID (replicate 49 Byte.x00) zeroKey = Err ErrUnexpectedEOF
  ∧ message.Unmarshal (replicate 7 Byte.x00) = Err ErrUnexpectedEOF.
Proof.
  pose proof (truncation_exactly_on_short_input
                (replicate 49 Byte.x00) zeroKey (replicate 7 Byte.x00)) as (Hid & _ & Hmsg & _).
  split.
  - apply Hid. simpl. lia.
  - apply Hmsg. simpl. lia.
Defined.

(** ** Signatures *)

Section Signatures.
Context `{edwards25519.Curve}.

(** On the 32 bytes of a key [ed25519.Verify] does not panic. *)
Lemma ed25519_Verify_key (e : keys.Ed25519PublicKey) (data sig : list byte) :
  ed25519.Verify (vec_to_list e) data sig = Ok (ed25519.verify (vec_to_list e) data sig).
Proof.
  unfold ed25519.Verify. rewrite length_vec_to_list.
  destruct (decide _) as [Hne|]; [destruct Hne|]; reflexivity.
Qed.

(** C7, as amended.  [Verify] returns an error, the
    invalid-signature-type one together with [false], exactly when the
    signature has a dynamic type other than [Ed25519Signature]; it never
    panics.  On an [Ed25519Signature] it returns no error and the
    verdict of [ed25519.Verify]: [false] when one of the top three bits
    of the last signature byte is set, when the key is no encoding of a
    curve point or when the second half of the signature is no
    canonical scalar; otherwise [true] exactly when the first half of
    the signature is the encoding of [k](-A) + [S]B, for the point [A]
    of the key, the scalar [S] of the signature and the hash [k] of the
    first half, the key and the data. *)
Theorem Verify_errors_only_on_foreign_signature
    (e : keys.Ed25519PublicKey) (data : list byte) (signature : keys.Signature) :
  (∀ s, signature = keys.SigEd25519 s →
     keys.Verify e data signature
     = Ok (ed25519.verify (vec_to_list e) data (vec_to_list s), None)
     ∧ (ed25519.verify (vec_to_list e) data (vec_to_list s) = false →
        keys.Verify e data signature = Ok (false, None))
     ∧ (Z.land (Z_of_byte (s !!! 63%fin)) 224 ≠ 0 →
        keys.Verify e data signature = Ok (false, None))
     ∧ (edwards25519.SetBytes (vec_to_list e) = None →
        keys.Verify e data signature = Ok (false, None))
     ∧ (edwards25519.SetCanonicalBytes (drop 32 (vec_to_list s)) = None →
        keys.Verify e data signature = Ok (false, None))
     ∧ (∀ A S_,
          Z.land (Z_of_byte (s !!! 63%fin)) 224 = 0 →
          edwards25519.SetBytes (vec_to_list e) = Some A →
          edwards25519.SetCanonicalBytes (drop 32 (vec_to_list s)) = Some S_ →
          let k := edwards25519.SetUniformBytes
                     (sha512.Sum512 (take 32 (vec_to_list s) ++ vec_to_list e ++ data)) in
          keys.Verify e data signature
          = Ok (bool_decide
                  (take 32 (vec_to_list s)
                   = edwards25519.Bytes
                       (edwards25519.Add (edwards25519.ScalarMult k (edwards25519.Negate A))
                          (edwards25519.ScalarBaseMult S_))), None)))
  ∧ ((∃ ok err, keys.Verify e data signature = Ok (ok, Some err))
       ↔ ∃ typ raw, signature = keys.SigOther typ raw)
  ∧ (∀ ok err, keys.Verify e data signature = Ok (ok, Some err) →
       ok = false ∧ err = ErrInvalidSignatureType)
  ∧ (∃ ok err, keys.Verify e data signature = Ok (ok, err)).
Proof.
  destruct signature as [s|typ raw]; cbn [keys.Verify].
  - rewrite ed25519_Verify_key. cbn [mbind result_bind].
    split; [|split; [|split]].
    + intros s' [= <-].
      assert (vec_to_list s !! 63%nat = Some (s !!! 63%fin)) as H63
        by (exact (proj1 (vlookup_lookup s 63%fin (s !!! 63%fin)) eq_refl)).
      unfold ed25519.verify.
      rewrite decide_False by (intros Hn; apply Hn; apply length_vec_to_list).
      rewrite H63. change (default Byte.x00 (Some (s !!! 63%fin))) with (s !!! 63%fin).
      split; [reflexivity|]. split; [intros ->; reflexivity|].
      split.
      { intros Hbits. apply Z.eqb_neq in Hbits. rewrite Hbits. reflexivity. }
      split.
      { intros ->. destruct (negb _); reflexivity. }
      split.
      { intros ->. destruct (negb _); [reflexivity|]. destruct (edwards25519.SetBytes _); reflexivity. }
      intros A S_ Hbits -> ->. rewrite Hbits. reflexivity.
    + split; [intros (ok & err & [=]) | intros (typ & raw & [=])].
    + intros ok err [=].
    + eauto.
  - split; [|split; [|split]].
    + intros s [=].
    + split; eauto.
    + intros ok err [= <- <-]. split; reflexivity.
    + eauto.
Qed.

(** [Sign] does not fail when the signature bytes are 64, and hands
    them on unchanged, as an [Ed25519Signature]. *)
Lemma Sign_bytes (e : keys.Ed25519PrivateKey) (data : list byte) :
  length (ed25519.sign (vec_to_list e) data) = ed25519.SignatureSize →
  ∃ s, keys.Sign e data = Ok (keys.SigEd25519 s)
    ∧ vec_to_list s = ed25519.sign (vec_to_list e) data.
Proof.
  intros Hlen. unfold keys.Sign, ed25519.Sign, keys.ed25519UnmarshalSignature.
  rewrite length_vec_to_list.
  destruct (decide _) as [Hne|]; [destruct Hne; reflexivity|].
  cbn [mbind result_bind].
  destruct (_ !! _) eqn:Hlast.
  - eexists. split; [reflexivity|]. apply vec_to_list_to_array_exact, Hlen.
  - apply lookup_ge_None in Hlast. unfold ed25519.SignatureSize in *. lia.
Qed.
End Signatures.

(** [Public] is the second half of the private key. *)
Lemma Public_bytes (e : keys.Ed25519PrivateKey) :
  ∃ pub, keys.Public e = Ok pub ∧ vec_to_list pub = drop 32 (vec_to_list e).
Proof.
  unfold keys.Public, ed25519.Public.
  assert (Hl : length (drop 32 (vec_to_list e)) = 32%nat)
    by (rewrite length_drop, length_vec_to_list; reflexivity).
  rewrite slice_ok by (rewrite length_vec_to_list; unfold ed25519.PrivateKeySize; lia).
  cbn [mbind result_bind]. eexists. split; [reflexivity|].
  rewrite (firstn_all2 (drop 32 (vec_to_list e))) by (rewrite Hl, length_vec_to_list; reflexivity).
  rewrite (firstn_all2 (drop 32 (vec_to_list e))) by (rewrite Hl; reflexivity).
  unfold store_front. rewrite Hl. change (drop 32 (make ed25519.PublicKeySize)) with (@nil byte).
  rewrite app_nil_r. apply vec_to_list_to_array_exact, Hl.
Qed.

(** ** Hexadecimal strings and key loading *)

Lemma fromHexChar_isHexDigit (c : ascii) : is_Some (hex.fromHexChar c) ↔ isHexDigit c.
Proof.
  assert (Hb : bool_decide (is_Some (hex.fromHexChar c)) = bool_decide (isHexDigit c))
    by (destruct c as [[] [] [] [] [] [] [] []]; vm_compute; reflexivity).
  rewrite <- (bool_decide_spec (is_Some _)), <- (bool_decide_spec (isHexDigit c)), Hb.
  reflexivity.
Qed.

(** Induction on strings, two characters at a time. *)
Lemma string_pair_ind (P : string → Prop) :
  P EmptyString →
  (∀ c, P (String.String c EmptyString)) →
  (∀ c d s, P s → P (String.String c (String.String d s))) →
  ∀ s, P s.
Proof.
  intros H0 H1 H2.
  fix IH 1. intros [|c [|d s]]; [exact H0 | apply H1 | apply H2, IH].
Qed.

(** [Decode] reports no error exactly on valid hexadecimal strings. *)
Lemma Decode_ok_iff (s : string) : (hex.Decode s).2 = None ↔ validHex s.
Proof.
  induction s as [|c|c d s IH] using string_pair_ind.
  - split; [|reflexivity]. intros _. split; [exists 0%nat; reflexivity|].
    intros c Hc. apply elem_of_nil in Hc. destruct Hc.
  - split.
    + simpl. destruct (hex.fromHexChar c); discriminate.
    + intros [[n Hn] _]. simpl in Hn. lia.
  - cbn [hex.Decode].
    pose proof (fromHexChar_isHexDigit c) as Hc.
    pose proof (fromHexChar_isHexDigit d) as Hd.
    assert (Hsplit : validHex (String.String c (String.String d s))
                     ↔ isHexDigit c ∧ isHexDigit d ∧ validHex s).
    { unfold validHex. cbn [String.length list_ascii_of_string].
      split.
      - intros [[n Hn] Hall]. split; [apply Hall; left|].
        split; [apply Hall; right; left|].
        split; [exists (n - 1)%nat; lia|]. intros x Hx. apply Hall. right; right; exact Hx.
      - intros (Hc' & Hd' & [n Hn] & Hall). split; [exists (S n); lia|].
        intros x Hx. apply elem_of_cons in Hx as [->|Hx]; [exact Hc'|].
        apply elem_of_cons in Hx as [->|Hx]; [exact Hd'|]. apply Hall, Hx. }
    rewrite Hsplit, <- IH, <- Hc, <- Hd.
    destruct (hex.fromHexChar c) as [a|].
    2:{ split; [discriminate|]. intros [[? [=]] _]. }
    destruct (hex.fromHexChar d) as [b|].
    2:{ split; [discriminate|]. intros (_ & [? [=]] & _). }
    destruct (hex.Decode s) as [out err]. cbn [snd].
    split; [intros ->; eauto | intros (_ & _ & ->); reflexivity].
Qed.

(** A valid string decodes to half as many bytes as it has characters. *)
Lemma Decode_length (s : string) :
  validHex s → (2 * length (hex.Decode s).1)%nat = String.length s.
Proof.
  intros Hv. apply Decode_ok_iff in Hv. revert Hv.
  induction s as [|c|c d s IH] using string_pair_ind.
  - reflexivity.
  - simpl. destruct (hex.fromHexChar c); discriminate.
  - cbn [hex.Decode String.length].
    destruct (hex.fromHexChar c); [|discriminate].
    destruct (hex.fromHexChar d); [|discriminate].
    destruct (hex.Decode s) as [out err]. cbn [fst snd length] in *.
    intros Herr. specialize (IH Herr). lia.
Qed.

(** Decoding inverts the lower-case encoding. *)
Lemma DecodeString_EncodeToString (b : list byte) :
  hex.DecodeString (hex.EncodeToString b) = (b, None).
Proof.
  unfold hex.DecodeString. induction b as [|x b IH]; [reflexivity|].
  cbn [hex.EncodeToString hex.Decode].
  destruct x; vm_compute hex.fromHexChar; rewrite IH; reflexivity.
Qed.

(** C9.  [LoadKeysFromHex] fails with the decode error on a string that
    is not valid hexadecimal; on a valid string that decodes to other than
    64 bytes it fails with the invalid-key-size error; otherwise it returns
    the private key whose bytes are the decoded bytes. *)
Theorem LoadKeysFromHex_cases (secretHex : string) :
  (¬ validHex secretHex →
     ∃ cause, keys.LoadKeysFromHex secretHex = Err (ErrDecodeKey cause))
  ∧ (validHex secretHex → length (decoded secretHex) ≠ ed25519.PrivateKeySize →
     keys.LoadKeysFromHex secretHex
     = Err (ErrInvalidKeySize (length (decoded secretHex)) ed25519.PrivateKeySize
              ErrUnexpectedEOF))
  ∧ (validHex secretHex → length (decoded secretHex) = ed25519.PrivateKeySize →
     ∃ key, keys.LoadKeysFromHex secretHex = Ok key
          ∧ vec_to_list key = decoded secretHex).
Proof.
  unfold keys.LoadKeysFromHex, decoded, hex.DecodeString.
  pose proof (Decode_ok_iff secretHex) as Hok.
  destruct (hex.Decode secretHex) as [secret err]. cbn [fst snd] in *.
  split; [|split].
  - intros Hbad. destruct err as [cause|]; [eauto|]. destruct Hbad. apply Hok. reflexivity.
  - intros Hv Hlen. apply Hok in Hv as ->.
    destruct (decide _) as [|Hn]; [reflexivity | destruct Hn; exact Hlen].
  - intros Hv Hlen. apply Hok in Hv as ->.
    destruct (decide _) as [Hn|]; [destruct Hn; exact Hlen|].
    eexists. split; [reflexivity|]. apply vec_to_list_to_array_exact, Hlen.
Qed.

(** The key size is wrong exactly when the string is not 128 characters long. *)
Lemma decoded_length (secretHex : string) :
  validHex secretHex → (2 * length (decoded secretHex))%nat = String.length secretHex.
Proof. apply Decode_length. Qed.

(** ** Addresses *)

Lemma ResolveIP_None (ip : net.IP) :
  utils.ResolveIP ip = None
  ↔ ip = None ∨ net.IsLoopback ip = true ∨ net.IsUnspecified ip = true.
Proof.
  unfold utils.ResolveIP.
  destruct (bool_decide (ip = None)) eqn:Hnil.
  { apply bool_decide_eq_true in Hnil. simpl. tauto. }
  apply bool_decide_eq_false in Hnil.
  destruct (net.IsLoopback ip), (net.IsUnspecified ip); simpl; try tauto.
  split; [contradiction|]. intros [?|[?|?]]; [contradiction | discriminate..].
Qed.

Lemma append_assoc (a b c : string) : (a +:+ b) +:+ c = a +:+ (b +:+ c).
Proof.
  induction a as [|x a IH]; [reflexivity|].
  change (String.String x ((a +:+ b) +:+ c) = String.String x (a +:+ (b +:+ c))).
  f_equal; exact IH.
Qed.

Section Address.
Context {K : Type}.

(** C10.  [Address] joins the normalized host and the decimal port with
    a colon, putting the host in brackets when it contains one.  For a
    host that is nil, loopback or unspecified the normalized host is the
    empty string, and the address is the colon and the port; any other
    host is normalized to its text form. *)
Theorem Address_joins_normalized_host_and_port (i : id.ID K) :
  let host := utils.NormalizeIP (id.Host i) in
  let port := strconv.FormatUint (id.Port i) in
  id.Address i = (if net.hasColon host then "[" +:+ host +:+ "]" else host) +:+ ":" +:+ port
  ∧ (id.Host i = None ∨ net.IsLoopback (id.Host i) = true
       ∨ net.IsUnspecified (id.Host i) = true →
     host = "" ∧ id.Address i = ":" +:+ port)
  ∧ (¬ (id.Host i = None ∨ net.IsLoopback (id.Host i) = true
          ∨ net.IsUnspecified (id.Host i) = true) →
     host = net.String (id.Host i)).
Proof.
  intros host port. subst host port.
  unfold id.Address, net.JoinHostPort, utils.NormalizeIP.
  pose proof (ResolveIP_None (id.Host i)) as Hres.
  split; [|split].
  - destruct (net.hasColon _); [|reflexivity].
    rewrite !append_assoc. reflexivity.
  - intros Hcase. apply Hres in Hcase. rewrite Hcase.
    destruct (decide _); [|done]. split; reflexivity.
  - intros Hcase. destruct (decide _) as [Hnone|Hsome]; [apply Hres in Hnone; contradiction|].
    f_equal. unfold utils.ResolveIP in *.
    destruct (_ || _); [contradiction | reflexivity].
Qed.
End Address.

Lemma LoadKeysFromHex_cases_witness :
  ∃ cause, keys.LoadKeysFromHex "0g" = Err (ErrDecodeKey cause).
Proof.
  apply (proj1 (LoadKeysFromHex_cases "0g")).
  intros Hv. apply Decode_ok_iff in Hv. vm_compute in Hv. discriminate.
Defined.

Lemma Address_joins_normalized_host_and_port_witness :
  id.Address (id.NewID zeroKey net.IPv6loopback 8080) = ":8080".
Proof.
  refine (proj2 (proj1 (proj2
    (Address_joins_normalized_host_and_port (id.NewID zeroKey net.IPv6loopback 8080))) _)).
  right; left. reflexivity.
Defined.

(** ** The connection registry *)

Section Registry.
Context {K : Type}.
Implicit Types (m : client.ClientMap K) (ops : list (client.op K)) (o : client.op K).
Implicit Types (a b v : string) (l : list string) (t : string → nat).

Lemma lastTouchScan_now a ops : (client.lastTouchScan a ops).1 = length ops.
Proof.
  unfold client.lastTouchScan.
  induction ops as [|o ops IH] using rev_ind; [reflexivity|].
  rewrite foldl_snoc, length_app.
  destruct (foldl _ _ ops) as [now seen]; simpl in *. lia.
Qed.

Lemma lastTouch_snoc ops o a :
  client.lastTouch (ops ++ [o]) a
  = if client.touches o a then S (length ops) else client.lastTouch ops a.
Proof.
  unfold client.lastTouch. pose proof (lastTouchScan_now a ops) as Hnow.
  unfold client.lastTouchScan in *. rewrite foldl_snoc.
  destruct (foldl _ _ ops) as [now seen]; simpl in *. subst now. reflexivity.
Qed.

Lemma lastTouch_le ops a : (client.lastTouch ops a ≤ length ops)%nat.
Proof.
  induction ops as [|o ops IH] using rev_ind; [reflexivity|].
  rewrite lastTouch_snoc, length_app. simpl. destruct (client.touches o a); lia.
Qed.

Lemma recencyOrdered_ext t t' l :
  (∀ a, a ∈ l → t' a = t a) → recencyOrdered t l → recencyOrdered t' l.
Proof.
  induction l as [|x l IH]; [done|]. intros Heq [Hhd Htl]. split.
  - intros b Hb. rewrite (Heq x), (Heq b) by (constructor; done || by right).
    by apply Hhd.
  - apply IH; [|done]. intros a Ha. apply Heq. by right.
Qed.

Lemma recencyOrdered_filter t (P : string → Prop) `{∀ x, Decision (P x)} l :
  recencyOrdered t l → recencyOrdered t (filter P l).
Proof.
  induction l as [|x l IH]; [done|]. intros [Hhd Htl].
  rewrite filter_cons. destruct (decide (P x)); [|by apply IH].
  split; [|by apply IH].
  intros b Hb. apply list_elem_of_filter in Hb as [_ Hb]. by apply Hhd.
Qed.

Lemma recencyOrdered_NoDup t l : recencyOrdered t l → NoDup l.
Proof.
  induction l as [|x l IH]; [constructor|]. intros [Hhd Htl].
  constructor; [|by apply IH]. intros Hin. specialize (Hhd x Hin). lia.
Qed.

(** The tail of an ordered list is the address touched least recently. *)
Lemma recencyOrdered_last t l v b :
  recencyOrdered t l → last l = Some v → b ∈ l → b ≠ v → (t v < t b)%nat.
Proof.
  induction l as [|x l IH]; [done|]. intros [Hhd Htl] Hlast Hb Hne.
  destruct l as [|y l].
  - simpl in Hlast. injection Hlast as <-. apply list_elem_of_singleton in Hb. done.
  - change (last (x :: y :: l)) with (last (y :: l)) in Hlast.
    apply elem_of_cons in Hb as [->|Hb].
    + apply Hhd. apply last_Some_elem_of. exact Hlast.
    + by apply IH.
Qed.

(** The map holds as many entries as the list has nodes. *)
Lemma registry_size C ops m :
  registryInv C ops m → size (client.entries m) = length (client.order m).
Proof.
  intros Hinv. rewrite <- size_dom.
  assert (Hdom : dom (client.entries m) = list_to_set (C:=gset string) (client.order m)).
  { apply set_eq. intros a. rewrite elem_of_dom, elem_of_list_to_set.
    symmetry. apply (inv_dom _ _ _ Hinv). }
  rewrite Hdom. apply size_list_to_set.
  eapply recencyOrdered_NoDup, (inv_ordered _ _ _ Hinv).
Qed.

(** An operation that touches [a] alone and leaves [a] at the front. *)
Lemma registryInv_front C ops o a l (E : gmap string (client.clientMapEntry (K:=K))) :
  client.touches o a = true →
  (∀ x, x ≠ a → client.touches o x = false) →
  recencyOrdered (client.lastTouch ops) l →
  a ∉ l →
  (∀ x, x ∈ l → (0 < client.lastTouch ops x)%nat) →
  (∀ x, x ∈ a :: l ↔ is_Some (E !! x)) →
  (∀ x e, E !! x = Some e → client.el e = x) →
  (size E ≤ C)%nat →
  registryInv C (ops ++ [o]) {| client.cap := C; client.order := a :: l; client.entries := E |}.
Proof.
  intros Ha Hother Hord Hnin Hpos Hdom Hel Hsize.
  assert (Hsame : ∀ x, x ∈ l → client.lastTouch (ops ++ [o]) x = client.lastTouch ops x).
  { intros x Hx. rewrite lastTouch_snoc, Hother; [done|]. intros ->. done. }
  split; cbn [client.cap client.order client.entries]; try done.
  - split; [|by apply (recencyOrdered_ext (client.lastTouch ops))].
    intros b Hb. rewrite (Hsame b Hb), lastTouch_snoc, Ha.
    pose proof (lastTouch_le ops b). lia.
  - intros x Hx. apply elem_of_cons in Hx as [->|Hx].
    + rewrite lastTouch_snoc, Ha. lia.
    + rewrite (Hsame x Hx). by apply Hpos.
Qed.

(** An operation that touches no address of the list. *)
Lemma registryInv_keep C ops o l (E : gmap string (client.clientMapEntry (K:=K))) :
  (∀ x, x ∈ l → client.touches o x = false) →
  recencyOrdered (client.lastTouch ops) l →
  (∀ x, x ∈ l → (0 < client.lastTouch ops x)%nat) →
  (∀ x, x ∈ l ↔ is_Some (E !! x)) →
  (∀ x e, E !! x = Some e → client.el e = x) →
  (size E ≤ C)%nat →
  registryInv C (ops ++ [o]) {| client.cap := C; client.order := l; client.entries := E |}.
Proof.
  intros Hnone Hord Hpos Hdom Hel Hsize.
  assert (Hsame : ∀ x, x ∈ l → client.lastTouch (ops ++ [o]) x = client.lastTouch ops x).
  { intros x Hx. rewrite lastTouch_snoc, Hnone; done. }
  split; cbn [client.cap client.order client.entries]; try done.
  - by apply (recencyOrdered_ext (client.lastTouch ops)).
  - intros x Hx. rewrite (Hsame x Hx). by apply Hpos.
Qed.

Lemma elem_of_listRemove a x l : x ∈ client.listRemove a l ↔ x ≠ a ∧ x ∈ l.
Proof. unfold client.listRemove. rewrite list_elem_of_filter. reflexivity. Qed.

Lemma touches_Get a x : client.touches (K:=K) (client.Get a) x = bool_decide (x = a).
Proof. reflexivity. Qed.
Lemma touches_Put a h x : client.touches (K:=K) (client.Put a h) x = bool_decide (x = a).
Proof. reflexivity. Qed.

(** Every operation preserves the invariant. *)
Lemma registryInv_step C ops m o :
  registryInv C ops m → registryInv C (ops ++ [o]) (client.step m o).
Proof.
  intros Hinv. pose proof Hinv as [Hcap Hord Hdom Hel Hsize Hpos].
  destruct m as [c l E]. cbn [client.cap client.order client.entries] in *. subst c.
  destruct o as [a|a h|a]; cbn [client.step].
  - (* get *)
    unfold client.get. cbn [client.cap client.order client.entries].
    destruct (E !! a) as [e|] eqn:Hlook; cbn [fst].
    + rewrite (Hel a e Hlook). unfold client.moveToFront.
      apply registryInv_front; try done.
      * apply bool_decide_eq_true_2. done.
      * intros x Hx. by apply bool_decide_eq_false_2.
      * by apply recencyOrdered_filter.
      * rewrite elem_of_listRemove. tauto.
      * intros x Hx. apply elem_of_listRemove in Hx as [_ Hx]. by apply Hpos.
      * intros x. rewrite elem_of_cons, elem_of_listRemove, <- Hdom.
        assert (a ∈ l) by (apply Hdom; eauto).
        destruct (decide (x = a)) as [->|]; tauto.
    + apply registryInv_keep; try done.
      intros x Hx. apply bool_decide_eq_false_2. intros ->.
      apply Hdom in Hx as [? ?]. congruence.
  - (* put *)
    unfold client.put. cbn [client.cap client.order client.entries].
    destruct (E !! a) as [e|] eqn:Hlook; cbn [fst].
    + rewrite (Hel a e Hlook). unfold client.moveToFront.
      assert (a ∈ l) by (apply Hdom; eauto).
      apply registryInv_front; try done.
      * apply bool_decide_eq_true_2. done.
      * intros x Hx. by apply bool_decide_eq_false_2.
      * by apply recencyOrdered_filter.
      * rewrite elem_of_listRemove. tauto.
      * intros x Hx. apply elem_of_listRemove in Hx as [_ Hx]. by apply Hpos.
      * intros x. rewrite elem_of_cons, elem_of_listRemove, lookup_insert_is_Some, <- Hdom.
        destruct (decide (x = a)) as [->|]; intuition congruence.
      * intros x e' Hx. apply lookup_insert_Some in Hx as [[<- <-]|[? Hx]]; [done|].
        by apply Hel.
      * by rewrite map_size_insert_Some.
    + assert (Hnin : a ∉ l) by (intros Hin; apply Hdom in Hin as [? ?]; congruence).
      destruct (decide (size E = C)) as [Hfull|Hroom].
      * destruct (last l) as [v|] eqn:Hlast; cbn [fst].
        -- assert (Hv : v ∈ l) by (by apply last_Some_elem_of).
           pose proof Hv as [ev Hev]%Hdom.
           apply registryInv_front; try done.
           ++ apply bool_decide_eq_true_2. done.
           ++ intros x Hx. by apply bool_decide_eq_false_2.
           ++ by apply recencyOrdered_filter.
           ++ rewrite elem_of_listRemove. tauto.
           ++ intros x Hx. apply elem_of_listRemove in Hx as [_ Hx]. by apply Hpos.
           ++ intros x. rewrite elem_of_cons, elem_of_listRemove, lookup_insert_is_Some.
              rewrite lookup_delete_is_Some, <- Hdom.
              destruct (decide (x = a)) as [->|]; intuition congruence.
           ++ intros x e' Hx. apply lookup_insert_Some in Hx as [[<- <-]|[? Hx]]; [done|].
              apply lookup_delete_Some in Hx as [_ Hx]. by apply Hel.
           ++ rewrite map_size_insert_None by (rewrite lookup_delete_ne; [done|]; intros ->; done).
              rewrite map_size_delete_Some by eauto.
              assert (size E ≠ 0%nat) by (apply map_size_ne_0_lookup; eauto). lia.
        -- apply registryInv_keep; try done.
           intros x Hx. apply bool_decide_eq_false_2. intros ->. done.
      * cbn [fst]. apply registryInv_front; try done.
        -- apply bool_decide_eq_true_2. done.
        -- intros x Hx. by apply bool_decide_eq_false_2.
        -- intros x. rewrite elem_of_cons, lookup_insert_is_Some, <- Hdom.
           destruct (decide (x = a)) as [->|]; intuition congruence.
        -- intros x e' Hx. apply lookup_insert_Some in Hx as [[<- <-]|[? Hx]]; [done|].
           by apply Hel.
        -- rewrite map_size_insert_None by done. lia.
  - (* remove *)
    unfold client.remove. cbn [client.cap client.order client.entries].
    destruct (E !! a) as [e|] eqn:Hlook.
    + rewrite (Hel a e Hlook). apply registryInv_keep; try done.
      * by apply recencyOrdered_filter.
      * intros x Hx. apply elem_of_listRemove in Hx as [_ Hx]. by apply Hpos.
      * intros x. rewrite elem_of_listRemove, lookup_delete_is_Some, <- Hdom. intuition congruence.
      * intros x e' Hx. apply lookup_delete_Some in Hx as [_ Hx]. by apply Hel.
      * rewrite map_size_delete_Some by eauto. lia.
    + apply registryInv_keep; done.
Qed.

Lemma registryInv_new C : registryInv (K:=K) C [] (client.newClientMap C).
Proof.
  split; cbn [client.newClientMap client.cap client.order client.entries].
  - reflexivity.
  - exact I.
  - intros a. rewrite lookup_empty. split; [intros []%elem_of_nil | intros [? [=]]].
  - intros a e. rewrite lookup_empty. discriminate.
  - rewrite map_size_empty. lia.
  - intros a Ha. by apply elem_of_nil in Ha.
Qed.

(** The invariant holds after every history. *)
Lemma registryInv_exec C ops :
  registryInv C ops (client.exec ops (client.newClientMap C)).
Proof.
  induction ops as [|o ops IH] using rev_ind; [apply registryInv_new|].
  unfold client.exec in *. rewrite foldl_snoc. by apply registryInv_step.
Qed.

(** C5.  A registry created with capacity [C] never holds more than [C]
    entries, whatever operations are applied to it.  When a [put]
    reports an eviction, the registry was full, the evicted address had
    an entry, and every other address in the registry was touched by a
    [get] or a [put] later than the evicted one.  An entry leaves the
    map in a [put] only in this way: an address that is stored before a
    [put] and not after it is the one the [put] reports as evicted, the
    registry was full, the address put was new, and every other stored
    address was touched later.  A [put] stores no entry but the one put
    and changes no other; and a [put] of a new address into a full
    registry of positive capacity does evict, stores the new handle and
    leaves the registry full. *)
Theorem registry_bounded_and_evicts_least_recent C ops :
  let m := client.exec ops (client.newClientMap C) in
  (client.len m ≤ C)%nat
  ∧ (∀ a h m' v closed,
      client.put a h m = (m', client.Evicted v closed) →
      client.len m = C
      ∧ closed = client.entries m !! v ∧ is_Some closed
      ∧ client.entries m' !! v = None
      ∧ (0 < client.lastTouch ops v)%nat
      ∧ ∀ b, is_Some (client.entries m !! b) → b ≠ v →
             (client.lastTouch ops v < client.lastTouch ops b)%nat)
  ∧ (∀ a h v,
      is_Some (client.entries m !! v) →
      client.entries (client.put a h m).1 !! v = None →
      client.len m = C
      ∧ client.entries m !! a = None
      ∧ (client.put a h m).2 = client.Evicted v (client.entries m !! v)
      ∧ (0 < client.lastTouch ops v)%nat
      ∧ ∀ b, is_Some (client.entries m !! b) → b ≠ v →
             (client.lastTouch ops v < client.lastTouch ops b)%nat)
  ∧ (∀ a h b e,
      b ≠ a → client.entries (client.put a h m).1 !! b = Some e →
      client.entries m !! b = Some e)
  ∧ (∀ a h,
      client.len m = C → client.entries m !! a = None → (0 < C)%nat →
      ∃ v, is_Some (client.entries m !! v)
         ∧ client.entries (client.put a h m).1 !! v = None
         ∧ client.client <$> client.entries (client.put a h m).1 !! a = Some h
         ∧ client.len (client.put a h m).1 = C).
Proof.
  intros m. pose proof (registryInv_exec C ops) as Hinv. fold m in Hinv.
  pose proof Hinv as [Hcap Hord Hdom Hel Hsize Hpos].
  assert (Hlru : ∀ lru, last (client.order m) = Some lru →
    is_Some (client.entries m !! lru)
    ∧ (0 < client.lastTouch ops lru)%nat
    ∧ ∀ b, is_Some (client.entries m !! b) → b ≠ lru →
           (client.lastTouch ops lru < client.lastTouch ops b)%nat).
  { intros lru Hlast.
    assert (Hin : lru ∈ client.order m) by (by apply last_Some_elem_of).
    split; [by apply Hdom|]. split; [by apply Hpos|].
    intros b Hb Hne. apply (recencyOrdered_last _ (client.order m)); try done.
    by apply Hdom. }
  split; [exact Hsize|]. split; [|split; [|split]].
  - intros a h m' v closed. unfold client.put.
    destruct (client.entries m !! a) eqn:Hlook; [intros [=]|].
    destruct (decide _) as [Hfull|]; [|intros [=]].
    destruct (last (client.order m)) as [lru|] eqn:Hlast; [|intros [=]].
    intros [= <- <- <-]. cbn [client.entries].
    destruct (Hlru lru eq_refl) as (Hsome & Htouched & Holdest).
    split; [unfold client.len; congruence|].
    split; [reflexivity|]. split; [exact Hsome|].
    split.
    { rewrite lookup_insert_ne, lookup_delete_eq; [done|].
      intros ->. destruct Hsome as [? ?]. congruence. }
    split; [exact Htouched|exact Holdest].
  - intros a h v Hv. unfold client.put.
    destruct (client.entries m !! a) as [e|] eqn:Hlook.
    { cbn [fst client.entries]. intros Hgone.
      destruct (decide (v = a)) as [->|Hne].
      - rewrite lookup_insert_eq in Hgone. discriminate.
      - rewrite lookup_insert_ne in Hgone by done. rewrite Hgone in Hv. by destruct Hv. }
    destruct (decide _) as [Hfull|Hroom].
    2:{ cbn [fst client.entries]. intros Hgone.
        destruct (decide (v = a)) as [->|Hne].
        - rewrite lookup_insert_eq in Hgone. discriminate.
        - rewrite lookup_insert_ne in Hgone by done. rewrite Hgone in Hv. by destruct Hv. }
    destruct (last (client.order m)) as [lru|] eqn:Hlast.
    2:{ cbn [fst]. intros Hgone. rewrite Hgone in Hv. by destruct Hv. }
    cbn [fst snd client.entries]. intros Hgone.
    assert (v ≠ a) as Hne by (intros ->; rewrite Hlook in Hv; by destruct Hv).
    rewrite lookup_insert_ne in Hgone by done.
    assert (v = lru) as ->.
    { destruct (decide (v = lru)) as [|Hne']; [done|].
      rewrite lookup_delete_ne in Hgone by done. rewrite Hgone in Hv. by destruct Hv. }
    destruct (Hlru lru eq_refl) as (Hsome & Htouched & Holdest).
    split; [unfold client.len; congruence|]. split; [reflexivity|].
    split; [reflexivity|]. split; [exact Htouched|exact Holdest].
  - intros a h b e Hne. unfold client.put.
    destruct (client.entries m !! a) as [e'|] eqn:Hlook.
    { cbn [fst client.entries]. rewrite lookup_insert_ne by done. done. }
    destruct (decide _) as [Hfull|Hroom].
    2:{ cbn [fst client.entries]. rewrite lookup_insert_ne by done. done. }
    destruct (last (client.order m)) as [lru|] eqn:Hlast; [|done].
    cbn [fst client.entries]. rewrite lookup_insert_ne by done.
    intros Hb. apply lookup_delete_Some in Hb. tauto.
  - intros a h Hfull Hnew Hpos'. unfold client.put. rewrite Hnew.
    unfold client.len in Hfull. rewrite decide_True by (rewrite Hcap; exact Hfull).
    destruct (last (client.order m)) as [lru|] eqn:Hlast.
    2:{ apply last_None in Hlast. rewrite (registry_size C ops m Hinv), Hlast in Hfull.
        simpl in Hfull. lia. }
    destruct (Hlru lru eq_refl) as (Hsome & _ & _).
    assert (lru ≠ a) as Hne by (intros ->; rewrite Hnew in Hsome; by destruct Hsome).
    exists lru. cbn [fst client.entries]. split; [exact Hsome|]. split.
    { rewrite lookup_insert_ne by done. apply lookup_delete_eq. }
    split; [rewrite lookup_insert_eq; reflexivity|].
    unfold client.len. cbn [client.entries].
    rewrite map_size_insert_None by (rewrite lookup_delete_ne by done; exact Hnew).
    rewrite map_size_delete_Some by exact Hsome. lia.
Qed.
End Registry.

(** The scenario of the spec, on a registry of capacity 2: after
    [put a], [put b], [get a], the insertion of [c] evicts [b] and leaves
    [a] and [c]. *)
Lemma registry_scenario (K : Type) (ha hb hc : client.Client K) :
  let m := client.exec [client.Put "a" ha; client.Put "b" hb; client.Get "a"]
             (client.newClientMap 2) in
  ∃ m', client.put "c" hc m
        = (m', client.Evicted "b" (Some {| client.el := "b"; client.client := hb |}))
      ∧ client.order m' = ["c"; "a"]
      ∧ client.len m' = 2%nat
      ∧ client.client <$> client.entries m' !! "a" = Some ha
      ∧ client.client <$> client.entries m' !! "c" = Some hc
      ∧ client.entries m' !! "b" = None.
Proof. eexists. repeat split; vm_compute; reflexivity. Qed.

(** ** The curve group *)

Section Group.
Context `{edwards25519.Curve} (OnCurve : edwards25519.Point → Prop) `{!CurveLaws OnCurve}.

Local Abbreviation gpoint := (gpoint OnCurve).
Local Abbreviation eqv := (@geq _ OnCurve).

Lemma geq_Bytes (P Q : gpoint) : geq P Q → edwards25519.Bytes (gp P) = edwards25519.Bytes (gp Q).
Proof. intros [Hsame]. exact Hsame. Qed.

Local Notation "P ≈ Q" := (geq P Q) (at level 70).
Local Notation "P ⊕ Q" := (gadd P Q) (at level 50, left associativity).

#[local] Instance geq_equivalence : Equivalence eqv.
Proof.
  split.
  - intros P. constructor. reflexivity.
  - intros P Q [HPQ]. constructor. symmetry. exact HPQ.
  - intros P Q R [HPQ] [HQR]. constructor. congruence.
Qed.

#[local] Instance gadd_proper : Proper (eqv ==> eqv ==> eqv) gadd.
Proof. intros P P' [HP] Q Q' [HQ]. constructor. apply Add_Bytes; try apply gp_on; assumption. Qed.

#[local] Instance gneg_proper : Proper (eqv ==> eqv) gneg.
Proof. intros P P' [HP]. constructor. apply Negate_Bytes; try apply gp_on; assumption. Qed.

Lemma gadd_assoc (P Q R : gpoint) : (P ⊕ Q) ⊕ R ≈ P ⊕ (Q ⊕ R).
Proof. constructor. apply Add_assoc; apply gp_on. Qed.

Lemma gadd_comm (P Q : gpoint) : P ⊕ Q ≈ Q ⊕ P.
Proof. constructor. apply Add_comm; apply gp_on. Qed.

Lemma gadd_zero_l (P : gpoint) : gzero ⊕ P ≈ P.
Proof. constructor. apply Add_identity, gp_on. Qed.

Lemma gadd_zero_r (P : gpoint) : P ⊕ gzero ≈ P.
Proof. rewrite gadd_comm. apply gadd_zero_l. Qed.

Lemma gadd_neg_r (P : gpoint) : P ⊕ gneg P ≈ gzero.
Proof. constructor. apply Add_Negate, gp_on. Qed.

Lemma gadd_neg_l (P : gpoint) : gneg P ⊕ P ≈ gzero.
Proof. rewrite gadd_comm. apply gadd_neg_r. Qed.

(** The inverse is unique. *)
Lemma gneg_unique (P Q : gpoint) : P ⊕ Q ≈ gzero → Q ≈ gneg P.
Proof.
  intros HPQ. rewrite <- (gadd_zero_l Q), <- (gadd_neg_l P), gadd_assoc, HPQ.
  apply gadd_zero_r.
Qed.

Lemma gneg_add (P Q : gpoint) : gneg (P ⊕ Q) ≈ gneg P ⊕ gneg Q.
Proof.
  symmetry. apply gneg_unique.
  rewrite (gadd_comm (gneg P)), gadd_assoc, <- (gadd_assoc Q), gadd_neg_r, gadd_zero_l.
  apply gadd_neg_r.
Qed.

Lemma gneg_zero : gneg gzero ≈ gzero.
Proof. symmetry. apply gneg_unique, gadd_zero_l. Qed.

Lemma gadd_cancel (P Q : gpoint) : gneg P ⊕ (P ⊕ Q) ≈ Q.
Proof. rewrite <- gadd_assoc, gadd_neg_l. apply gadd_zero_l. Qed.

#[local] Instance gmulPos_proper n : Proper (eqv ==> eqv) (gmulPos n).
Proof.
  intros P Q HPQ. induction n as [n IH|n IH|]; cbn [gmulPos].
  - rewrite IH, HPQ. reflexivity.
  - rewrite IH. reflexivity.
  - exact HPQ.
Qed.

Lemma gmulPos_succ (n : positive) (P : gpoint) : gmulPos (Pos.succ n) P ≈ P ⊕ gmulPos n P.
Proof.
  induction n as [n IH|n IH|].
  - change (Pos.succ n~1) with ((Pos.succ n)~0)%positive. cbn [gmulPos].
    rewrite IH. set (Q := gmulPos n P).
    rewrite (gadd_assoc P Q (P ⊕ Q)), (gadd_comm P Q), <- (gadd_assoc Q Q P).
    reflexivity.
  - change (Pos.succ n~0) with (n~1)%positive. cbn [gmulPos]. apply gadd_comm.
  - reflexivity.
Qed.

Lemma gmulPos_add (n m : positive) (P : gpoint) :
  gmulPos (n + m) P ≈ gmulPos n P ⊕ gmulPos m P.
Proof.
  induction n as [|n IH] using Pos.peano_ind.
  - rewrite Pos.add_1_l. apply gmulPos_succ.
  - rewrite Pos.add_succ_l, !gmulPos_succ, IH. symmetry. apply gadd_assoc.
Qed.

Lemma gmulPos_mul (n m : positive) (P : gpoint) :
  gmulPos (n * m) P ≈ gmulPos n (gmulPos m P).
Proof.
  induction n as [|n IH] using Pos.peano_ind.
  - rewrite Pos.mul_1_l. reflexivity.
  - rewrite Pos.mul_succ_l, gmulPos_add, IH, gmulPos_succ. reflexivity.
Qed.

Lemma gmulPos_zero (n : positive) : gmulPos n gzero ≈ gzero.
Proof.
  induction n as [n IH|n IH|]; cbn [gmulPos]; rewrite ?IH, ?gadd_zero_l; reflexivity.
Qed.

Lemma gmulPos_neg (n : positive) (P : gpoint) : gmulPos n (gneg P) ≈ gneg (gmulPos n P).
Proof.
  induction n as [n IH|n IH|]; cbn [gmulPos]; rewrite ?gneg_add, ?IH; reflexivity.
Qed.

#[local] Instance gmul_proper s : Proper (eqv ==> eqv) (gmul s).
Proof. intros P Q HPQ. destruct s; cbn [gmul]; rewrite ?HPQ; reflexivity. Qed.

Lemma gmul_add (a b : Z) (P : gpoint) :
  0 ≤ a → 0 ≤ b → gmul (a + b) P ≈ gmul a P ⊕ gmul b P.
Proof.
  intros Ha Hb. destruct a as [|a|a], b as [|b|b]; try lia; cbn [gmul Z.add].
  - symmetry. apply gadd_zero_l.
  - symmetry. apply gadd_zero_l.
  - symmetry. apply gadd_zero_r.
  - apply gmulPos_add.
Qed.

Lemma gmul_mul (a b : Z) (P : gpoint) :
  0 ≤ a → 0 ≤ b → gmul (a * b) P ≈ gmul a (gmul b P).
Proof.
  intros Ha Hb. destruct a as [|a|a], b as [|b|b]; try lia; cbn [gmul Z.mul].
  - reflexivity.
  - reflexivity.
  - symmetry. apply gmulPos_zero.
  - apply gmulPos_mul.
Qed.

Lemma gmul_neg (a : Z) (P : gpoint) : gmul a (gneg P) ≈ gneg (gmul a P).
Proof.
  destruct a; cbn [gmul]; [symmetry; apply gneg_zero | apply gmulPos_neg
                          | symmetry; apply gneg_zero].
Qed.

(** The interface's scalar multiplication is the group's. *)
Lemma gp_gmulPos (n : positive) (P : gpoint) :
  gp (gmulPos n P) = edwards25519.mulPos n P.
Proof. induction n as [n IH|n IH|]; cbn; rewrite ?IH; reflexivity. Qed.

Lemma gp_gmul (s : Z) (P : gpoint) : gp (gmul s P) = edwards25519.ScalarMult s P.
Proof. destruct s; cbn [gmul edwards25519.ScalarMult]; [reflexivity | apply gp_gmulPos | reflexivity]. Qed.

Lemma gmul_order : gmul edwards25519.l gbase ≈ gzero.
Proof. constructor. rewrite gp_gmul. apply generator_order. Qed.

(** Multiples of the base point depend on the scalar modulo [l] only. *)
Lemma gmul_mod (x : Z) : 0 ≤ x → gmul (x mod edwards25519.l) gbase ≈ gmul x gbase.
Proof.
  intros Hx.
  assert (Hl : 0 < edwards25519.l) by (vm_compute; reflexivity).
  rewrite (Z.div_mod x edwards25519.l) at 2 by lia.
  rewrite gmul_add by (try apply Z.mul_nonneg_nonneg; try apply Z.mod_pos_bound;
                       try apply Z.div_pos; lia).
  rewrite (Z.mul_comm edwards25519.l), gmul_mul by (try apply Z.div_pos; lia).
  rewrite gmul_order.
  assert (Hz : gmul (x / edwards25519.l) gzero ≈ gzero)
    by (destruct (x / edwards25519.l); cbn [gmul]; [reflexivity | apply gmulPos_zero | reflexivity]).
  rewrite Hz, gadd_zero_l. reflexivity.
Qed.

(** The verification equation: with [A] the point [s]B, the point
    [k](-A) + [k s + r mod l]B that [Verify] computes is [r]B. *)
Lemma verification_equation (s k r : Z) (A : edwards25519.Point) :
  0 ≤ s → 0 ≤ k → 0 ≤ r → OnCurve A →
  edwards25519.Bytes A = edwards25519.Bytes (edwards25519.ScalarBaseMult s) →
  edwards25519.Bytes
    (edwards25519.VarTimeDoubleScalarBaseMult k (edwards25519.Negate A)
       (edwards25519.MultiplyAdd k s r))
  = edwards25519.Bytes (edwards25519.ScalarBaseMult r).
Proof.
  intros Hs Hk Hr HA HAs.
  set (gA := GPoint A HA).
  assert (HgA : gA ≈ gmul s gbase) by (constructor; rewrite gp_gmul; exact HAs).
  assert (Hgoal : gmul k (gneg gA) ⊕ gmul (edwards25519.MultiplyAdd k s r) gbase
                  ≈ gmul r gbase).
  { unfold edwards25519.MultiplyAdd.
    rewrite gmul_mod by (apply Z.add_nonneg_nonneg; [apply Z.mul_nonneg_nonneg|]; lia).
    rewrite gmul_add by (try apply Z.mul_nonneg_nonneg; lia).
    rewrite gmul_neg, HgA, <- gmul_mul by lia.
    apply gadd_cancel. }
  apply geq_Bytes in Hgoal. cbn [gp gadd] in Hgoal. rewrite !gp_gmul in Hgoal.
  exact Hgoal.
Qed.
End Group.

(** ** Scalars as bytes *)

Lemma length_le_bytes (n : nat) (v : Z) : length (edwards25519.le_bytes n v) = n.
Proof. revert v; induction n as [|n IH]; intros v; simpl; [|rewrite IH]; reflexivity. Qed.

Lemma le_value_nonneg (b : list byte) : 0 ≤ edwards25519.le_value b.
Proof.
  induction b as [|x b IH]; simpl; [lia|].
  pose proof (Z_of_byte_range x). lia.
Qed.

Lemma le_value_le_bytes (n : nat) (v : Z) :
  0 ≤ v < 2 ^ (8 * Z.of_nat n) →
  edwards25519.le_value (edwards25519.le_bytes n v) = v.
Proof.
  revert v; induction n as [|n IH]; intros v Hv.
  - simpl in *. lia.
  - cbn [edwards25519.le_bytes edwards25519.le_value fold_right].
    change (fold_right _ 0 ?b) with (edwards25519.le_value b).
    rewrite Z_of_byte_of_Z, Z.shiftr_div_pow2 by lia. change (2 ^ 8) with 256.
    rewrite IH.
    + pose proof (Z.div_mod v 256). lia.
    + replace (8 * Z.of_nat (S n)) with (8 + 8 * Z.of_nat n) in Hv by lia.
      rewrite Z.pow_add_r in Hv by lia. change (2 ^ 8) with 256 in Hv.
      split; [apply Z.div_pos; lia|]. apply Z.div_lt_upper_bound; lia.
Qed.

Lemma le_bytes_lookup (n i : nat) (v : Z) :
  (i < n)%nat →
  edwards25519.le_bytes n v !! i = Some (byte_of_Z (Z.shiftr v (8 * Z.of_nat i))).
Proof.
  revert i v; induction n as [|n IH]; intros i v Hi; [lia|].
  destruct i as [|i]; cbn [edwards25519.le_bytes lookup list_lookup].
  - rewrite Z.shiftr_0_r. reflexivity.
  - rewrite IH by lia. rewrite Z.shiftr_shiftr by lia. do 3 f_equal. lia.
Qed.

(** A number below 32 has none of the three high bits of a byte. *)
Lemma land_224_small (x : Z) : 0 ≤ x < 32 → Z.land x 224 = 0.
Proof.
  intros Hx. apply Z.bits_inj'. intros n Hn. rewrite Z.land_spec, Z.bits_0.
  destruct (Z.lt_ge_cases n 5) as [Hlt|Hge].
  - change 224 with (Z.shiftl 7 5). rewrite Z.shiftl_spec_low by lia. apply andb_false_r.
  - rewrite <- (Z.mod_small x (2 ^ 5)) by (change (2 ^ 5) with 32; lia).
    rewrite Z.mod_pow2_bits_high by lia. reflexivity.
Qed.

Lemma l_bounds : 0 < edwards25519.l ∧ edwards25519.l < 2 ^ 253.
Proof. vm_compute. split; reflexivity. Qed.

(** A scalar is read back from its 32 bytes. *)
Lemma SetCanonicalBytes_ScalarBytes (s : Z) :
  0 ≤ s < edwards25519.l →
  edwards25519.SetCanonicalBytes (edwards25519.ScalarBytes s) = Some s.
Proof.
  intros Hs. pose proof l_bounds as [_ Hl].
  unfold edwards25519.SetCanonicalBytes, edwards25519.ScalarBytes.
  assert (Hpow : (2 : Z) ^ 253 < 2 ^ (8 * Z.of_nat 32)) by (vm_compute; reflexivity).
  rewrite le_value_le_bytes by lia.
  destruct (decide _) as [|Hn]; [reflexivity|].
  destruct Hn. rewrite length_le_bytes. split; [reflexivity | lia].
Qed.

(** The top three bits of the last byte of a scalar are clear. *)
Lemma ScalarBytes_high_bits (s : Z) :
  0 ≤ s < edwards25519.l →
  ∃ x, edwards25519.ScalarBytes s !! 31%nat = Some x ∧ Z.land (Z_of_byte x) 224 = 0.
Proof.
  intros Hs. pose proof l_bounds as [_ Hl].
  eexists. split; [apply le_bytes_lookup; lia|].
  rewrite Z_of_byte_of_Z. change (8 * Z.of_nat 31) with 248.
  rewrite Z.shiftr_div_pow2 by lia.
  assert (Hq : 0 ≤ s / 2 ^ 248 < 32).
  { split; [apply Z.div_pos; lia|]. apply Z.div_lt_upper_bound; [lia|].
    change (2 ^ 248 * 32) with (2 ^ 253). lia. }
  rewrite Z.mod_small by lia. apply land_224_small, Hq.
Qed.

(** ** Signing and verifying *)

Section SignVerify.
Context `{edwards25519.Curve} (OnCurve : edwards25519.Point → Prop) `{!CurveLaws OnCurve}.

Lemma onCurve_ScalarBaseMult (s : Z) : OnCurve (edwards25519.ScalarBaseMult s).
Proof.
  unfold edwards25519.ScalarBaseMult.
  change edwards25519.NewGeneratorPoint with (gp (OnCurve:=OnCurve) gbase).
  rewrite <- (gp_gmul OnCurve). apply gp_on.
Qed.

Lemma scalar_range (x : Z) : 0 ≤ x mod edwards25519.l < edwards25519.l.
Proof. apply Z.mod_pos_bound, l_bounds. Qed.

(** A signature made with a consistent private key is 64 bytes long and
    verifies under the public half of the key. *)
Lemma verify_sign (seed data : list byte) :
  length seed = 32%nat →
  let priv := seed ++ edwards25519.Bytes (edwards25519.ScalarBaseMult (ed25519.secretScalar seed)) in
  length (ed25519.sign priv data) = 64%nat
  ∧ ed25519.verify (drop 32 priv) data (ed25519.sign priv data) = true.
Proof.
  intros Hseed priv.
  set (A0 := edwards25519.ScalarBaseMult (ed25519.secretScalar seed)) in *.
  assert (HA0 : OnCurve A0) by apply onCurve_ScalarBaseMult.
  assert (Htake : take 32 priv = seed) by (subst priv; rewrite <- Hseed; apply take_app_length).
  assert (Hdrop : drop 32 priv = edwards25519.Bytes A0)
    by (subst priv; rewrite <- Hseed; apply drop_app_length).
  unfold ed25519.sign, ed25519.SeedSize. rewrite Htake, Hdrop.
  fold (ed25519.secretScalar seed).
  set (s := ed25519.secretScalar seed) in *.
  set (r := edwards25519.SetUniformBytes _).
  set (Rb := edwards25519.Bytes (edwards25519.ScalarBaseMult r)).
  set (k := edwards25519.SetUniformBytes _).
  set (S_ := edwards25519.MultiplyAdd k s r).
  assert (HRb : length Rb = 32%nat) by apply (Bytes_length _ (onCurve_ScalarBaseMult r)).
  assert (HS : 0 ≤ S_ < edwards25519.l) by apply scalar_range.
  assert (Hlen : length (Rb ++ edwards25519.ScalarBytes S_) = 64%nat)
    by (rewrite length_app, HRb; unfold edwards25519.ScalarBytes; rewrite length_le_bytes;
        reflexivity).
  split; [exact Hlen|].
  unfold ed25519.verify, ed25519.SignatureSize.
  destruct (decide _) as [Hne|_]; [destruct Hne; exact Hlen|].
  destruct (ScalarBytes_high_bits S_ HS) as (x & Hx & Hbits).
  rewrite lookup_app_r, HRb by lia. change (63 - 32)%nat with 31%nat.
  rewrite Hx. cbn [default from_option]. unfold Datatypes.id.
  rewrite Hbits. cbn [Z.eqb negb].
  destruct (SetBytes_Bytes A0 HA0) as (A & HA & HAb). rewrite HA.
  assert (Htk : take 32 (Rb ++ edwards25519.ScalarBytes S_) = Rb)
    by (rewrite <- HRb; apply take_app_length).
  assert (Hdr : drop 32 (Rb ++ edwards25519.ScalarBytes S_) = edwards25519.ScalarBytes S_)
    by (rewrite <- HRb; apply drop_app_length).
  rewrite Htk, Hdr.
  rewrite SetCanonicalBytes_ScalarBytes by exact HS.
  fold k. apply bool_decide_eq_true_2. symmetry.
  apply (verification_equation OnCurve).
  - apply scalar_range.
  - apply scalar_range.
  - apply scalar_range.
  - eapply onCurve_SetBytes, HA.
  - exact HAb.
Qed.


(** The keys [GenerateKeys] returns are consistent, and the public key
    returned is the one [Public] derives. *)
Lemma GenerateKeys_consistent (rand : io.Reader) :
  (32 ≤ length rand)%nat →
  ∃ pub priv, keys.GenerateKeys rand = Ok (pub, priv)
    ∧ consistentKey priv ∧ keys.Public priv = Ok pub.
Proof.
  intros Hrand.
  set (seed := take 32 rand).
  assert (Hseed : length seed = 32%nat) by (subst seed; rewrite length_take; lia).
  set (A0 := edwards25519.ScalarBaseMult (ed25519.secretScalar seed)).
  assert (HA0 : length (edwards25519.Bytes A0) = 32%nat)
    by apply (Bytes_length _ (onCurve_ScalarBaseMult _)).
  assert (Hgen : keys.GenerateKeys rand
                 = Ok (to_array 32 (edwards25519.Bytes A0),
                       to_array 64 (seed ++ edwards25519.Bytes A0))).
  { unfold keys.GenerateKeys, ed25519.GenerateKey, io.ReadFull, ed25519.SeedSize.
    destruct (decide _) as [_|Hn]; [|lia]. cbn [mbind result_bind]. fold seed.
    unfold ed25519.NewKeyFromSeed, ed25519.SeedSize.
    destruct (decide _) as [Hn|_]; [contradiction|]. cbn [mbind result_bind]. fold A0.
    rewrite slice_ok by (rewrite !length_app, Hseed, HA0; lia). cbn [mbind result_bind].
    rewrite length_app, Hseed, HA0. change (32 + 32 - 32)%nat with 32%nat.
    rewrite <- Hseed at 2. rewrite drop_app_length.
    unfold ed25519.PublicKeySize.
    rewrite !(firstn_all2 (edwards25519.Bytes A0)) by (rewrite HA0; lia).
    unfold store_front. rewrite HA0.
    change (drop 32 (make 32)) with (@nil byte). rewrite app_nil_r. reflexivity. }
  assert (Hpriv : vec_to_list (to_array 64 (seed ++ edwards25519.Bytes A0))
                  = seed ++ edwards25519.Bytes A0)
    by (apply vec_to_list_to_array_exact; rewrite length_app; lia).
  eexists _, _. split; [exact Hgen|]. split.
  - unfold consistentKey. change ed25519.PrivateKeySize with 64%nat. rewrite Hpriv.
    rewrite <- Hseed at 1. rewrite take_app_length.
    unfold ed25519.NewKeyFromSeed, ed25519.SeedSize.
    destruct (decide _) as [Hn|_]; [contradiction | reflexivity].
  - destruct (Public_bytes (to_array 64 (seed ++ edwards25519.Bytes A0))) as (pub & Hp & Hb).
    rewrite Hp. f_equal. apply vec_to_list_inj2.
    change ed25519.PrivateKeySize with 64%nat in Hb. rewrite Hb, Hpriv.
    rewrite <- Hseed at 1. rewrite drop_app_length.
    symmetry. apply vec_to_list_to_array_exact, HA0.
Qed.
End SignVerify.

(** ** The laws hold of the residues *)

Lemma le_bytes_inj (a b : Z) :
  isResidue a → isResidue b →
  edwards25519.le_bytes 32 a = edwards25519.le_bytes 32 b → a = b.
Proof.
  unfold isResidue. intros Ha Hb Heq. pose proof l_bounds as [_ Hl].
  assert (Hpow : (2 : Z) ^ 253 < 2 ^ (8 * Z.of_nat 32)) by (vm_compute; reflexivity).
  rewrite <- (le_value_le_bytes 32 a), <- (le_value_le_bytes 32 b), Heq by lia.
  reflexivity.
Qed.

#[global] Instance residues_Laws : CurveLaws (H:=residues) isResidue.
Proof.
  pose proof l_bounds as [Hl0 Hl].
  split; unfold isResidue; cbn [edwards25519.Point edwards25519.NewIdentityPoint
    edwards25519.NewGeneratorPoint edwards25519.Add edwards25519.Negate
    edwards25519.Bytes edwards25519.SetBytes residues].
  - lia.
  - split; [lia|]. vm_compute. reflexivity.
  - intros P Q _ _. apply Z.mod_pos_bound, Hl0.
  - intros P _. apply Z.mod_pos_bound, Hl0.
  - intros b P. unfold edwards25519.SetCanonicalBytes.
    destruct (decide _) as [[_ Hlt]|]; [|discriminate]. intros [= <-].
    split; [apply le_value_nonneg | exact Hlt].
  - intros P P' Q Q' HP HP' HQ HQ' HPP HQQ.
    rewrite (le_bytes_inj P P' HP HP' HPP), (le_bytes_inj Q Q' HQ HQ' HQQ). reflexivity.
  - intros P P' HP HP' HPP. rewrite (le_bytes_inj P P' HP HP' HPP). reflexivity.
  - intros P Q R _ _ _. f_equal.
    rewrite Zplus_mod_idemp_l, Zplus_mod_idemp_r. f_equal. lia.
  - intros P Q _ _. f_equal. f_equal. lia.
  - intros P HP. f_equal. apply Z.mod_small. lia.
  - intros P _. f_equal. rewrite Zplus_mod_idemp_r.
    replace (P + - P) with 0 by lia. reflexivity.
  - intros P _. apply length_le_bytes.
  - intros P HP. exists P. split; [|reflexivity].
    apply SetCanonicalBytes_ScalarBytes, HP.
  - vm_compute. reflexivity.
Qed.


(** ** Ed25519 on the curve of the package *)

(** The model computes the first test vector of RFC 8032: the seed
    yields the public key, the empty message the signature, and the
    signature verifies. *)
Lemma rfc8032_test_vector :
  keys.GenerateKeys (H:=edwards25519.curve25519) rfcSeed
  = Ok (to_array 32 rfcPublic, to_array 64 (rfcSeed ++ rfcPublic))
  ∧ keys.Sign (H:=edwards25519.curve25519) (to_array 64 (rfcSeed ++ rfcPublic)) []
    = Ok (keys.SigEd25519 (to_array 64 rfcSignature))
  ∧ keys.Verify (H:=edwards25519.curve25519) (to_array 32 rfcPublic) []
      (keys.SigEd25519 (to_array 64 rfcSignature))
    = Ok (true, None).
Proof. split; [|split]; vm_compute; reflexivity. Qed.


(** On the curve of the package the base point has order [l]. *)
Lemma curve25519_generator_order :
  edwards25519.Bytes (Curve:=edwards25519.curve25519)
    (edwards25519.ScalarBaseMult edwards25519.l)
  = edwards25519.Bytes (Curve:=edwards25519.curve25519) edwards25519.NewIdentityPoint.
Proof. vm_compute. reflexivity. Qed.

(** The negative cases of the spec, on the test vector: the signature of
    the empty message does not verify for the message [a], and a
    signature of the empty message made with the key pair of the all-zero
    seed does not verify under the test vector's public key.  Both times
    [Verify] returns false and no error. *)
Lemma Verify_rejects_mutated_data_and_foreign_key :
  keys.Verify (H:=edwards25519.curve25519) (to_array 32 rfcPublic) [Byte.x61]
    (keys.SigEd25519 (to_array 64 rfcSignature))
  = Ok (false, None)
  ∧ (match keys.GenerateKeys (H:=edwards25519.curve25519) (replicate 32 Byte.x00) with
     | Ok (_, other) =>
         signature ← keys.Sign (H:=edwards25519.curve25519) other [];
         keys.Verify (H:=edwards25519.curve25519) (to_array 32 rfcPublic) [] signature
     | _ => Panic
     end) = Ok (false, None).
Proof. split; vm_compute; reflexivity. Qed.

(** C7, counterexample.  Under the public key that encodes the neutral
    point, the signature made of that encoding and the scalar zero
    verifies for the data [x]; the data mutated to [y] does not make
    [Verify] return false: it returns true and no error again. *)
Lemma Verify_accepts_mutated_data_under_the_identity_key :
  keys.Verify (H:=edwards25519.curve25519) identityKey [Byte.x78]
    (keys.SigEd25519 identitySignature) = Ok (true, None)
  ∧ keys.Verify (H:=edwards25519.curve25519) identityKey [Byte.x79]
      (keys.SigEd25519 identitySignature) = Ok (true, None).
Proof. split; vm_compute; reflexivity. Qed.

(** * Further properties *)

(** ** Wire messages and their contexts *)

Lemma Z_of_byte_zero (x : byte) : Z_of_byte x = 0 ↔ x = Byte.x00.
Proof.
  split; [|intros ->; reflexivity].
  intros Hx. rewrite <- (byte_of_Z_of_byte x), Hx. reflexivity.
Qed.

Lemma fold_be_nonneg (b : list byte) (acc : Z) :
  0 ≤ acc → 0 ≤ fold_left (λ acc x, 256 * acc + Z_of_byte x) b acc.
Proof.
  revert acc. induction b as [|x b IH]; intros acc Hacc; simpl; [exact Hacc|].
  apply IH. pose proof (Z_of_byte_range x). lia.
Qed.

Lemma fold_be_zero (b : list byte) (acc : Z) :
  0 ≤ acc →
  fold_left (λ acc x, 256 * acc + Z_of_byte x) b acc = 0
  ↔ acc = 0 ∧ b = replicate (length b) Byte.x00.
Proof.
  revert acc. induction b as [|x b IH]; intros acc Hacc; simpl.
  - intuition.
  - pose proof (Z_of_byte_range x) as Hx.
    rewrite IH by lia. split.
    + intros [H0 Hb]. assert (Z_of_byte x = 0) as Hz by lia.
      apply Z_of_byte_zero in Hz. subst x. split; [lia|]. f_equal. exact Hb.
    + intros [-> Hb]. injection Hb as -> Hb. split; [reflexivity|exact Hb].
Qed.

Lemma be_value_nonneg (b : list byte) : 0 ≤ be_value b.
Proof. apply fold_be_nonneg. lia. Qed.

Lemma be_value_zero (b : list byte) :
  be_value b = 0 ↔ b = replicate (length b) Byte.x00.
Proof. unfold be_value. rewrite fold_be_zero by lia. intuition. Qed.

Lemma be_value_bound (b : list byte) : be_value b < 256 ^ Z.of_nat (length b).
Proof.
  unfold be_value.
  assert (∀ acc, 0 ≤ acc →
    fold_left (λ acc x, 256 * acc + Z_of_byte x) b acc
    < (acc + 1) * 256 ^ Z.of_nat (length b)) as Hgen.
  { induction b as [|x b IH]; intros acc Hacc; simpl length.
    - simpl. lia.
    - simpl fold_left. pose proof (Z_of_byte_range x) as Hx.
      rewrite Nat2Z.inj_succ, Z.pow_succ_r by lia.
      eapply Z.lt_le_trans; [apply IH; lia|].
      assert (0 < 256 ^ Z.of_nat (length b)) by (apply Z.pow_pos_nonneg; lia).
      nia. }
  specialize (Hgen 0). lia.
Qed.

(** Byte strings of one length that denote one number are the same. *)
Lemma be_value_inj (c d : list byte) :
  length c = length d → be_value c = be_value d → c = d.
Proof.
  unfold be_value.
  assert (∀ (c d : list byte) (x y : Z), length c = length d → 0 ≤ x → 0 ≤ y →
    fold_left (λ acc x, 256 * acc + Z_of_byte x) c x
    = fold_left (λ acc x, 256 * acc + Z_of_byte x) d y → x = y ∧ c = d) as Hgen.
  { clear c d. induction c as [|a c IH]; intros [|e d] x y Hl Hx Hy Heq; simpl in *; try lia.
    - auto.
    - pose proof (Z_of_byte_range a). pose proof (Z_of_byte_range e).
      apply IH in Heq as [Hxy ->]; [|lia..].
      assert (x = y) by lia. assert (Z_of_byte a = Z_of_byte e) as Hae by lia.
      split; [assumption|]. f_equal.
      rewrite <- (byte_of_Z_of_byte a), Hae. apply byte_of_Z_of_byte. }
  intros Hl Heq. apply (Hgen c d 0 0) in Heq; [tauto|lia..].
Qed.

(** The eight bytes of a frame's header are the encoding of the number
    they denote, and so are the two bytes of a port. *)
Lemma be64_be_value (b : list byte) : length b = 8%nat → be64 (be_value b) = b.
Proof.
  intros Hlen. apply be_value_inj; [rewrite length_be64; congruence|].
  rewrite be_value_be64. apply Z.mod_small.
  pose proof (be_value_nonneg b). pose proof (be_value_bound b) as Hb.
  rewrite Hlen in Hb. change (256 ^ Z.of_nat 8) with (2 ^ 64) in Hb. lia.
Qed.

Lemma be16_be_value (b : list byte) : length b = 2%nat → be16 (be_value b) = b.
Proof.
  intros Hlen. apply be_value_inj; [rewrite Hlen; reflexivity|].
  rewrite be_value_be16. apply Z.mod_small.
  pose proof (be_value_nonneg b). pose proof (be_value_bound b) as Hb.
  rewrite Hlen in Hb. change (256 ^ Z.of_nat 2) with (2 ^ 16) in Hb. lia.
Qed.


(** X2.  The nonce survives the wire, whatever buffer the message is
    encoded into: decoding the result of [Marshal] returns the [uint64]
    nonce of the message, hence its being a request or not.  The payload
    that comes back is the eight header bytes. *)
Theorem Unmarshal_Marshal_keeps_nonce {K : Type} (m : message.Message) (dst : list byte)
    (c : client.Client K) (send : bool) :
  0 ≤ message.Nonce m < 2 ^ 64 →
  ∃ frame m', message.Marshal m dst = Ok frame
    ∧ message.Unmarshal frame = Ok m'
    ∧ message.Nonce m' = message.Nonce m
    ∧ message.Data m' = be64 (message.Nonce m)
    ∧ HandleContext.IsRequest
        {| HandleContext.Client := c; HandleContext.Msg := m'; HandleContext.Send := send |}
      = HandleContext.IsRequest
        {| HandleContext.Client := c; HandleContext.Msg := m; HandleContext.Send := send |}.
Proof.
  intros Hn. eexists _, _. split; [apply Marshal_bytes|].
  assert (∀ rest, take 8 (be64 (message.Nonce m) ++ rest) = be64 (message.Nonce m)) as Ht.
  { intros rest. rewrite take_app_length'; [reflexivity|rewrite length_be64; reflexivity]. }
  split.
  { apply Unmarshal_long. rewrite length_app, length_be64. lia. }
  rewrite Ht, be_value_be64, Z.mod_small by exact Hn.
  unfold HandleContext.IsRequest. simpl. auto.
Qed.

Lemma Unmarshal_Marshal_keeps_nonce_witness :
  ∃ frame m',
    message.Marshal {| message.Nonce := 7; message.Data := [Byte.xaa] |} [Byte.xff] = Ok frame
    ∧ message.Unmarshal frame = Ok m'
    ∧ message.Nonce m' = 7
    ∧ message.Data m' = be64 7
    ∧ HandleContext.IsRequest
        {| HandleContext.Client := {| client.Node := 1%positive; client.Id := peer4;
                                      client.Log := 1%positive |};
           HandleContext.Msg := m'; HandleContext.Send := false |}
      = HandleContext.IsRequest
        {| HandleContext.Client := {| client.Node := 1%positive; client.Id := peer4;
                                      client.Log := 1%positive |};
           HandleContext.Msg := {| message.Nonce := 7; message.Data := [Byte.xaa] |};
           HandleContext.Send := false |}.
Proof.
  apply (Unmarshal_Marshal_keeps_nonce {| message.Nonce := 7; message.Data := [Byte.xaa] |}
           [Byte.xff]).
  simpl. lia.
Defined.

(** X3.  [Unmarshal] reads nothing past the eighth byte: a frame of at
    least eight bytes decodes like its first eight alone, the nonce is a
    [uint64], and the payload returned is always the eight-byte encoding
    of the nonce returned. *)
Theorem Unmarshal_reads_header_only (data : list byte) :
  (8 ≤ length data)%nat →
  ∃ m, message.Unmarshal data = Ok m
    ∧ message.Unmarshal (take 8 data) = Ok m
    ∧ 0 ≤ message.Nonce m < 2 ^ 64
    ∧ message.Data m = be64 (message.Nonce m)
    ∧ message.Data m = take 8 data.
Proof.
  intros Hlen. eexists. split; [apply Unmarshal_long, Hlen|].
  assert (length (take 8 data) = 8%nat) as H8 by (rewrite length_take; lia).
  split; [|split; [|split]]; simpl.
  - rewrite Unmarshal_long by lia. rewrite take_take. reflexivity.
  - pose proof (be_value_nonneg (take 8 data)).
    pose proof (be_value_bound (take 8 data)) as Hb. rewrite H8 in Hb.
    change (256 ^ Z.of_nat 8) with (2 ^ 64) in Hb. lia.
  - symmetry. apply be64_be_value, H8.
  - reflexivity.
Qed.

Lemma Unmarshal_reads_header_only_witness :
  ∃ m, message.Unmarshal (be64 3 ++ [Byte.xaa; Byte.xbb]) = Ok m
    ∧ message.Unmarshal (take 8 (be64 3 ++ [Byte.xaa; Byte.xbb])) = Ok m
    ∧ 0 ≤ message.Nonce m < 2 ^ 64
    ∧ message.Data m = be64 (message.Nonce m)
    ∧ message.Data m = take 8 (be64 3 ++ [Byte.xaa; Byte.xbb]).
Proof. apply Unmarshal_reads_header_only. simpl. lia. Defined.

(** X4.  The context of a decoded frame is a request unless the eight
    header bytes are all zero; what [Data] hands to the handler is the
    header, and [ID] and [Logger] are those of the client. *)
Theorem IsRequest_of_decoded_frame {K : Type} (data : list byte)
    (c : client.Client K) (send : bool) :
  (8 ≤ length data)%nat →
  ∃ m, message.Unmarshal data = Ok m
    ∧ let ctx := {| HandleContext.Client := c; HandleContext.Msg := m;
                    HandleContext.Send := send |} in
      (HandleContext.IsRequest ctx = false ↔ take 8 data = replicate 8 Byte.x00)
      ∧ HandleContext.Data ctx = take 8 data
      ∧ HandleContext.ID ctx = client.Id c
      ∧ HandleContext.Logger ctx = client.Log c.
Proof.
  intros Hlen. eexists. split; [apply Unmarshal_long, Hlen|].
  unfold HandleContext.IsRequest, HandleContext.Data, HandleContext.ID, HandleContext.Logger.
  simpl. split; [|repeat split; reflexivity].
  assert (length (take 8 data) = 8%nat) as H8 by (rewrite length_take; lia).
  pose proof (be_value_nonneg (take 8 data)) as Hnn.
  pose proof (be_value_zero (take 8 data)) as Hz. rewrite H8 in Hz.
  rewrite bool_decide_eq_false. rewrite <- Hz. lia.
Qed.

Lemma IsRequest_of_decoded_frame_witness :
  ∃ m, message.Unmarshal (replicate 8 Byte.x00 ++ [Byte.xaa]) = Ok m
    ∧ let ctx := {| HandleContext.Client := {| client.Node := 1%positive; client.Id := peer4;
                                               client.Log := 2%positive |};
                    HandleContext.Msg := m; HandleContext.Send := true |} in
      (HandleContext.IsRequest ctx = false
       ↔ take 8 (replicate 8 Byte.x00 ++ [Byte.xaa]) = replicate 8 Byte.x00)
      ∧ HandleContext.Data ctx = take 8 (replicate 8 Byte.x00 ++ [Byte.xaa])
      ∧ HandleContext.ID ctx = peer4
      ∧ HandleContext.Logger ctx = 2%positive.
Proof.
  apply (IsRequest_of_decoded_frame (replicate 8 Byte.x00 ++ [Byte.xaa])
           {| client.Node := 1%positive; client.Id := peer4; client.Log := 2%positive |} true).
  simpl. lia.
Defined.

(** ** Text of numbers and addresses *)

Lemma allChars_app (P : ascii → bool) (a b : string) :
  allChars P (a +:+ b) = allChars P a && allChars P b.
Proof.
  induction a as [|c a IH]; [reflexivity|].
  change (String c a +:+ b) with (String c (a +:+ b)). simpl.
  rewrite IH. apply andb_assoc.
Qed.

Lemma allChars_mono (P Q : ascii → bool) (s : string) :
  (∀ c, P c = true → Q c = true) → allChars P s = true → allChars Q s = true.
Proof.
  intros HPQ. induction s as [|c s IH]; [reflexivity|]. simpl.
  rewrite !andb_true_iff. intros [Hc Hs]. auto.
Qed.

Lemma length_append (a b : string) :
  String.length (a +:+ b) = (String.length a + String.length b)%nat.
Proof.
  induction a as [|c a IH]; [reflexivity|].
  change (String c a +:+ b) with (String c (a +:+ b)). simpl. rewrite IH. reflexivity.
Qed.

Lemma FormatUint_decimal (v : Z) : allChars isDecimalChar (strconv.FormatUint v) = true.
Proof.
  unfold strconv.FormatUint. generalize (N.to_uint (Z.to_N v)). intros d.
  assert (allChars isDecimalChar (DecimalString.NilEmpty.string_of_uint d) = true) as Hd.
  { induction d; simpl; try exact IHd; reflexivity. }
  destruct d; [reflexivity|exact Hd..].
Qed.

Lemma appendHex_hex (v : Z) : allChars isLowerHexChar (net.appendHex v) = true.
Proof.
  unfold net.appendHex. generalize (N.to_hex_uint (Z.to_N v)). intros d.
  assert (allChars isLowerHexChar (HexadecimalString.NilEmpty.string_of_uint d) = true) as Hd.
  { induction d; simpl; try exact IHd; reflexivity. }
  destruct d; [reflexivity|exact Hd..].
Qed.

Lemma EncodeToString_hex (b : list byte) :
  allChars isLowerHexChar (hex.EncodeToString b) = true.
Proof.
  induction b as [|x b IH]; [reflexivity|].
  cbn [hex.EncodeToString allChars]. rewrite IH.
  destruct x; vm_compute; reflexivity.
Qed.

Lemma length_EncodeToString (b : list byte) :
  String.length (hex.EncodeToString b) = (2 * length b)%nat.
Proof. induction b as [|x b IH]; simpl; [reflexivity|]. rewrite IH. lia. Qed.

Lemma hasColon_app (a b : string) :
  net.hasColon (a +:+ b) = net.hasColon a || net.hasColon b.
Proof.
  induction a as [|c a IH]; [reflexivity|].
  change (String c a +:+ b) with (String c (a +:+ b)). simpl.
  rewrite IH. apply orb_assoc.
Qed.

Lemma hasColon_allChars (P : ascii → bool) (s : string) :
  P ":"%char = false → allChars P s = true → net.hasColon s = false.
Proof.
  intros HP. induction s as [|c s IH]; [reflexivity|]. simpl.
  rewrite andb_true_iff. intros [Hc Hs]. rewrite (IH Hs), orb_false_r.
  apply bool_decide_eq_false. intros ->. congruence.
Qed.

Lemma hasColon_FormatUint (v : Z) : net.hasColon (strconv.FormatUint v) = false.
Proof. apply (hasColon_allChars isDecimalChar); [reflexivity|apply FormatUint_decimal]. Qed.

Lemma hasColon_string4 (l : list byte) : net.hasColon (net.string4 l) = false.
Proof.
  destruct l as [|a [|b [|c [|d [|? ?]]]]]; try reflexivity.
  unfold net.string4. rewrite !hasColon_app, !hasColon_FormatUint. reflexivity.
Qed.

Lemma hasColon_string6 (l : list byte) : net.hasColon (net.string6 l) = true.
Proof.
  unfold net.string6. destruct (net.longestZeroRun _ _ _) as [zs ze].
  generalize (net.groups l). intros g.
  cbn [net.string6From]. rewrite bool_decide_false by lia.
  destruct (bool_decide (0%nat = zs)); [reflexivity|].
  rewrite !hasColon_app. rewrite bool_decide_false by lia.
  rewrite (bool_decide_false (8 ≤ 1)%nat) by lia.
  destruct (bool_decide (1%nat = zs)).
  - rewrite hasColon_app. simpl. rewrite !orb_true_r. reflexivity.
  - rewrite bool_decide_true by lia. rewrite !hasColon_app. simpl.
    rewrite !orb_true_r. reflexivity.
Qed.

Lemma To4_length (ip : net.IP) (l : list byte) :
  net.To4 ip = Some l → length l = 4%nat.
Proof.
  destruct ip as [m|]; [|discriminate]. unfold net.To4, net.IPv4len, net.IPv6len.
  destruct (decide _) as [H4|_]; [congruence|].
  destruct (bool_decide (length m = 16%nat)) eqn:H16; simpl; [|discriminate].
  apply bool_decide_eq_true in H16.
  destruct (_ && _ && _); [|discriminate].
  intros [= <-]. rewrite length_take, length_drop. lia.
Qed.

(** The text of an address has a colon exactly when the address is a
    proper IPv6 address. *)
Lemma hasColon_String (ip : net.IP) :
  net.hasColon (net.String ip) = bool_decide (properIPv6 ip).
Proof.
  unfold net.String, properIPv6.
  destruct (decide (net.len ip = 0%nat)) as [H0|H0].
  { rewrite bool_decide_false; [reflexivity|]. unfold net.IPv6len. lia. }
  destruct (decide (net.len ip ≠ net.IPv4len ∧ net.len ip ≠ net.IPv6len)) as [Hbad|Hok].
  { rewrite bool_decide_false by tauto. rewrite hasColon_app.
    unfold net.hexString.
    rewrite (hasColon_allChars isLowerHexChar (hex.EncodeToString _));
      [reflexivity|reflexivity|apply EncodeToString_hex]. }
  destruct (net.To4 ip) as [l|] eqn:H4.
  - pose proof (To4_length _ _ H4) as Hl. unfold net.len at 1. cbn [net.bytes].
    rewrite decide_True by exact Hl. rewrite hasColon_string4.
    rewrite bool_decide_false; [reflexivity|]. intros [_ ?]. discriminate.
  - unfold net.len at 1. cbn [net.bytes length]. destruct (decide (0%nat = net.IPv4len)) as [Hx|_]; [discriminate Hx|].
    rewrite hasColon_string6. symmetry. apply bool_decide_eq_true. split; [|reflexivity].
    destruct ip as [m|]; [|destruct H0; reflexivity].
    unfold net.To4 in H4. destruct (decide (length m = net.IPv4len)) as [|Hn4]; [discriminate|].
    unfold net.len in *. cbn [net.bytes] in *. apply dec_stable. intros Hn.
    apply Hok. split; assumption.
Qed.

Lemma String_nonempty (ip : net.IP) : net.String ip ≠ "".
Proof.
  pose proof (hasColon_String ip) as Hc. unfold net.String in *.
  destruct (decide (net.len ip = 0%nat)); [discriminate|].
  destruct (decide (_ ∧ _)); [discriminate|].
  destruct (decide (net.len (net.To4 ip) = net.IPv4len)) as [H4|H4].
  - unfold net.len in H4. destruct (net.bytes (net.To4 ip)) as [|a [|b [|c [|d [|? ?]]]]];
      try discriminate H4.
    intros Hs. apply (f_equal String.length) in Hs. unfold net.string4 in Hs.
    rewrite !length_append in Hs. simpl in Hs. lia.
  - intros Hs. rewrite Hs in Hc. simpl in Hc. symmetry in Hc.
    apply bool_decide_eq_false in Hc.
    pose proof (hasColon_string6 (net.bytes ip)) as H6. rewrite Hs in H6. discriminate.
Qed.

(** Joining the text of an address and a port brackets a proper IPv6
    address and no other. *)
Lemma JoinHostPort_String (ip : net.IP) (port : string) :
  net.JoinHostPort (net.String ip) port
  = (if decide (properIPv6 ip) then "[" +:+ net.String ip +:+ "]" else net.String ip)
    +:+ ":" +:+ port.
Proof.
  unfold net.JoinHostPort. rewrite hasColon_String.
  destruct (decide (properIPv6 ip)) as [H6|H6].
  - rewrite bool_decide_true by exact H6. rewrite !append_assoc. reflexivity.
  - rewrite bool_decide_false by exact H6. reflexivity.
Qed.

(** ** Normalized hosts and addresses *)

(** X5.  [NormalizeIP] returns the empty string exactly for a host that
    is nil, loopback or unspecified; for every other host it returns the
    host's text, which is never empty. *)
Theorem NormalizeIP_empty_iff (ip : net.IP) :
  (utils.NormalizeIP ip = ""
   ↔ ip = None ∨ net.IsLoopback ip = true ∨ net.IsUnspecified ip = true)
  ∧ (utils.NormalizeIP ip ≠ "" → utils.NormalizeIP ip = net.String ip).
Proof.
  unfold utils.NormalizeIP. rewrite <- ResolveIP_None.
  destruct (decide (utils.ResolveIP ip = None)) as [Hn|Hn].
  - split; [split; [intros _; exact Hn|reflexivity]|]. intros []. reflexivity.
  - assert (utils.ResolveIP ip = ip) as ->.
    { unfold utils.ResolveIP in *. destruct (_ || _ || _); [congruence|reflexivity]. }
    split; [|reflexivity]. split; [|intros ->; destruct Hn; reflexivity].
    intros Hs. destruct (String_nonempty _ Hs).
Qed.

Lemma ResolveIP_keeps (ip : net.IP) :
  utils.ResolveIP ip ≠ None → utils.ResolveIP ip = ip.
Proof. unfold utils.ResolveIP. destruct (_ || _ || _); [congruence|reflexivity]. Qed.

Lemma IsLoopback_IPv4 (a b c d : byte) :
  net.IsLoopback (net.IPv4 a b c d) = net.IsLoopback (Some [a; b; c; d]).
Proof. reflexivity. Qed.

Lemma IsUnspecified_IPv4 (a b c d : byte) :
  net.IsUnspecified (net.IPv4 a b c d) = net.IsUnspecified (Some [a; b; c; d]).
Proof.
  unfold net.IsUnspecified, net.Equal, net.IPv4zero, net.IPv6unspecified, net.IPv4.
  cbn [net.bytes]. simpl length. unfold net.IPv4len, net.IPv6len.
  rewrite !decide_True by reflexivity.
  rewrite (decide_False (P:=4%nat = 16%nat)) by lia.
  rewrite !decide_True by (split; reflexivity).
  rewrite (bool_decide_false (net.v4InV6Prefix ++ [a; b; c; d] = replicate 16 Byte.x00))
    by (intros Hx; vm_compute in Hx; discriminate Hx).
  rewrite (bool_decide_false (take 12 (replicate 16 Byte.x00) = net.v4InV6Prefix))
    by (intros Hx; vm_compute in Hx; discriminate Hx).
  rewrite (bool_decide_true (take 12 (net.v4InV6Prefix ++ _) = net.v4InV6Prefix))
    by reflexivity.
  simpl andb. f_equal. apply bool_decide_ext. split.
  - intros Hx. apply (f_equal (drop 12)) in Hx. exact Hx.
  - intros Hx. change (drop 12 (net.v4InV6Prefix ++ ?l)) with l in Hx. rewrite Hx. reflexivity.
Qed.

Lemma String_IPv4 (a b c d : byte) :
  net.String (net.IPv4 a b c d) = net.String (Some [a; b; c; d]).
Proof. reflexivity. Qed.

(** The 16-byte form of a host has the text of the host. *)
Lemma NormalizeIP_To16 (ip : net.IP) :
  validHost ip → utils.NormalizeIP (net.To16 ip) = utils.NormalizeIP ip.
Proof.
  intros [H4|H16].
  - destruct ip as [l|]; [|discriminate H4]. unfold net.len in H4. cbn [net.bytes] in H4.
    destruct l as [|a [|b [|c [|d [|? ?]]]]]; try discriminate H4.
    change (net.To16 (Some [a; b; c; d])) with (net.IPv4 a b c d).
    unfold utils.NormalizeIP, utils.ResolveIP.
    rewrite IsLoopback_IPv4, IsUnspecified_IPv4.
    change (bool_decide (net.IPv4 a b c d = None)) with false.
    change (bool_decide (Some [a; b; c; d] = None :> net.IP)) with false.
    destruct (_ || _ || _); [reflexivity|].
    rewrite !decide_False by discriminate. apply String_IPv4.
  - destruct (To16_valid ip (or_intror H16)) as (h & Hh & _ & _ & Hsame).
    rewrite Hh, (Hsame H16). reflexivity.
Qed.

Section IdentityOnTheWire.
Context {K : Type} `{PublicKeyLaws K}.

(** Decoding the encoding of a valid identity gives the key, the host
    in 16-byte form and the port. *)
Lemma UnmarshalID_of_Marshal (i : id.ID K) (shape : K) :
  validHost (id.Host i) → validPort (id.Port i) →
  ∃ buf, id.Marshal i = Ok buf
    ∧ id.UnmarshalID buf shape
      = Ok {| id.ID_ := id.ID_ i; id.Host := net.To16 (id.Host i); id.Port := id.Port i |}.
Proof.
  intros Hhost Hport.
  destruct (To16_valid _ Hhost) as (h & Hh & Hlen & _).
  eexists. split; [apply id_Marshal_bytes|]. rewrite Hh. cbn [net.bytes].
  pose proof (Bytes_Size shape (id.ID_ i)) as Hsize.
  destruct (UnmarshalID_long (keys.Bytes (id.ID_ i) ++ h ++ be16 (id.Port i)) shape)
    as (k & Hk & ->).
  { rewrite !length_app, Hsize, Hlen. simpl. lia. }
  rewrite <- Hsize in *.
  rewrite take_app_length in Hk. rewrite Unmarshal_Bytes in Hk.
  injection Hk as <-.
  rewrite drop_app_length.
  rewrite <- Hlen at 1. rewrite take_app_length.
  rewrite app_assoc, <- Hlen, <- length_app, drop_app_length.
  change (take 2 (be16 (id.Port i))) with (be16 (id.Port i)).
  rewrite be_value_be16, Z.mod_small by exact Hport. reflexivity.
Qed.

(** X6.  The address of an identity survives the wire: a valid identity
    that is encoded and decoded has the [Address] it had, although its
    host may have changed from 4 bytes to 16. *)
Theorem Address_survives_the_wire (i : id.ID K) (shape : K) :
  validHost (id.Host i) → validPort (id.Port i) →
  ∃ buf i', id.Marshal i = Ok buf
    ∧ id.UnmarshalID buf shape = Ok i'
    ∧ id.Address i' = id.Address i.
Proof.
  intros Hhost Hport.
  destruct (UnmarshalID_of_Marshal i shape Hhost Hport) as (buf & Hbuf & Hdec).
  eexists _, _. split; [exact Hbuf|]. split; [exact Hdec|].
  unfold id.Address. cbn [id.Host id.Port]. rewrite NormalizeIP_To16 by exact Hhost.
  reflexivity.
Qed.

(** X7.  [Address] puts the host in brackets exactly when it is a proper
    IPv6 address.  For a host that [ResolveIP] keeps, the address is the
    bracketed text of a 16-byte host that is not an IPv4 address, and the
    bare text of any other host, each followed by a colon and the port. *)
Theorem Address_brackets_proper_IPv6 (i : id.ID K) :
  utils.ResolveIP (id.Host i) ≠ None →
  id.Address i
  = (if decide (properIPv6 (id.Host i))
     then "[" +:+ net.String (id.Host i) +:+ "]"
     else net.String (id.Host i))
    +:+ ":" +:+ strconv.FormatUint (id.Port i).
Proof.
  intros Hkeep. unfold id.Address, utils.NormalizeIP.
  rewrite decide_False by exact Hkeep. rewrite (ResolveIP_keeps _ Hkeep).
  apply JoinHostPort_String.
Qed.

(** X8.  An identity whose host is nil or has a length other than 4 and
    16 is encoded without a host: the key followed by the two port
    bytes.  That encoding is 16 bytes short, and [UnmarshalID] rejects
    it as truncated. *)
Theorem Marshal_drops_invalid_host (i : id.ID K) (shape : K) :
  ¬ validHost (id.Host i) →
  ∃ buf, id.Marshal i = Ok buf
    ∧ buf = keys.Bytes (id.ID_ i) ++ be16 (id.Port i)
    ∧ length buf = (keys.Size shape + 2)%nat
    ∧ id.UnmarshalID buf shape = Err ErrUnexpectedEOF.
Proof.
  intros Hbad. eexists. split; [apply id_Marshal_bytes|].
  assert (net.To16 (id.Host i) = None) as ->.
  { unfold validHost, net.len in Hbad. destruct (id.Host i) as [l|]; [|reflexivity].
    cbn [net.bytes] in Hbad. unfold net.To16.
    destruct (decide (length l = net.IPv4len)); [tauto|].
    destruct (decide (length l = net.IPv6len)); [tauto|reflexivity]. }
  cbn [net.bytes app].
  assert (length (keys.Bytes (id.ID_ i) ++ be16 (id.Port i)) = (keys.Size shape + 2)%nat)
    as Hlen by (rewrite length_app, (Bytes_Size shape); reflexivity).
  split; [reflexivity|]. split; [exact Hlen|].
  apply UnmarshalID_short. lia.
Qed.

(** X9.  [UnmarshalID] reads the key, the 16 host bytes and the two port
    bytes and nothing behind them: bytes that follow a complete encoding
    do not change the result, the decoded host is always 16 bytes long
    and the decoded port is a [uint16]. *)
Theorem UnmarshalID_ignores_trailing_bytes (buf extra : list byte) (shape : K) :
  (keys.Size shape + 18 ≤ length buf)%nat →
  ∃ i, id.UnmarshalID buf shape = Ok i
    ∧ id.UnmarshalID (buf ++ extra) shape = Ok i
    ∧ id.UnmarshalID (take (keys.Size shape + 18) buf) shape = Ok i
    ∧ net.len (id.Host i) = net.IPv6len
    ∧ validPort (id.Port i).
Proof.
  intros Hlen.
  destruct (UnmarshalID_long buf shape Hlen) as (k & Hk & Hdec).
  eexists. split; [exact Hdec|].
  set (n := keys.Size shape) in *.
  assert (∀ b, (n + 18 ≤ length b)%nat → take (n + 18) b = take (n + 18) buf →
    id.UnmarshalID b shape = id.UnmarshalID buf shape) as Hsame.
  { intros b Hb Hpre.
    destruct (UnmarshalID_long b shape Hb) as (k' & Hk' & ->). rewrite Hdec.
    fold n in Hk' |- *.
    assert (∀ (c : list byte) (lo m : nat), (lo + m ≤ n + 18)%nat →
      take m (drop lo c) = take m (drop lo (take (n + 18) c))) as Hwin.
    { intros c lo m Hm. rewrite skipn_firstn_comm, take_take. f_equal. lia. }
    assert (take n b = take n buf) as Hkey.
    { rewrite <- (drop_0 b), <- (drop_0 buf), (Hwin b), (Hwin buf), Hpre by lia. reflexivity. }
    rewrite Hkey, Hk in Hk'. injection Hk' as <-.
    rewrite (Hwin b n 16%nat), (Hwin buf n 16%nat), Hpre by lia.
    rewrite (Hwin b (n + 16)%nat 2%nat), (Hwin buf (n + 16)%nat 2%nat), Hpre by lia.
    reflexivity. }
  split; [|split; [|split]].
  - rewrite <- Hdec. apply Hsame.
    + rewrite length_app. lia.
    + rewrite take_app_le by lia. reflexivity.
  - rewrite <- Hdec. apply Hsame.
    + rewrite length_take. lia.
    + rewrite take_take. f_equal. lia.
  - unfold net.len, net.IPv6len. cbn [id.Host net.bytes].
    rewrite length_take, length_drop. lia.
  - cbn [id.Port]. unfold validPort.
    pose proof (be_value_nonneg (take 2 (drop (n + 16) buf))).
    pose proof (be_value_bound (take 2 (drop (n + 16) buf))) as Hb.
    rewrite length_take, length_drop in Hb.
    replace (2 `min` (length buf - (n + 16)))%nat with 2%nat in Hb by lia.
    change (256 ^ Z.of_nat 2) with (2 ^ 16) in Hb. lia.
Qed.

(** X10.  Encoding what [UnmarshalID] decoded gives back the bytes it
    read: for a key type whose keys keep the bytes they were made from,
    the encoding of the decoded identity is the buffer's first key size
    plus 18 bytes. *)
Theorem Marshal_of_UnmarshalID (buf : list byte) (shape : K) (i : id.ID K) :
  (∀ (b : list byte) (k : K),
     keys.UnmarshalPublicKeyFromByte shape b = Ok k → keys.Bytes k = b) →
  id.UnmarshalID buf shape = Ok i →
  id.Marshal i = Ok (take (keys.Size shape + 18) buf).
Proof.
  intros Hkeep Hdec.
  destruct (decide (length buf < keys.Size shape + 18)%nat) as [Hshort|Hlong].
  { rewrite UnmarshalID_short in Hdec by exact Hshort. discriminate. }
  destruct (UnmarshalID_long buf shape) as (k & Hk & Hdec'); [lia|].
  rewrite Hdec in Hdec'. injection Hdec' as ->.
  rewrite id_Marshal_bytes. cbn [id.ID_ id.Host id.Port]. f_equal.
  rewrite (Hkeep _ _ Hk).
  set (n := keys.Size shape) in *.
  assert (net.To16 (Some (take 16 (drop n buf))) = Some (take 16 (drop n buf))) as ->.
  { unfold net.To16, net.IPv4len, net.IPv6len.
    assert (length (take 16 (drop n buf)) = 16%nat) as H16
      by (rewrite length_take, length_drop; lia).
    rewrite decide_False by lia. rewrite decide_True by exact H16. reflexivity. }
  cbn [net.bytes].
  rewrite be16_be_value by (rewrite length_take, length_drop; lia).
  rewrite <- (take_drop n (take (n + 18) buf)). rewrite take_take.
  replace (n `min` (n + 18))%nat with n by lia. f_equal.
  rewrite skipn_firstn_comm. replace (n + 18 - n)%nat with 18%nat by lia.
  rewrite <- (take_drop 16 (take 18 (drop n buf))). rewrite take_take. simpl Nat.min. f_equal.
  rewrite skipn_firstn_comm, drop_drop. reflexivity.
Qed.
End IdentityOnTheWire.

Lemma Address_survives_the_wire_witness :
  ∃ buf i', id.Marshal peer4 = Ok buf
    ∧ id.UnmarshalID buf zeroKey = Ok i'
    ∧ id.Address i' = id.Address peer4.
Proof.
  apply (Address_survives_the_wire peer4 zeroKey).
  - left. reflexivity.
  - unfold validPort. simpl. lia.
Defined.

Lemma Address_brackets_proper_IPv6_witness :
  utils.ResolveIP (id.Host peer4) ≠ None
  ∧ id.Address peer4
    = (if decide (properIPv6 (id.Host peer4))
       then "[" +:+ net.String (id.Host peer4) +:+ "]"
       else net.String (id.Host peer4))
      +:+ ":" +:+ strconv.FormatUint (id.Port peer4).
Proof.
  assert (utils.ResolveIP (id.Host peer4) ≠ None) as Hkeep by (vm_compute; discriminate).
  split; [exact Hkeep|]. apply (Address_brackets_proper_IPv6 peer4 Hkeep).
Defined.

Lemma Marshal_drops_invalid_host_witness :
  ∃ buf, id.Marshal (id.NewID zeroKey None 8080) = Ok buf
    ∧ buf = keys.Bytes zeroKey ++ be16 8080
    ∧ length buf = (keys.Size zeroKey + 2)%nat
    ∧ id.UnmarshalID buf zeroKey = Err ErrUnexpectedEOF.
Proof.
  apply (Marshal_drops_invalid_host (id.NewID zeroKey None 8080) zeroKey).
  unfold validHost. simpl. intros [Hx|Hx]; discriminate Hx.
Defined.

Lemma UnmarshalID_ignores_trailing_bytes_witness :
  ∃ i, id.UnmarshalID (replicate 50 Byte.x01) zeroKey = Ok i
    ∧ id.UnmarshalID (replicate 50 Byte.x01 ++ [Byte.xff]) zeroKey = Ok i
    ∧ id.UnmarshalID (take (keys.Size zeroKey + 18) (replicate 50 Byte.x01)) zeroKey = Ok i
    ∧ net.len (id.Host i) = net.IPv6len
    ∧ validPort (id.Port i).
Proof.
  apply (UnmarshalID_ignores_trailing_bytes (replicate 50 Byte.x01) [Byte.xff] zeroKey).
  simpl. lia.
Defined.

Lemma Ed25519_Bytes_of_Unmarshal (shape : keys.Ed25519PublicKey) (b : list byte)
    (k : keys.Ed25519PublicKey) :
  keys.UnmarshalPublicKeyFromByte shape b = Ok k → keys.Bytes k = b.
Proof.
  change (keys.UnmarshalPublicKeyFromByte shape b)
    with (if decide (length b = ed25519.PublicKeySize)
          then Ok (to_array ed25519.PublicKeySize b)
          else Err ErrUnexpectedEOF).
  destruct (decide _) as [Hb|]; [|discriminate]. intros Hk.
  assert (k = to_array ed25519.PublicKeySize b) as -> by congruence.
  change (vec_to_list (to_array ed25519.PublicKeySize b) = b).
  apply vec_to_list_to_array_exact, Hb.
Qed.

Lemma Marshal_of_UnmarshalID_witness :
  id.Marshal {| id.ID_ := to_array ed25519.PublicKeySize (replicate 32 Byte.x01);
                id.Host := Some (replicate 16 Byte.x01); id.Port := 257 |}
  = Ok (take (keys.Size zeroKey + 18) (replicate 51 Byte.x01)).
Proof.
  apply (Marshal_of_UnmarshalID (replicate 51 Byte.x01) zeroKey).
  - apply Ed25519_Bytes_of_Unmarshal.
  - reflexivity.
Defined.

(** ** Resolved addresses *)

Lemma verb_d_nonneg (v : Z) : 0 ≤ v → fmt.verb_d v = strconv.FormatUint v.
Proof. intros Hv. unfold fmt.verb_d. rewrite decide_False by lia. reflexivity. Qed.

Section ResolvedAddress.
Context {K : Type} `{keys.PublicKey K}.

(** X11.  [ResolveAddress] gives no address for a host that is nil,
    loopback or unspecified.  For any other resolved host and a port
    that is a [uint16] it returns the host's text, a colon and the port;
    that is the [Address] of an identity with this host and port unless
    the host is a proper IPv6 address, which [Address] alone puts in
    brackets. *)
Theorem ResolveAddress_and_Address (ResolveTCPAddr : string → net.TCPAddr + error)
    (address : string) (addr : net.TCPAddr) (k : K) :
  ResolveTCPAddr address = inl addr → validPort (net.TCPAddr_Port addr) →
  let ip := net.TCPAddr_IP addr in
  let i := id.NewID k ip (net.TCPAddr_Port addr) in
  (ip = None ∨ net.IsLoopback ip = true ∨ net.IsUnspecified ip = true →
   utils.ResolveAddress ResolveTCPAddr address = ("", Some (utils.ErrInvalidIP ip)))
  ∧ (¬ (ip = None ∨ net.IsLoopback ip = true ∨ net.IsUnspecified ip = true) →
     ∃ s, utils.ResolveAddress ResolveTCPAddr address = (s, None)
       ∧ s = net.String ip +:+ ":" +:+ strconv.FormatUint (net.TCPAddr_Port addr)
       ∧ (s = id.Address i ↔ ¬ properIPv6 ip)).
Proof.
  intros Hres Hport ip i. unfold utils.ResolveAddress. rewrite Hres. fold ip.
  rewrite <- ResolveIP_None. split.
  - intros Hnone. rewrite decide_True by exact Hnone. reflexivity.
  - intros Hkeep. rewrite decide_False by exact Hkeep.
    rewrite (ResolveIP_keeps _ Hkeep), verb_d_nonneg by apply Hport.
    eexists. split; [reflexivity|]. split; [reflexivity|].
    unfold id.Address, utils.NormalizeIP. cbn [id.Host id.Port i id.NewID].
    rewrite decide_False by exact Hkeep. rewrite (ResolveIP_keeps _ Hkeep).
    rewrite JoinHostPort_String.
    destruct (decide (properIPv6 ip)) as [H6|H6].
    + split; [|tauto]. intros Heq. apply (f_equal String.length) in Heq.
      rewrite !length_append in Heq. simpl in Heq. lia.
    + split; [auto|reflexivity].
Qed.
End ResolvedAddress.

Lemma ResolveAddress_and_Address_witness :
  let ip := net.TCPAddr_IP exampleAddr in
  let i := id.NewID zeroKey ip (net.TCPAddr_Port exampleAddr) in
  (ip = None ∨ net.IsLoopback ip = true ∨ net.IsUnspecified ip = true →
   utils.ResolveAddress exampleResolver "peer.example:8080"
   = ("", Some (utils.ErrInvalidIP ip)))
  ∧ (¬ (ip = None ∨ net.IsLoopback ip = true ∨ net.IsUnspecified ip = true) →
     ∃ s, utils.ResolveAddress exampleResolver "peer.example:8080" = (s, None)
       ∧ s = net.String ip +:+ ":" +:+ strconv.FormatUint (net.TCPAddr_Port exampleAddr)
       ∧ (s = id.Address i ↔ ¬ properIPv6 ip)).
Proof.
  apply (ResolveAddress_and_Address exampleResolver "peer.example:8080" exampleAddr zeroKey).
  - reflexivity.
  - unfold validPort. simpl. lia.
Defined.

(** ** Keys and signatures as text *)

Lemma fromHexChar_None (c : ascii) : hex.fromHexChar c = None ↔ ¬ isHexDigit c.
Proof. rewrite <- fromHexChar_isHexDigit, eq_None_not_Some. reflexivity. Qed.

(** The error of [hex.Decode]: the first character that is no digit, or
    else the odd length. *)
Lemma Decode_error (s : string) :
  (hex.Decode s).2
  = match firstNonHex s with
    | Some c => Some (ErrHexInvalidByte c)
    | None => if Nat.odd (String.length s) then Some ErrHexLength else None
    end.
Proof.
  induction s as [| c | c d s IH] using string_pair_ind.
  - reflexivity.
  - cbn [hex.Decode firstNonHex].
    destruct (hex.fromHexChar c) eqn:Hc.
    + rewrite decide_True by (apply fromHexChar_isHexDigit; eauto). reflexivity.
    + rewrite decide_False by (apply fromHexChar_None, Hc). reflexivity.
  - cbn [hex.Decode firstNonHex].
    destruct (hex.fromHexChar c) eqn:Hc.
    2:{ rewrite decide_False by (apply fromHexChar_None, Hc). reflexivity. }
    rewrite decide_True by (apply fromHexChar_isHexDigit; eauto).
    destruct (hex.fromHexChar d) eqn:Hd.
    2:{ rewrite decide_False by (apply fromHexChar_None, Hd). reflexivity. }
    rewrite decide_True by (apply fromHexChar_isHexDigit; eauto).
    destruct (hex.Decode s) as [out err]. cbn [snd] in *. rewrite IH.
    change (String.length (String c (String d s))) with (S (S (String.length s))).
    rewrite Nat.odd_succ_succ. reflexivity.
Qed.

(** X12.  [LoadKeysFromHex] on every string.  A character that is no
    hexadecimal digit fails the decoding with the first such character,
    an odd number of digits fails it with the length error, an even
    number other than 128 is the invalid-key-size error with half that
    number as the size found, and 128 digits are the key they decode to. *)
Theorem LoadKeysFromHex_outcome (secretHex : string) :
  keys.LoadKeysFromHex secretHex
  = match firstNonHex secretHex with
    | Some c => Err (ErrDecodeKey (ErrHexInvalidByte c))
    | None =>
        if Nat.odd (String.length secretHex) then Err (ErrDecodeKey ErrHexLength)
        else if decide (String.length secretHex = 128%nat)
             then Ok (to_array ed25519.PrivateKeySize (decoded secretHex))
             else Err (ErrInvalidKeySize (String.length secretHex / 2)
                         ed25519.PrivateKeySize ErrUnexpectedEOF)
    end.
Proof.
  unfold keys.LoadKeysFromHex, hex.DecodeString.
  pose proof (Decode_error secretHex) as Herr.
  pose proof (Decode_ok_iff secretHex) as Hok.
  pose proof (Decode_length secretHex) as Hlen.
  unfold decoded, hex.DecodeString.
  destruct (hex.Decode secretHex) as [secret err]. cbn [fst snd] in *. subst err.
  destruct (firstNonHex secretHex) as [c|]; [reflexivity|].
  destruct (Nat.odd (String.length secretHex)); [reflexivity|].
  specialize (Hlen (proj1 Hok eq_refl)). unfold ed25519.PrivateKeySize.
  destruct (decide (String.length secretHex = 128%nat)) as [H128|H128].
  - rewrite decide_False by lia. reflexivity.
  - rewrite decide_True by lia. rewrite <- Hlen.
    rewrite Nat.mul_comm, Nat.div_mul by lia. reflexivity.
Qed.

(** X13.  The text forms never fail and read back.  [String] of a
    public key is 64 lower-case hexadecimal digits and [String] of a
    signature is 128, and [hex.DecodeString] of either returns the bytes
    of the value and no error. *)
Theorem String_is_lowercase_hex_and_decodes
    (pub : keys.Ed25519PublicKey) (sig : keys.Ed25519Signature) :
  ∃ s t, keys.PublicKey_String pub = Ok s
    ∧ keys.Signature_String sig = Ok t
    ∧ String.length s = 64%nat ∧ String.length t = 128%nat
    ∧ allChars isLowerHexChar s = true ∧ allChars isLowerHexChar t = true
    ∧ hex.DecodeString s = (vec_to_list pub, None)
    ∧ hex.DecodeString t = (vec_to_list sig, None).
Proof.
  eexists _, _. split; [reflexivity|]. split; [reflexivity|].
  rewrite !length_EncodeToString, !length_vec_to_list, !EncodeToString_hex,
    !DecodeString_EncodeToString.
  repeat split; reflexivity.
Qed.

(** X14.  [LoadKeysFromHex] inverts the hexadecimal text of a private
    key: loading the lower-case text of the 64 bytes of a key returns
    that key.  The text of a public key is refused, with the
    invalid-key-size error for 32 bytes. *)
Theorem LoadKeysFromHex_reads_back_hex
    (e : keys.Ed25519PrivateKey) (pub : keys.Ed25519PublicKey) :
  keys.LoadKeysFromHex (hex.EncodeToString (vec_to_list e)) = Ok e
  ∧ (keys.PublicKey_String pub ≫= keys.LoadKeysFromHex)
    = Err (ErrInvalidKeySize 32 ed25519.PrivateKeySize ErrUnexpectedEOF).
Proof.
  unfold keys.PublicKey_String. cbn [mbind result_bind].
  unfold keys.LoadKeysFromHex. rewrite !DecodeString_EncodeToString.
  rewrite !length_vec_to_list. unfold ed25519.PrivateKeySize, ed25519.PublicKeySize.
  rewrite decide_False by (intros Hn; apply Hn; reflexivity).
  rewrite decide_True by lia. split; [|reflexivity].
  f_equal. apply (to_array_vec_to_list 64).
Qed.

(** X15.  [ed25519UnmarshalSignature] panics on fewer than 64 bytes and
    on no other input; given more, it takes the first 64 bytes and
    ignores the rest. *)
Theorem ed25519UnmarshalSignature_bounds (data : list byte) :
  (keys.ed25519UnmarshalSignature data = Panic ↔ (length data < 64)%nat)
  ∧ ((64 ≤ length data)%nat →
     ∃ s, keys.ed25519UnmarshalSignature data = Ok s
       ∧ vec_to_list s = take 64 data
       ∧ keys.ed25519UnmarshalSignature (take 64 data) = Ok s).
Proof.
  unfold keys.ed25519UnmarshalSignature, ed25519.SignatureSize.
  change (64 - 1)%nat with 63%nat.
  destruct (data !! 63%nat) as [x|] eqn:Hx.
  - apply lookup_lt_Some in Hx. split; [split; [discriminate|lia]|].
    intros _. eexists. split; [reflexivity|].
    split.
    + rewrite vec_to_list_to_array.
      replace (64 - length data)%nat with 0%nat by lia. apply app_nil_r.
    + destruct (take 64 data !! 63%nat) eqn:E.
      2:{ apply lookup_ge_None in E. rewrite length_take in E. lia. }
      f_equal.
      apply vec_to_list_inj2. rewrite !vec_to_list_to_array, take_take.
      rewrite length_take. f_equal. f_equal. lia.
  - apply lookup_ge_None in Hx. split; [split; [lia|reflexivity]|]. lia.
Qed.

(** X23.  [Public] never fails and derives nothing: it returns the last
    32 bytes of the private key, which for a key that [LoadKeysFromHex]
    returned are the last 32 bytes the string decodes to. *)
Theorem Public_is_the_second_half (e : keys.Ed25519PrivateKey) :
  ∃ pub, keys.Public e = Ok pub
    ∧ vec_to_list pub = drop 32 (vec_to_list e)
    ∧ (∀ secretHex, keys.LoadKeysFromHex secretHex = Ok e →
         vec_to_list pub = drop 32 (decoded secretHex)).
Proof.
  destruct (Public_bytes e) as (pub & Hpub & Hbytes).
  exists pub. split; [exact Hpub|]. split; [exact Hbytes|].
  intros secretHex Hload. rewrite Hbytes. f_equal.
  unfold keys.LoadKeysFromHex, decoded in *.
  destruct (hex.DecodeString secretHex) as [secret [err|]]; [discriminate|].
  destruct (decide _) as [|Hlen]; [discriminate|]. apply dec_stable in Hlen.
  assert (to_array ed25519.PrivateKeySize secret = e) as Heq by congruence.
  cbn [fst]. rewrite <- Heq. apply vec_to_list_to_array_exact, Hlen.
Qed.

(** ** Generating keys and signing *)

Section KeysOverAnyCurve.
Context `{edwards25519.Curve}.

Lemma GenerateKey_seed (rand : io.Reader) :
  (32 ≤ length rand)%nat →
  ∃ pub, ed25519.GenerateKey rand
         = Ok (pub, take 32 rand ++ edwards25519.Bytes
                      (edwards25519.ScalarBaseMult (ed25519.secretScalar (take 32 rand)))).
Proof.
  intros Hrand. unfold ed25519.GenerateKey, io.ReadFull, ed25519.SeedSize.
  rewrite decide_True by exact Hrand. cbn [mbind result_bind].
  unfold ed25519.NewKeyFromSeed, ed25519.SeedSize.
  rewrite decide_False by (rewrite length_take; lia). cbn [mbind result_bind].
  rewrite slice_ok by (rewrite length_app, length_take; lia). cbn [mbind result_bind].
  eexists. reflexivity.
Qed.

(** X16.  [GenerateKeys] takes 32 bytes from its reader and no more.  A
    reader that runs dry earlier makes it fail with the wrapped error of
    [io.ReadFull], [io.EOF] when the reader gave nothing and
    [io.ErrUnexpectedEOF] otherwise; with 32 bytes or more it succeeds,
    the private key begins with the 32 bytes read, and what follows them
    in the reader does not change the keys. *)
Theorem GenerateKeys_reads_32_bytes (rand : io.Reader) :
  ((length rand < 32)%nat →
   keys.GenerateKeys rand
   = Err (ErrGenerateKeys (if decide (length rand = 0%nat) then ErrEOF else ErrUnexpectedEOF)))
  ∧ ((32 ≤ length rand)%nat →
     ∃ pub priv, keys.GenerateKeys rand = Ok (pub, priv)
       ∧ keys.GenerateKeys (take 32 rand) = Ok (pub, priv)
       ∧ take 32 (vec_to_list priv) = take 32 rand).
Proof.
  split.
  - intros Hshort. unfold keys.GenerateKeys, ed25519.GenerateKey, io.ReadFull, ed25519.SeedSize.
    rewrite decide_False by lia.
    destruct (decide (length rand = 0%nat)); reflexivity.
  - intros Hlong.
    assert (ed25519.GenerateKey (take 32 rand) = ed25519.GenerateKey rand) as Hsame.
    { unfold ed25519.GenerateKey, io.ReadFull, ed25519.SeedSize.
      rewrite !decide_True by (rewrite ?length_take; lia). rewrite take_take. reflexivity. }
    destruct (GenerateKey_seed rand Hlong) as (pub & Hgen).
    unfold keys.GenerateKeys. rewrite Hsame, Hgen.
    eexists _, _. split; [reflexivity|]. split; [reflexivity|].
    rewrite vec_to_list_to_array. unfold ed25519.PrivateKeySize.
    rewrite take_app_le by (rewrite length_take, length_app, length_take; lia).
    rewrite take_take. change (32 `min` 64)%nat with 32%nat.
    rewrite take_app_le by (rewrite length_take; lia).
    rewrite take_take. f_equal.
Qed.
End KeysOverAnyCurve.

Section KeysOverTheCurve.
Context `{edwards25519.Curve} (OnCurve : edwards25519.Point → Prop) `{!CurveLaws OnCurve}.

(** X17.  The keys [GenerateKeys] makes work together: over a curve
    that obeys the group laws, the public key returned is the one
    [Public] derives from the private key, [Sign] with the private key
    succeeds on every data, and [Verify] with the public key accepts the
    signature without an error. *)
Theorem GenerateKeys_signs_verifiably (rand : io.Reader) (data : list byte) :
  (32 ≤ length rand)%nat →
  ∃ pub priv signature, keys.GenerateKeys rand = Ok (pub, priv)
    ∧ keys.Public priv = Ok pub
    ∧ keys.Sign priv data = Ok signature
    ∧ keys.Verify pub data signature = Ok (true, None).
Proof.
  intros Hrand.
  destruct (GenerateKeys_consistent OnCurve rand Hrand) as (pub & priv & Hgen & Hkey & Hpub).
  unfold consistentKey, ed25519.NewKeyFromSeed, ed25519.SeedSize in Hkey.
  destruct (decide _) as [|Hseed]; [discriminate|]. apply dec_stable in Hseed.
  injection Hkey as Hkey.
  destruct (verify_sign OnCurve _ data Hseed) as [Hlen Hverify].
  rewrite Hkey in Hlen, Hverify.
  destruct (Public_bytes priv) as (pub' & Hpub' & Hbytes).
  assert (pub' = pub) as -> by congruence.
  destruct (Sign_bytes priv data Hlen) as (sig & Hsign & Hsig).
  eexists _, _, _. split; [exact Hgen|]. split; [exact Hpub|]. split; [exact Hsign|].
  cbn [keys.Verify mbind result_bind].
  rewrite ed25519_Verify_key, Hbytes, Hsig, Hverify. reflexivity.
Qed.

(** X18.  [Sign] never fails: over a curve that obeys the group laws,
    signing with any private key, consistent or not, returns an
    [Ed25519Signature].  Its second half is a canonical scalar: the top
    three bits of the last byte are clear and the half decodes, so that
    [Verify] gets past its checks of the signature's form. *)
Theorem Sign_always_returns_a_canonical_signature
    (e : keys.Ed25519PrivateKey) (data : list byte) :
  ∃ s : keys.Ed25519Signature, keys.Sign e data = Ok (keys.SigEd25519 s)
    ∧ (∃ x, vec_to_list s !! 63%nat = Some x ∧ Z.land (Z_of_byte x) 224 = 0)
    ∧ is_Some (edwards25519.SetCanonicalBytes (drop 32 (vec_to_list s))).
Proof.
  assert (∃ R S_, ed25519.sign (vec_to_list e) data
                  = edwards25519.Bytes R ++ edwards25519.ScalarBytes S_
                  ∧ OnCurve R ∧ 0 ≤ S_ < edwards25519.l) as (R & S_ & Hsign & HR & HS).
  { eexists _, _. split; [reflexivity|]. split; [apply (onCurve_ScalarBaseMult OnCurve)|].
    unfold edwards25519.MultiplyAdd. apply scalar_range. }
  pose proof (Bytes_length R HR) as HRlen.
  assert (length (ed25519.sign (vec_to_list e) data) = ed25519.SignatureSize) as Hlen.
  { rewrite Hsign, length_app, HRlen. unfold edwards25519.ScalarBytes.
    rewrite length_le_bytes. reflexivity. }
  destruct (Sign_bytes e data Hlen) as (s & Hs & Hbytes).
  exists s. split; [exact Hs|]. rewrite Hbytes, Hsign. split.
  - destruct (ScalarBytes_high_bits S_ HS) as (x & Hx & Hbits).
    exists x. split; [|exact Hbits].
    rewrite lookup_app_r by lia. rewrite HRlen. exact Hx.
  - rewrite <- HRlen, drop_app_length.
    rewrite (SetCanonicalBytes_ScalarBytes S_ HS). eauto.
Qed.
End KeysOverTheCurve.

Lemma GenerateKeys_signs_verifiably_witness :
  ∃ pub priv signature, keys.GenerateKeys (H:=residues) rfcSeed = Ok (pub, priv)
    ∧ keys.Public priv = Ok pub
    ∧ keys.Sign (H:=residues) priv [Byte.x61] = Ok signature
    ∧ keys.Verify (H:=residues) pub [Byte.x61] signature = Ok (true, None).
Proof.
  apply (GenerateKeys_signs_verifiably (H:=residues) isResidue rfcSeed [Byte.x61]).
  vm_compute. lia.
Defined.

Lemma Sign_always_returns_a_canonical_signature_witness :
  ∃ s : keys.Ed25519Signature,
    keys.Sign (H:=residues) inconsistentKey [Byte.x61] = Ok (keys.SigEd25519 s)
    ∧ (∃ x, vec_to_list s !! 63%nat = Some x ∧ Z.land (Z_of_byte x) 224 = 0)
    ∧ is_Some (edwards25519.SetCanonicalBytes (drop 32 (vec_to_list s))).
Proof.
  exact (Sign_always_returns_a_canonical_signature (H:=residues) isResidue
           inconsistentKey [Byte.x61]).
Defined.

(** ** JSON forms *)

Lemma lowerHex_htmlSafe (c : ascii) : isLowerHexChar c = true → json.htmlSafeSet c = true.
Proof.
  destruct c as [[] [] [] [] [] [] [] []]; vm_compute; intros Hc;
    first [reflexivity | discriminate Hc].
Qed.

Lemma addressChar_htmlSafe (c : ascii) : isAddressChar c = true → json.htmlSafeSet c = true.
Proof.
  destruct c as [[] [] [] [] [] [] [] []]; vm_compute; intros Hc;
    first [reflexivity | discriminate Hc].
Qed.

Lemma lowerHex_addressChar (c : ascii) : isLowerHexChar c = true → isAddressChar c = true.
Proof.
  destruct c as [[] [] [] [] [] [] [] []]; vm_compute; intros Hc;
    first [reflexivity | discriminate Hc].
Qed.

Lemma decimal_addressChar (c : ascii) : isDecimalChar c = true → isAddressChar c = true.
Proof.
  destruct c as [[] [] [] [] [] [] [] []]; vm_compute; intros Hc;
    first [reflexivity | discriminate Hc].
Qed.

Lemma decimal_htmlSafe (c : ascii) : isDecimalChar c = true → json.htmlSafeSet c = true.
Proof.
  destruct c as [[] [] [] [] [] [] [] []]; vm_compute; intros Hc;
    first [reflexivity | discriminate Hc].
Qed.

Lemma FormatUint_addressChars (v : Z) : allChars isAddressChar (strconv.FormatUint v) = true.
Proof.
  apply (allChars_mono isDecimalChar); [apply decimal_addressChar|apply FormatUint_decimal].
Qed.

Lemma htmlSafe_ascii (c : ascii) : json.htmlSafeSet c = true → (utf8.code c <? 128) = true.
Proof.
  unfold json.htmlSafeSet. rewrite !andb_true_iff. tauto.
Qed.

(** A string of characters that need no escape is written as it is. *)
Lemma appendStringFrom_safe (s : string) (fuel : nat) :
  allChars json.htmlSafeSet s = true → (String.length s ≤ fuel)%nat →
  json.appendStringFrom fuel s = s.
Proof.
  revert fuel. induction s as [|c s IH]; intros fuel Hs Hfuel.
  - destruct fuel; reflexivity.
  - destruct fuel as [|fuel]; [simpl in Hfuel; lia|].
    simpl in Hs. apply andb_true_iff in Hs as [Hc Hs].
    cbn [json.appendStringFrom]. rewrite (htmlSafe_ascii c Hc), Hc.
    rewrite IH; [reflexivity|exact Hs|simpl in Hfuel; lia].
Qed.

Lemma appendStringFrom_ascii (c : ascii) (s : string) (fuel : nat) :
  (utf8.code c <? 128) = true →
  json.appendStringFrom (S fuel) (String c s)
  = (if json.htmlSafeSet c then String c "" else json.escape c)
    +:+ json.appendStringFrom fuel s.
Proof. intros Hc. cbn [json.appendStringFrom]. rewrite Hc. reflexivity. Qed.

Lemma appendString_safe (s : string) :
  allChars json.htmlSafeSet s = true →
  json.appendString s = json.quote +:+ s +:+ json.quote.
Proof.
  intros Hs. unfold json.appendString. rewrite appendStringFrom_safe; auto.
Qed.

(** X19.  [Json] of a public key and of a signature never fails and
    needs no escape: it is the hexadecimal text between double quotes,
    66 bytes for a key and 130 for a signature. *)
Theorem Json_is_quoted_hex (pub : keys.Ed25519PublicKey) (sig : keys.Ed25519Signature) :
  keys.PublicKey_Json pub
  = Ok (json.quote +:+ hex.EncodeToString (vec_to_list pub) +:+ json.quote, None)
  ∧ keys.Signature_Json sig
    = Ok (json.quote +:+ hex.EncodeToString (vec_to_list sig) +:+ json.quote, None)
  ∧ (∀ b, keys.PublicKey_Json pub = Ok (b, None) → String.length b = 66%nat)
  ∧ (∀ b, keys.Signature_Json sig = Ok (b, None) → String.length b = 130%nat).
Proof.
  assert (∀ b : list byte,
    json.appendString (hex.EncodeToString b)
    = json.quote +:+ hex.EncodeToString b +:+ json.quote) as Hq.
  { intros b. apply appendString_safe.
    apply (allChars_mono isLowerHexChar); [apply lowerHex_htmlSafe|apply EncodeToString_hex]. }
  unfold keys.PublicKey_Json, keys.Signature_Json, keys.PublicKey_String,
    keys.Signature_String, json.Marshal_string.
  rewrite !Hq. cbn [fmap option_fmap option_map].
  split; [reflexivity|]. split; [reflexivity|].
  split; intros b [= <-]; rewrite !length_append, length_EncodeToString, length_vec_to_list;
    reflexivity.
Qed.

Lemma string6From_chars (fuel zs ze : nat) (g : list Z) (i : nat) :
  allChars isAddressChar (net.string6From fuel zs ze g i) = true.
Proof.
  assert (∀ v, allChars isAddressChar (net.appendHex v) = true) as Hhex.
  { intros v. apply (allChars_mono isLowerHexChar);
      [apply lowerHex_addressChar|apply appendHex_hex]. }
  revert i. induction fuel as [|fuel IH]; intros i; [reflexivity|].
  cbn [net.string6From].
  destruct (bool_decide (8 ≤ i)%nat); [reflexivity|].
  destruct (bool_decide (i = zs)).
  - rewrite allChars_app. destruct (bool_decide (8 ≤ ze)%nat); [reflexivity|].
    rewrite allChars_app, Hhex, IH. reflexivity.
  - rewrite !allChars_app, Hhex, IH. destruct (bool_decide (0 < i)%nat); reflexivity.
Qed.

Lemma String_chars (ip : net.IP) :
  net.len ip ≠ 0%nat → allChars isAddressChar (net.String ip) = true.
Proof.
  intros Hlen. unfold net.String. rewrite decide_False by exact Hlen.
  destruct (decide (_ ∧ _)).
  - rewrite allChars_app. apply andb_true_iff. split; [reflexivity|].
    unfold net.hexString.
    apply (allChars_mono isLowerHexChar); [apply lowerHex_addressChar|apply EncodeToString_hex].
  - destruct (decide (net.len (net.To4 ip) = net.IPv4len)).
    + unfold net.string4.
      destruct (net.bytes (net.To4 ip)) as [|a [|b [|c [|d [|? ?]]]]]; try reflexivity.
      rewrite !allChars_app, !FormatUint_addressChars. reflexivity.
    + unfold net.string6. destruct (net.longestZeroRun _ _ _). apply string6From_chars.
Qed.

Section IdentityAsText.
Context {K : Type} `{keys.PublicKey K}.

Lemma Address_chars (i : id.ID K) :
  id.Host i = None ∨ net.len (id.Host i) ≠ 0%nat →
  allChars isAddressChar (id.Address i) = true.
Proof.
  intros Hhost.
  assert (allChars isAddressChar (utils.NormalizeIP (id.Host i)) = true) as Hnorm.
  { unfold utils.NormalizeIP. destruct (decide _) as [|Hkeep]; [reflexivity|].
    rewrite (ResolveIP_keeps _ Hkeep). apply String_chars.
    destruct Hhost as [Hnone|Hlen]; [|exact Hlen].
    destruct Hkeep. rewrite Hnone. reflexivity. }
  unfold id.Address, net.JoinHostPort.
  destruct (net.hasColon _); rewrite !allChars_app, Hnorm, FormatUint_addressChars;
    reflexivity.
Qed.
End IdentityAsText.

(** X20.  [String] of an identity with an Ed25519 key never fails.  It
    is a JSON object of two members, [public_key] with the hexadecimal
    text of the key and [address] with the identity's [Address]; the
    address is written as it is unless the host is an empty slice that
    is not nil, whose text [<nil>] JSON escapes. *)
Theorem ID_String_is_json_of_key_and_address (i : id.ID keys.Ed25519PublicKey) :
  let q := json.quote in
  let member (name v : string) := q +:+ name +:+ q +:+ ":" +:+ q +:+ v +:+ q in
  let key := hex.EncodeToString (vec_to_list (id.ID_ i)) in
  let port := strconv.FormatUint (id.Port i) in
  (id.Host i ≠ Some [] →
   id.String i
   = Ok ("{" +:+ member "public_key" key +:+ "," +:+ member "address" (id.Address i) +:+ "}",
         None))
  ∧ (id.Host i = Some [] →
     id.Address i = "<nil>:" +:+ port
     ∧ id.String i
       = Ok ("{" +:+ member "public_key" key +:+ ","
             +:+ member "address" ("\u003cnil\u003e:" +:+ port) +:+ "}", None)).
Proof.
  intros q member key port.
  assert (json.appendString key = q +:+ key +:+ q) as Hkey.
  { apply appendString_safe.
    apply (allChars_mono isLowerHexChar); [apply lowerHex_htmlSafe|apply EncodeToString_hex]. }
  assert (id.String i
          = Ok ("{" +:+ (q +:+ "public_key" +:+ q +:+ ":" +:+ json.appendString key +:+ ","
                         +:+ q +:+ "address" +:+ q +:+ ":" +:+ json.appendString (id.Address i))
                +:+ "}", None)) as Hstr by reflexivity.
  split.
  - intros Hhost.
    assert (json.appendString (id.Address i) = q +:+ id.Address i +:+ q) as Haddr.
    { apply appendString_safe.
      apply (allChars_mono isAddressChar); [apply addressChar_htmlSafe|].
      apply Address_chars. destruct (id.Host i) as [[|b l]|]; [congruence|right|left];
        [discriminate|reflexivity]. }
    rewrite Hstr, Hkey, Haddr. unfold member. rewrite !append_assoc. reflexivity.
  - intros Hhost.
    assert (id.Address i = "<nil>:" +:+ port) as Haddr.
    { unfold id.Address. rewrite Hhost. reflexivity. }
    split; [exact Haddr|].
    rewrite Hstr, Hkey, Haddr.
    assert (∀ p, allChars json.htmlSafeSet p = true →
            json.appendString ("<nil>:" +:+ p) = q +:+ ("\u003cnil\u003e:" +:+ p) +:+ q) as Hnil.
    { intros p Hp. unfold json.appendString. f_equal.
      change (String.length ("<nil>:" +:+ p))
        with (S (S (S (S (S (S (String.length p))))))).
      change ("<nil>:" +:+ p)
        with (String "<" (String "n" (String "i" (String "l" (String ">" (String ":" p)))))).
      rewrite !appendStringFrom_ascii by reflexivity.
      rewrite appendStringFrom_safe by (trivial || lia). reflexivity. }
    rewrite Hnil
      by (apply (allChars_mono isDecimalChar); [apply decimal_htmlSafe|apply FormatUint_decimal]).
    unfold member. rewrite !append_assoc. reflexivity.
Qed.

(** ** Log levels *)

Lemma setLogLevel_level (LOG_LEVEL : string) :
  (log.setLogLevel LOG_LEVEL).1
  = if decide (LOG_LEVEL = "DEBUG") then zapcore.DebugLevel
    else if decide (LOG_LEVEL = "WARN") then zapcore.WarnLevel
    else if decide (LOG_LEVEL = "ERROR") then zapcore.ErrorLevel
    else if decide (LOG_LEVEL = "CRITICAL") then zapcore.DPanicLevel
    else if decide (LOG_LEVEL = "PANIC") then zapcore.PanicLevel
    else zapcore.InfoLevel.
Proof.
  unfold log.setLogLevel.
  repeat (destruct (decide _) as [->|?]; [reflexivity|]). reflexivity.
Qed.

Lemma NewLogger_level (LOG_LEVEL : string) (Build : zapcore.Level → zap.Logger + string)
    (module : string) (l : log.Logger) :
  (log.NewLogger LOG_LEVEL Build module).1 = Some l →
  log.level l = (log.setLogLevel LOG_LEVEL).1
  ∧ log.Module_ l = module
  ∧ Build (log.setLogLevel LOG_LEVEL).1 = inl (log.zapLogger l).
Proof.
  unfold log.NewLogger. destruct (log.setLogLevel LOG_LEVEL) as [lvl out]. cbn [fst].
  destruct (Build lvl) as [z|err]; [|discriminate].
  intros [= <-]. auto.
Qed.

(** X21.  The logger filters by the order of the level names.  A logger
    made under [LOG_LEVEL] hands a [DEBUG] message to zap only for the
    level [DEBUG]; it drops an [INFO] message exactly for the levels
    [WARN], [ERROR], [CRITICAL] and [PANIC], a [WARN] message for the
    last three of them, an [ERROR] message for the last two and a
    [CRITICAL] message for [PANIC] alone.  [PANIC] is never dropped, and
    it panics.  A message handed over is one more call at the end of
    those zap has received. *)
Theorem log_methods_filter_by_level (LOG_LEVEL : string)
    (Build : zapcore.Level → zap.Logger + string) (module : string) (l : log.Logger)
    (msg : log.LogMessage) (err : log.ErrLogMessage) :
  (log.NewLogger LOG_LEVEL Build module).1 = Some l →
  let received (l' : log.Logger) := length (log.zapLogger l') in
  let passes (l' : log.Logger) := received l' = S (received l) in
  let dropped (l' : log.Logger) := l' = l in
  (if decide (LOG_LEVEL = "DEBUG") then passes (log.DEBUG l msg) else dropped (log.DEBUG l msg))
  ∧ (if decide (LOG_LEVEL ∈ ["WARN"; "ERROR"; "CRITICAL"; "PANIC"])
     then dropped (log.INFO l msg) else passes (log.INFO l msg))
  ∧ (if decide (LOG_LEVEL ∈ ["ERROR"; "CRITICAL"; "PANIC"])
     then dropped (log.WARN l msg) else passes (log.WARN l msg))
  ∧ (if decide (LOG_LEVEL ∈ ["CRITICAL"; "PANIC"])
     then dropped (log.ERROR l err) else passes (log.ERROR l err))
  ∧ (if decide (LOG_LEVEL = "PANIC")
     then dropped (log.CRITICAL l err) else passes (log.CRITICAL l err))
  ∧ passes (log.PANIC l err).1 ∧ (log.PANIC l err).2 = true.
Proof.
  intros Hnew received passes dropped.
  destruct (NewLogger_level _ _ _ _ Hnew) as (Hlevel & _ & _).
  rewrite setLogLevel_level in Hlevel.
  assert (∀ z m f lvl, length (zap.log lvl z m f) = S (length z)) as Hlog.
  { intros. unfold zap.log. rewrite length_app. simpl. lia. }
  unfold passes, dropped, received, log.DEBUG, log.INFO, log.WARN, log.ERROR, log.CRITICAL,
    log.PANIC, zap.Panic_, zap.Debug, zap.Info, zap.Warn, zap.Error_, zap.DPanic.
  rewrite Hlevel.
  destruct (decide (LOG_LEVEL = "DEBUG")) as [->|HD];
    [vm_compute decide; cbn [fst snd log.withZap log.zapLogger]; rewrite ?Hlog; auto 10|].
  destruct (decide (LOG_LEVEL = "WARN")) as [->|HW];
    [vm_compute decide; cbn [fst snd log.withZap log.zapLogger]; rewrite ?Hlog; auto 10|].
  destruct (decide (LOG_LEVEL = "ERROR")) as [->|HE];
    [vm_compute decide; cbn [fst snd log.withZap log.zapLogger]; rewrite ?Hlog; auto 10|].
  destruct (decide (LOG_LEVEL = "CRITICAL")) as [->|HC];
    [vm_compute decide; cbn [fst snd log.withZap log.zapLogger]; rewrite ?Hlog; auto 10|].
  destruct (decide (LOG_LEVEL = "PANIC")) as [->|HP];
    [vm_compute decide; cbn [fst snd log.withZap log.zapLogger]; rewrite ?Hlog; auto 10|].
  rewrite (decide_False (P:=LOG_LEVEL ∈ ["WARN"; "ERROR"; "CRITICAL"; "PANIC"]))
    by (rewrite !elem_of_cons, elem_of_nil; tauto).
  rewrite (decide_False (P:=LOG_LEVEL ∈ ["ERROR"; "CRITICAL"; "PANIC"]))
    by (rewrite !elem_of_cons, elem_of_nil; tauto).
  rewrite (decide_False (P:=LOG_LEVEL ∈ ["CRITICAL"; "PANIC"]))
    by (rewrite !elem_of_cons, elem_of_nil; tauto).
  vm_compute decide. cbn [fst snd log.withZap log.zapLogger]. rewrite ?Hlog. auto 10.
Qed.

Lemma log_methods_filter_by_level_witness :
  let l := {| log.zapLogger := []; log.level := zapcore.WarnLevel; log.Module_ := "p2p" |} in
  let msg := {| log.Desc := "dial"; log.Msg := "connecting" |} in
  let err := {| log.EDesc := "dial"; log.EErr := Some ErrEOF |} in
  let received (l' : log.Logger) := length (log.zapLogger l') in
  let passes (l' : log.Logger) := received l' = S (received l) in
  let dropped (l' : log.Logger) := l' = l in
  (if decide ("WARN" = "DEBUG") then passes (log.DEBUG l msg) else dropped (log.DEBUG l msg))
  ∧ (if decide ("WARN" ∈ ["WARN"; "ERROR"; "CRITICAL"; "PANIC"])
     then dropped (log.INFO l msg) else passes (log.INFO l msg))
  ∧ (if decide ("WARN" ∈ ["ERROR"; "CRITICAL"; "PANIC"])
     then dropped (log.WARN l msg) else passes (log.WARN l msg))
  ∧ (if decide ("WARN" ∈ ["CRITICAL"; "PANIC"])
     then dropped (log.ERROR l err) else passes (log.ERROR l err))
  ∧ (if decide ("WARN" = "PANIC")
     then dropped (log.CRITICAL l err) else passes (log.CRITICAL l err))
  ∧ passes (log.PANIC l err).1 ∧ (log.PANIC l err).2 = true.
Proof.
  exact (log_methods_filter_by_level "WARN" buildOk "p2p"
           {| log.zapLogger := []; log.level := zapcore.WarnLevel; log.Module_ := "p2p" |}
           {| log.Desc := "dial"; log.Msg := "connecting" |}
           {| log.EDesc := "dial"; log.EErr := Some ErrEOF |} eq_refl).
Defined.

(** X22.  A [LOG_LEVEL] that is none of the six names, which are
    case-sensitive, gives the logger of the level [INFO].  [NewLogger]
    then prints the notice of the default twice when the zap logger is
    built, and once before the build's error when it is not, in which
    case it returns nil. *)
Theorem unknown_LOG_LEVEL_defaults_to_INFO (LOG_LEVEL : string)
    (Build : zapcore.Level → zap.Logger + string) (module : string) :
  LOG_LEVEL ∉ levelNames →
  let notice := "No LOG_LEVEL loaded, defaulting to INFO" in
  (log.NewLogger LOG_LEVEL Build module).1 = (log.NewLogger "INFO" Build module).1
  ∧ (∀ z, Build zapcore.InfoLevel = inl z →
       log.NewLogger LOG_LEVEL Build module
       = (Some {| log.zapLogger := z; log.level := zapcore.InfoLevel; log.Module_ := module |},
          [notice; notice])
       ∧ (log.NewLogger "INFO" Build module).2 = [])
  ∧ (∀ err, Build zapcore.InfoLevel = inr err →
       log.NewLogger LOG_LEVEL Build module
       = (None, [notice; "Failed to initialize zap logger: " +:+ err])).
Proof.
  intros Hname notice. unfold levelNames in Hname.
  rewrite !elem_of_cons, elem_of_nil in Hname.
  assert (log.setLogLevel LOG_LEVEL = (zapcore.InfoLevel, [notice])) as Hset.
  { unfold log.setLogLevel. repeat (destruct (decide _) as [->|?]; [tauto|]). reflexivity. }
  unfold log.NewLogger. rewrite Hset.
  change (log.setLogLevel "INFO") with (zapcore.InfoLevel, @nil string).
  split; [|split].
  - destruct (Build zapcore.InfoLevel); reflexivity.
  - intros z ->. split; reflexivity.
  - intros err ->. reflexivity.
Qed.

Lemma unknown_LOG_LEVEL_defaults_to_INFO_witness :
  let notice := "No LOG_LEVEL loaded, defaulting to INFO" in
  (log.NewLogger "debug" buildOk "p2p").1 = (log.NewLogger "INFO" buildOk "p2p").1
  ∧ (∀ z, buildOk zapcore.InfoLevel = inl z →
       log.NewLogger "debug" buildOk "p2p"
       = (Some {| log.zapLogger := z; log.level := zapcore.InfoLevel; log.Module_ := "p2p" |},
          [notice; notice])
       ∧ (log.NewLogger "INFO" buildOk "p2p").2 = [])
  ∧ (∀ err, buildOk zapcore.InfoLevel = inr err →
       log.NewLogger "debug" buildOk "p2p"
       = (None, [notice; "Failed to initialize zap logger: " +:+ err])).
Proof.
  apply (unknown_LOG_LEVEL_defaults_to_INFO "debug" buildOk "p2p").
  unfold levelNames. rewrite !elem_of_cons, elem_of_nil.
  intros [Hx|[Hx|[Hx|[Hx|[Hx|[Hx|[]]]]]]]; discriminate Hx.
Defined.

(** ** Encodings determine what was encoded *)



Section IdentityEncodings.
Context {K : Type} `{PublicKeyLaws K}.

(** X25.  The encoding of an identity determines it up to the form of
    the host: two valid identities with the same encoding have the same
    key, the same port, hosts with the same 16-byte form, and the same
    [Address]. *)
Theorem id_Marshal_injective (i j : id.ID K) :
  validHost (id.Host i) → validHost (id.Host j) →
  validPort (id.Port i) → validPort (id.Port j) →
  id.Marshal i = id.Marshal j →
  id.ID_ i = id.ID_ j
  ∧ net.To16 (id.Host i) = net.To16 (id.Host j)
  ∧ id.Port i = id.Port j
  ∧ id.Address i = id.Address j.
Proof.
  intros Hi Hj Pi Pj Heq.
  destruct (UnmarshalID_of_Marshal i (id.ID_ i) Hi Pi) as (buf & Hbuf & Hdec).
  destruct (UnmarshalID_of_Marshal j (id.ID_ i) Hj Pj) as (buf' & Hbuf' & Hdec').
  assert (buf' = buf) as -> by congruence.
  rewrite Hdec in Hdec'. injection Hdec' as Hkey Hhost Hport.
  split; [exact Hkey|]. split; [exact Hhost|]. split; [exact Hport|].
  unfold id.Address.
  rewrite <- (NormalizeIP_To16 _ Hi), <- (NormalizeIP_To16 _ Hj), Hhost, Hport.
  reflexivity.
Qed.
End IdentityEncodings.

Lemma id_Marshal_injective_witness :
  id.ID_ peer4 = id.ID_ peer16
  ∧ net.To16 (id.Host peer4) = net.To16 (id.Host peer16)
  ∧ id.Port peer4 = id.Port peer16
  ∧ id.Address peer4 = id.Address peer16.
Proof.
  apply (id_Marshal_injective peer4 peer16).
  - left. reflexivity.
  - right. reflexivity.
  - unfold validPort. simpl. lia.
  - unfold validPort. simpl. lia.
  - reflexivity.
Defined.
